(** * IntervuAI: the interview time-slot matching engine

    A shallow embedding of [src/server/services/schedulerService.ts]
    (the buffer-aware, two-pass [SchedulerService]) together with the
    properties its specification states about it, and of the two helpers
    of [src/server/routes/scheduler.ts] that prepare the availability
    records the service is called with.

    Conventions of the embedding:
    - a JavaScript [number] is a [num]: an integer or [NaN].  Every number
      the engine computes from well-formed ["HH:MM"] strings is an integer;
      [NaN] is what arithmetic on a malformed field produces.  Fractions and
      infinities do not occur and are not represented; the one quotient
      that is kept, the hour count of [getSchedulingStats], is a rational;
    - a [string] is a Rocq [string]; object fields keep the source's names
      behind a short prefix naming the interface they belong to;
    - a JavaScript exception is the [None] of an [option];
    - objects whose fields the service assigns to live in an explicit
      [heap], addressed by location. *)

From Stdlib Require Import ZArith QArith String Ascii List Lia.
From Stdlib Require Import DecimalString DecimalPos DecimalZ.
From stdpp Require Import base list strings option gmap.

Open Scope string_scope.
Open Scope list_scope.
Open Scope Z_scope.

(** ** JavaScript primitives used by the service *)

Module JS.

Inductive num := NaN | Int (z : Z).

Definition add (a b : num) : num :=
  match a, b with Int x, Int y => Int (x + y) | _, _ => NaN end.
Definition sub (a b : num) : num :=
  match a, b with Int x, Int y => Int (x - y) | _, _ => NaN end.
Definition mul (a b : num) : num :=
  match a, b with Int x, Int y => Int (x * y) | _, _ => NaN end.

(** [a % b]: the remainder takes the sign of the dividend. *)
Definition rem (a b : num) : num :=
  match a, b with
  | Int x, Int y => if y =? 0 then NaN else Int (Z.rem x y)
  | _, _ => NaN
  end.

(** [Math.floor(a / b)] for a positive integer constant [b]. *)
Definition floorDiv (a : num) (b : Z) : num :=
  match a with Int x => Int (x / b) | NaN => NaN end.

Definition min (a b : num) : num :=
  match a, b with Int x, Int y => Int (Z.min x y) | _, _ => NaN end.
Definition max (a b : num) : num :=
  match a, b with Int x, Int y => Int (Z.max x y) | _, _ => NaN end.

(** Comparisons: any comparison with [NaN] is false. *)
Definition lt (a b : num) : bool :=
  match a, b with Int x, Int y => x <? y | _, _ => false end.
Definition le (a b : num) : bool :=
  match a, b with Int x, Int y => x <=? y | _, _ => false end.
Definition gt (a b : num) : bool := lt b a.
Definition ge (a b : num) : bool := le b a.

(** [Number(s)] on the strings the service meets: the empty string is 0,
    an optionally negated run of decimal digits is its value, anything
    else is [NaN].  (JavaScript also reads blanks, a leading plus sign,
    exponents, fractions and hexadecimal, and rounds an integer beyond
    2^53; no field accepted by [isValidTimeFormat] and no string produced
    by [formatTime] is of that kind.) *)
Definition Number (s : string) : num :=
  match s with
  | "" => Int 0
  | _ => match NilZero.int_of_string s with
         | Some d => Int (Z.of_int d)
         | None => NaN
         end
  end.

(** [n.toString()] *)
Definition toString (n : num) : string :=
  match n with
  | NaN => "NaN"
  | Int z => NilZero.string_of_int (Z.to_int z)
  end.

Fixpoint repeatChar (n : nat) (c : ascii) : string :=
  match n with O => "" | S k => String c (repeatChar k c) end.

(** [s.padStart(n, c)] for a one-character pad. *)
Definition padStart (n : nat) (c : ascii) (s : string) : string :=
  repeatChar (n - String.length s) c +:+ s.

(** [s.split(sep)] for a one-character separator: never empty. *)
Fixpoint split (sep : ascii) (s : string) : list string :=
  match s with
  | "" => [""]
  | String c s' =>
      if Ascii.eqb c sep then "" :: split sep s'
      else match split sep s' with
           | p :: ps => String c p :: ps
           | [] => [String c ""]
           end
  end.

(** [parts.join(sep)] *)
Fixpoint join (sep : string) (parts : list string) : string :=
  match parts with
  | [] => ""
  | [p] => p
  | p :: ps => p +:+ sep +:+ join sep ps
  end.

(** [s.substring(0, n)] *)
Fixpoint substring0 (n : nat) (s : string) : string :=
  match n, s with
  | S k, String c s' => String c (substring0 k s')
  | _, _ => ""
  end.

(** [s.includes(c)] for a one-character needle. *)
Fixpoint includes (c : ascii) (s : string) : bool :=
  match s with
  | "" => false
  | String d s' => Ascii.eqb d c || includes c s'
  end.

(** [xs.slice(a, b)] for [0 <= a]; a negative [b] counts from the end. *)
Definition slice {A} (a : nat) (b : Z) (xs : list A) : list A :=
  let len := Z.of_nat (length xs) in
  let stop := if b <? 0 then Z.max (len + b) 0 else Z.min b len in
  take (Z.to_nat stop - a) (drop a xs).

(** [x || d] on numbers: 0 (and [NaN]) are falsy. *)
Definition orElse (x d : Z) : Z := if x =? 0 then d else x.

(** [s || d] on strings: the empty string is falsy. *)
Definition orElseStr (s d : string) : string :=
  match s with "" => d | _ => s end.

Definition isDigit (c : ascii) : bool :=
  let n := nat_of_ascii c in (48 <=? n)%nat && (n <=? 57)%nat.

End JS.

Import JS.

(** ** Data model ([src/shared/types.ts]) *)

(** [TimeSlot]: [{date, start, end}]. *)
Record TimeSlot := mkTimeSlot {
  ts_date : string;
  ts_start : string;
  ts_end : string
}.

(** [Availability], over the representation [S] of its time slots: slot
    values for the matching functions, heap locations for a request whose
    slot objects live in the heap.  Only [user_id] and [time_slots] are
    ever read by the service. *)
Record Availability (S : Type) := mkAvailability {
  user_id : string;
  time_slots : list S
}.
Arguments mkAvailability {S} _ _.
Arguments user_id {S} _.
Arguments time_slots {S} _.

Record User := mkUser {
  u_id : string;
  u_name : string;
  u_email : string
}.

(** [SchedulingOptions] and its [Partial]. *)
Record SchedulingOptions := mkOptions {
  duration : Z;
  bufferTime : Z;
  businessHours : string * string;
  preferredDays : list Z;
  maxSuggestions : Z
}.

Record PartialOptions := mkPartial {
  p_duration : option Z;
  p_bufferTime : option Z;
  p_businessHours : option (string * string);
  p_preferredDays : option (list Z);
  p_maxSuggestions : option Z
}.

(** [TimeSlotMatch] *)
Record TimeSlotMatch := mkMatch {
  m_date : string;
  m_startTime : string;
  m_endTime : string;
  m_duration : Z;
  m_score : Z;
  m_reasons : list string;
  interviewer_id : option string;
  interviewer_name : option string
}.

(** ** Time arithmetic *)

(** The object [{hours, minutes, totalMinutes}].  [minutes] is [None] when
    it is [undefined]: the string had no colon. *)
Record Time := mkTime {
  hours : num;
  minutes : option num;
  totalMinutes : num
}.

Definition parseTime (timeStr : string) : Time :=
  let parts := map Number (split ":" timeStr) in
  let h := default NaN (parts !! 0%nat) in
  let m := parts !! 1%nat in
  {| hours := h; minutes := m; totalMinutes := add (mul h (Int 60)) (default NaN m) |}.

(** [formatTime] throws a [TypeError] on [undefined] minutes. *)
Definition formatTime (time : Time) : option string :=
  m ← minutes time;
  Some (padStart 2 "0" (toString (hours time)) +:+ ":" +:+ padStart 2 "0" (toString m)).

Definition maxTime (time1 time2 : Time) : Time :=
  if ge (totalMinutes time1) (totalMinutes time2) then time1 else time2.

Definition minTime (time1 time2 : Time) : Time :=
  if le (totalMinutes time1) (totalMinutes time2) then time1 else time2.

Definition timeDifference (start end_ : Time) : num :=
  if lt (totalMinutes end_) (totalMinutes start)
  then sub (add (totalMinutes end_) (Int 1440)) (totalMinutes start)
  else sub (totalMinutes end_) (totalMinutes start).

Definition minutesToTime (total : num) : Time :=
  let normalizedMinutes := rem total (Int 1440) in
  {| hours := floorDiv normalizedMinutes 60;
     minutes := Some (rem normalizedMinutes (Int 60));
     totalMinutes := normalizedMinutes |}.

Definition addMinutesToTime (timeStr : string) (mins : Z) : option string :=
  let time := parseTime timeStr in
  let total := add (totalMinutes time) (Int mins) in
  formatTime (minutesToTime total).

(** ** Candidate double-booking check *)

(** [hasCandidateTimeConflict]: the check of pass 1.  Slots of the
    anonymous type [{date, start, end}] are [TimeSlot]s. *)
Definition hasCandidateTimeConflict
    (proposedSlot : TimeSlot) (usedCandidateTimeSlots : list TimeSlot)
    (bufferMinutes : Z) : bool :=
  let sameDaySlots :=
    filter (λ slot, ts_date slot = ts_date proposedSlot) usedCandidateTimeSlots in
  match sameDaySlots with
  | [] => false
  | _ =>
      let proposedStart := parseTime (ts_start proposedSlot) in
      let proposedEnd := parseTime (ts_end proposedSlot) in
      existsb (λ existingSlot,
        let existingStart := parseTime (ts_start existingSlot) in
        let existingEnd := parseTime (ts_end existingSlot) in
        let existingEndWithBuffer := add (totalMinutes existingEnd) (Int bufferMinutes) in
        lt (totalMinutes proposedStart) existingEndWithBuffer
        && gt (totalMinutes proposedEnd) (totalMinutes existingStart))
        sameDaySlots
  end.

(** The callback of [allInterviews.some(...)] in pass 2. *)
Definition conflictsWith (options : SchedulingOptions)
    (proposedSlot : TimeSlot) (scheduledInterview : TimeSlotMatch) : bool :=
  if bool_decide (m_date scheduledInterview ≠ ts_date proposedSlot) then false
  else
    let scheduledStart := parseTime (m_startTime scheduledInterview) in
    let scheduledEnd := parseTime (m_endTime scheduledInterview) in
    let proposedStart := parseTime (ts_start proposedSlot) in
    let proposedEnd := parseTime (ts_end proposedSlot) in
    let bufferMinutes := orElse (bufferTime options) 15 in
    let scheduledEndWithBuffer := add (totalMinutes scheduledEnd) (Int bufferMinutes) in
    lt (totalMinutes proposedStart) scheduledEndWithBuffer
    && gt (totalMinutes proposedEnd) (totalMinutes scheduledStart).

(** [conflictsWithScheduled]: the inline check of pass 2. *)
Definition conflictsWithScheduled (options : SchedulingOptions)
    (allInterviews : list TimeSlotMatch) (proposedSlot : TimeSlot) : bool :=
  existsb (conflictsWith options proposedSlot) allInterviews.

(** ** Slot overlap finder *)

(** The [for] loop of [findTimeSlotOverlap], from [offset] on.  The step is
    at least 1, so [fuel] = slack + 1 iterations always reach the exit
    test (see [slotLoop_fuel]). *)
Fixpoint slotLoop (date : string) (overlapStart overlapEnd : Time)
    (requiredDuration : Z) (availableDuration intervalMinutes : num)
    (fuel : nat) (offset : num) : option (list TimeSlot) :=
  match fuel with
  | O => Some []
  | S fuel' =>
      if le offset availableDuration then
        let slotStartTime := minutesToTime (add (totalMinutes overlapStart) offset) in
        startStr ← formatTime slotStartTime;
        slotEndTime ← addMinutesToTime startStr requiredDuration;
        let slotEndParsed := parseTime slotEndTime in
        rest ← slotLoop date overlapStart overlapEnd requiredDuration
                 availableDuration intervalMinutes fuel' (add offset intervalMinutes);
        Some (if le (totalMinutes slotEndParsed) (totalMinutes overlapEnd)
              then mkTimeSlot date startStr slotEndTime :: rest
              else rest)
      else Some []
  end.

Definition loopFuel (availableDuration : num) : nat :=
  match availableDuration with
  | Int a => Z.to_nat (a + 1)
  | NaN => O
  end.

Definition findTimeSlotOverlap (slot1 slot2 : TimeSlot) (requiredDuration : Z)
    : option (list TimeSlot) :=
  let start1 := parseTime (ts_start slot1) in
  let end1 := parseTime (ts_end slot1) in
  let start2 := parseTime (ts_start slot2) in
  let end2 := parseTime (ts_end slot2) in
  let overlapStart := maxTime start1 start2 in
  let overlapEnd := minTime end1 end2 in
  let overlapDuration := timeDifference overlapStart overlapEnd in
  if lt overlapDuration (Int requiredDuration) then Some []
  else
    let availableDuration := sub overlapDuration (Int requiredDuration) in
    let intervalMinutes := min (Int 15) (max (Int 1) (floorDiv availableDuration 4)) in
    possibleSlots ← slotLoop (ts_date slot1) overlapStart overlapEnd requiredDuration
                      availableDuration intervalMinutes
                      (loopFuel availableDuration) (Int 0);
    match possibleSlots with
    | [] =>
        startStr ← formatTime overlapStart;
        slotEndTime ← addMinutesToTime startStr requiredDuration;
        Some [mkTimeSlot (ts_date slot1) startStr slotEndTime]
    | _ => Some possibleSlots
    end.

(** [candidateMap]: candidate slots by date.  It is only ever looked up. *)
Definition candidateMapOf (candidateAvailability : list (Availability TimeSlot))
    : gmap string (list TimeSlot) :=
  foldl (λ m slot, <[ts_date slot := default [] (m !! ts_date slot) ++ [slot]]> m)
        ∅ (concat (map time_slots candidateAvailability)).

Definition toMatch (options : SchedulingOptions) (interviewerSlot slot : TimeSlot)
    : TimeSlotMatch :=
  {| m_date := ts_date interviewerSlot;
     m_startTime := ts_start slot;
     m_endTime := ts_end slot;
     m_duration := duration options;
     m_score := 100;
     m_reasons := [];
     interviewer_id := None;
     interviewer_name := None |}.

(** The callback of [interviewerAvail.time_slots.forEach].  (The guard
    [overlaps.length > 0] around the inner [forEach] changes nothing and is
    left out.) *)
Definition overlapsOfSlot (candidateMap : gmap string (list TimeSlot))
    (options : SchedulingOptions) (interviewerSlot : TimeSlot)
    : option (list TimeSlotMatch) :=
  match candidateMap !! ts_date interviewerSlot with
  | None => Some []
  | Some candidateSlots =>
      perCandidate ← mapM (λ candidateSlot,
        overlaps ← findTimeSlotOverlap interviewerSlot candidateSlot (duration options);
        Some (map (toMatch options interviewerSlot) overlaps)) candidateSlots;
      Some (concat perCandidate)
  end.

(** The callback of [interviewerAvailability.forEach]. *)
Definition overlapsOfAvailability (candidateMap : gmap string (list TimeSlot))
    (options : SchedulingOptions) (interviewerAvail : Availability TimeSlot)
    : option (list TimeSlotMatch) :=
  perSlot ← mapM (overlapsOfSlot candidateMap options) (time_slots interviewerAvail);
  Some (concat perSlot).

Definition findOverlappingSlots
    (candidateAvailability interviewerAvailability : list (Availability TimeSlot))
    (options : SchedulingOptions) : option (list TimeSlotMatch) :=
  let candidateMap := candidateMapOf candidateAvailability in
  perAvail ← mapM (overlapsOfAvailability candidateMap options) interviewerAvailability;
  Some (concat perAvail).

(** ** Multi-interviewer assigner *)

(** A [Map] from strings to arrays, iterated in insertion order:
    [if (!m.has(k)) m.set(k, []); m.get(k).push(v)]. *)
Fixpoint mapPush {V} (k : string) (v : V) (m : list (string * list V))
    : list (string * list V) :=
  match m with
  | [] => [(k, [v])]
  | (k', vs) :: m' =>
      if bool_decide (k' = k) then (k', vs ++ [v]) :: m'
      else (k', vs) :: mapPush k v m'
  end.

Fixpoint mapGet {V} (k : string) (m : list (string * list V)) : list V :=
  match m with
  | [] => []
  | (k', vs) :: m' => if bool_decide (k' = k) then vs else mapGet k m'
  end.

Definition interviewerMapOf (interviewerAvailability : list (Availability TimeSlot))
    : list (string * list (Availability TimeSlot)) :=
  foldl (λ m avail, mapPush (user_id avail) avail m) [] interviewerAvailability.

Definition proposedOf (slot : TimeSlotMatch) : TimeSlot :=
  mkTimeSlot (m_date slot) (m_startTime slot) (m_endTime slot).

Definition interviewerNameOf (users : option (list User)) (interviewerId : string)
    : string :=
  match users ≫= List.find (λ user, bool_decide (u_id user = interviewerId)) with
  | Some interviewer => u_name interviewer +:+ " (" +:+ u_email interviewer +:+ ")"
  | None => "Interviewer " +:+ substring0 8 interviewerId
  end.

(** [{...slot, interviewer_id, interviewer_name}] *)
Definition assignTo (users : option (list User)) (interviewerId : string)
    (slot : TimeSlotMatch) : TimeSlotMatch :=
  {| m_date := m_date slot;
     m_startTime := m_startTime slot;
     m_endTime := m_endTime slot;
     m_duration := m_duration slot;
     m_score := m_score slot;
     m_reasons := m_reasons slot;
     interviewer_id := Some interviewerId;
     interviewer_name := Some (interviewerNameOf users interviewerId) |}.

(** The state both passes thread: [allInterviews] and
    [usedCandidateTimeSlots]. *)
Definition AssignState : Type := list TimeSlotMatch * list TimeSlot.

Definition accept (users : option (list User)) (interviewerId : string)
    (st : AssignState) (slot : TimeSlotMatch) : AssignState :=
  (st.1 ++ [assignTo users interviewerId slot], st.2 ++ [proposedOf slot]).

(** One iteration of the first [for (const interviewerId of interviewerIds)]. *)
Definition pass1Step
    (candidateAvailability : list (Availability TimeSlot))
    (interviewerMap : list (string * list (Availability TimeSlot)))
    (options : SchedulingOptions) (users : option (list User))
    (st : AssignState) (interviewerId : string) : option AssignState :=
  overlappingSlots ← findOverlappingSlots candidateAvailability
                        (mapGet interviewerId interviewerMap) options;
  Some match List.find (λ slot,
               negb (hasCandidateTimeConflict (proposedOf slot) st.2
                       (orElse (bufferTime options) 15))) overlappingSlots with
       | Some slot => accept users interviewerId st slot
       | None => st
       end.

(** One iteration of the second-pass loop. *)
Definition pass2Step
    (candidateAvailability : list (Availability TimeSlot))
    (interviewerMap : list (string * list (Availability TimeSlot)))
    (options : SchedulingOptions) (users : option (list User))
    (st : AssignState) (interviewerId : string) : option AssignState :=
  overlappingSlots ← findOverlappingSlots candidateAvailability
                        (mapGet interviewerId interviewerMap) options;
  Some match List.find (λ slot,
               negb (conflictsWithScheduled options st.1 (proposedOf slot)))
               overlappingSlots with
       | Some slot => accept users interviewerId st slot
       | None => st
       end.

(** A [for ... of] loop whose body may throw. *)
Fixpoint forOf {S A} (body : S → A → option S) (st : S) (xs : list A) : option S :=
  match xs with
  | [] => Some st
  | x :: xs' => st' ← body st x; forOf body st' xs'
  end.

Definition unscheduledOf (interviewerIds : list string)
    (allInterviews : list TimeSlotMatch) : list string :=
  filter (λ id, Some id ∉ map interviewer_id allInterviews) interviewerIds.

Definition findIndividualInterviews
    (candidateAvailability interviewerAvailability : list (Availability TimeSlot))
    (options : SchedulingOptions) (users : option (list User))
    : option (list TimeSlotMatch) :=
  let interviewerMap := interviewerMapOf interviewerAvailability in
  let interviewerIds := map fst interviewerMap in
  st1 ← forOf (pass1Step candidateAvailability interviewerMap options users)
          ([], []) interviewerIds;
  let unscheduledInterviewerIds := unscheduledOf interviewerIds st1.1 in
  st2 ← forOf (pass2Step candidateAvailability interviewerMap options users)
          st1 unscheduledInterviewerIds;
  Some st2.1.

(** ** Objects and the heap

    The only assignment to an object field in the whole service is
    [slot.date = fallbackDate] in [createScheduledTime].  Objects that
    carry a [date] field, the request's [TimeSlot]s and the engine's
    [TimeSlotMatch]es, therefore live in a heap.  Every [push], [set],
    [add] and [sort] of the service acts on an array, [Map] or [Set] that
    the same function has created ([allInterviews],
    [usedCandidateTimeSlots], [overlappingSlots], [possibleSlots],
    [errors], the arrays stored in [interviewerMap], [candidateMap] and
    the two date maps); the arrays of the request are only read.  Arrays
    and maps are therefore values. *)

Abbreviation loc := nat (only parsing).

Inductive obj :=
| ObjSlot (s : TimeSlot)
| ObjMatch (m : TimeSlotMatch).

Abbreviation heap := (list obj) (only parsing).

Definition dateOf (o : obj) : string :=
  match o with ObjSlot s => ts_date s | ObjMatch m => m_date m end.

Definition setDate (d : string) (o : obj) : obj :=
  match o with
  | ObjSlot s => ObjSlot (mkTimeSlot d (ts_start s) (ts_end s))
  | ObjMatch m =>
      ObjMatch {| m_date := d;
                  m_startTime := m_startTime m;
                  m_endTime := m_endTime m;
                  m_duration := m_duration m;
                  m_score := m_score m;
                  m_reasons := m_reasons m;
                  interviewer_id := interviewer_id m;
                  interviewer_name := interviewer_name m |}
  end.

(** Computations that read and write the heap and may throw; the heap
    survives a throw. *)
Definition M (A : Type) : Type := heap → heap * option A.

#[global] Instance M_ret : MRet M := λ A a h, (h, Some a).
#[global] Instance M_bind : MBind M := λ A B k m h,
  match m h with
  | (h', Some a) => k a h'
  | (h', None) => (h', None)
  end.

Definition throw {A} : M A := λ h, (h, None).

Definition liftOption {A} (o : option A) : M A := λ h, (h, o).

Definition readObj (l : loc) : M obj := λ h, (h, h !! l).

Definition readSlot (l : loc) : M TimeSlot :=
  o ← readObj l;
  match o with ObjSlot s => mret s | ObjMatch _ => throw end.

Definition readMatch (l : loc) : M TimeSlotMatch :=
  o ← readObj l;
  match o with ObjMatch m => mret m | ObjSlot _ => throw end.

Definition writeDate (l : loc) (d : string) : M unit :=
  λ h, (alter (setDate d) l h, Some tt).

Definition alloc (o : obj) : M loc := λ h, (h ++ [o], Some (length h)).

(** ** Request, response and collaborators *)

Record ScheduleRequest (S : Type) := mkRequest {
  scheduler_id : string;
  timezone : string;
  interview_duration : Z;
  candidate_availability : list (Availability S);
  interviewer_availability : list (Availability S);
  users : option (list User)
}.
Arguments mkRequest {S} _ _ _ _ _ _.
Arguments scheduler_id {S} _.
Arguments timezone {S} _.
Arguments interview_duration {S} _.
Arguments candidate_availability {S} _.
Arguments interviewer_availability {S} _.
Arguments users {S} _.

Record SlotReport := mkSlotReport {
  sr_date : string;
  sr_start_time : string;
  sr_end_time : string;
  sr_score : Z;
  sr_reasons : list string;
  sr_scheduled_time : string;
  sr_interviewer_id : option string;
  sr_interviewer_name : option string
}.

Record InterviewReport := mkInterviewReport {
  ir_interviewer_id : string;
  ir_interviewer_name : string;
  ir_date : string;
  ir_start_time : string;
  ir_end_time : string;
  ir_score : Z;
  ir_reasons : list string;
  ir_scheduled_time : string
}.

Record SlotSummary := mkSlotSummary {
  ss_start : string;
  ss_end : string;
  duration_minutes : num
}.

Record SideSummary := mkSideSummary {
  total_interviewers : option nat;
  total_days : nat;
  total_slots : nat;
  availability_by_date : list (string * list SlotSummary)
}.

Record AvailabilitySummary := mkSummary {
  candidate : SideSummary;
  interviewers : SideSummary;
  overlapping_days : list string
}.

Record ScheduleResponse := mkResponse {
  success : bool;
  scheduled_time : option string;
  message : string;
  suggested_times : option (list string);
  all_available_slots : option (list SlotReport);
  availability_summary : option AvailabilitySummary;
  individual_interviews : option (list InterviewReport)
}.

(** The libraries the service calls ([date-fns], [date-fns-tz]); [None] is
    a thrown [RangeError].
    - [zonedTimeToUtc s tz] is [zonedTimeToUtc(s, tz).toISOString()];
    - [formatDate d] is [format(parseISO(d), 'EEEE, MMMM do, yyyy')]. *)
Record Collaborators := mkCollaborators {
  zonedTimeToUtc : string → string → option string;
  formatDate : string → option string
}.

(** ** Schedule response builder *)

(** [dateTimeString] in [createScheduledTime]. *)
Definition dateTimeStringOf (slot : TimeSlotMatch) : string :=
  let timeWithSeconds :=
    if includes ":" (m_startTime slot)
       && bool_decide (length (split ":" (m_startTime slot)) = 2%nat)
    then m_startTime slot +:+ ":00"
    else m_startTime slot in
  m_date slot +:+ "T" +:+ timeWithSeconds.

(** [createScheduledTime] on the object at [slot].  [today] is
    [new Date().toISOString().split('T')[0]].  On an object without
    [startTime] the call throws, after the fallback assignment. *)
Definition createScheduledTime (today : string) (C : Collaborators)
    (slot : loc) (timezone : string) : M string :=
  o ← readObj slot;
  _ ← (if bool_decide (dateOf o = "") then writeDate slot today else mret tt);
  m ← readMatch slot;
  liftOption (zonedTimeToUtc C (dateTimeStringOf m) timezone).

Definition formatScheduleMessage (C : Collaborators) (slot : TimeSlotMatch)
    (timezone : string) : option string :=
  date ← formatDate C (m_date slot);
  let time := m_startTime slot +:+ " - " +:+ m_endTime slot in
  let reasons :=
    match m_reasons slot with
    | [] => ""
    | rs => " (" +:+ join ", " rs +:+ ")"
    end in
  Some ("Interview scheduled for " +:+ date +:+ " at " +:+ time +:+ " "
        +:+ timezone +:+ reasons).

Definition severalInterviewsMessage (interviewCount : nat) (date : string)
    (bufferTime : Z) : string :=
  toString (Int (Z.of_nat interviewCount))
  +:+ " individual interviews scheduled for " +:+ date +:+ " with "
  +:+ toString (Int bufferTime)
  +:+ "-minute breaks between sessions. Check details below for specific times.".

Definition formatMultipleInterviewsMessage (C : Collaborators)
    (interviews : list loc) (timezone : string) (bufferTime : Z) : M string :=
  match interviews with
  | [] => mret "No interviews scheduled"
  | [only] => slot ← readMatch only; liftOption (formatScheduleMessage C slot timezone)
  | first :: _ =>
      firstInterview ← readMatch first;
      date ← liftOption (formatDate C (m_date firstInterview));
      mret (severalInterviewsMessage (length interviews) date bufferTime)
  end.

(** A [Set] of strings in insertion order. *)
Definition setAdd (s : list string) (x : string) : list string :=
  if bool_decide (x ∈ s) then s else s ++ [x].

Definition datesOf (availability : list (Availability TimeSlot)) : list string :=
  foldl setAdd [] (map ts_date (concat (map time_slots availability))).

Definition findOverlappingDays
    (candidateAvailability interviewerAvailability : list (Availability TimeSlot))
    : list string :=
  let interviewerDates := datesOf interviewerAvailability in
  filter (λ date, date ∈ interviewerDates) (datesOf candidateAvailability).

Definition dateMapOf (availability : list (Availability TimeSlot))
    : list (string * list SlotSummary) :=
  foldl (λ m slot,
           mapPush (ts_date slot)
             {| ss_start := ts_start slot;
                ss_end := ts_end slot;
                duration_minutes :=
                  timeDifference (parseTime (ts_start slot)) (parseTime (ts_end slot)) |}
             m)
        [] (concat (map time_slots availability)).

Definition totalSlots (availability : list (Availability TimeSlot)) : nat :=
  foldl (λ sum avail, (sum + length (time_slots avail))%nat) O availability.

Definition loadAvailability (availability : list (Availability loc))
    : M (list (Availability TimeSlot)) :=
  mapM (λ avail,
          slots ← mapM readSlot (time_slots avail);
          mret (mkAvailability (user_id avail) slots)) availability.

Definition summaryOf
    (candidateAvailability interviewerAvailability : list (Availability TimeSlot))
    : AvailabilitySummary :=
  let candidateDateMap := dateMapOf candidateAvailability in
  let interviewerDateMap := dateMapOf interviewerAvailability in
  {| candidate :=
       {| total_interviewers := None;
          total_days := length candidateDateMap;
          total_slots := totalSlots candidateAvailability;
          availability_by_date := candidateDateMap |};
     interviewers :=
       {| total_interviewers := Some (length interviewerAvailability);
          total_days := length interviewerDateMap;
          total_slots := totalSlots interviewerAvailability;
          availability_by_date := interviewerDateMap |};
     overlapping_days :=
       findOverlappingDays candidateAvailability interviewerAvailability |}.

(** [generateAvailabilitySummary] reads the request's slot objects as they
    are when it is called. *)
Definition generateAvailabilitySummary (request : ScheduleRequest loc)
    : M AvailabilitySummary :=
  candidateAvailability ← loadAvailability (candidate_availability request);
  interviewerAvailability ← loadAvailability (interviewer_availability request);
  mret (summaryOf candidateAvailability interviewerAvailability).

Definition defaultOptions : SchedulingOptions :=
  {| duration := 60;
     bufferTime := 30;
     businessHours := ("09:00", "17:00");
     preferredDays := [1; 2; 3; 4; 5];
     maxSuggestions := 5 |}.

Definition noOptions : PartialOptions := mkPartial None None None None None.

(** [{...this.defaultOptions, ...options, duration: interview_duration || default}] *)
Definition mergeOptions (options : PartialOptions) (interview_duration : Z)
    : SchedulingOptions :=
  {| duration := orElse interview_duration (duration defaultOptions);
     bufferTime := default (bufferTime defaultOptions) (p_bufferTime options);
     businessHours := default (businessHours defaultOptions) (p_businessHours options);
     preferredDays := default (preferredDays defaultOptions) (p_preferredDays options);
     maxSuggestions := default (maxSuggestions defaultOptions) (p_maxSuggestions options) |}.

Definition noOverlapResponse : ScheduleResponse :=
  {| success := false;
     scheduled_time := None;
     message := "No overlapping time slots found between candidate and any interviewer.";
     suggested_times := None;
     all_available_slots := None;
     availability_summary := None;
     individual_interviews := None |}.

Definition failedResponse : ScheduleResponse :=
  {| success := false;
     scheduled_time := None;
     message := "Failed to generate schedule. Please try again or contact support.";
     suggested_times := Some [];
     all_available_slots := None;
     availability_summary := None;
     individual_interviews := None |}.

Definition slotReportOf (slot : TimeSlotMatch) (scheduled : string) : SlotReport :=
  {| sr_date := m_date slot;
     sr_start_time := m_startTime slot;
     sr_end_time := m_endTime slot;
     sr_score := m_score slot;
     sr_reasons := m_reasons slot;
     sr_scheduled_time := scheduled;
     sr_interviewer_id := interviewer_id slot;
     sr_interviewer_name := interviewer_name slot |}.

(** An element of [all_available_slots]: the fields of the slot are read
    before [createScheduledTime] is called on it. *)
Definition slotReport (today : string) (C : Collaborators) (tz : string)
    (l : loc) : M SlotReport :=
  slot ← readMatch l;
  scheduled ← createScheduledTime today C l tz;
  mret (slotReportOf slot scheduled).

Definition interviewReportOf (interview : TimeSlotMatch) (scheduled : string)
    : InterviewReport :=
  {| ir_interviewer_id := orElseStr (default "" (interviewer_id interview)) "unknown";
     ir_interviewer_name :=
       orElseStr (default "" (interviewer_name interview)) "Unknown Interviewer";
     ir_date := m_date interview;
     ir_start_time := m_startTime interview;
     ir_end_time := m_endTime interview;
     ir_score := m_score interview;
     ir_reasons := m_reasons interview;
     ir_scheduled_time := scheduled |}.

(** An element of [individual_interviews]. *)
Definition interviewReport (today : string) (C : Collaborators) (tz : string)
    (l : loc) : M InterviewReport :=
  interview ← readMatch l;
  scheduled ← createScheduledTime today C l tz;
  mret (interviewReportOf interview scheduled).

(** The [return {success: true, ...}] of [findOptimalSchedule], from the
    line that picks [primaryInterview] on.  The fields of the returned
    object literal are evaluated in source order. *)
Definition buildResponse (today : string) (C : Collaborators)
    (request : ScheduleRequest loc) (opts : SchedulingOptions)
    (individualInterviews : list loc) : M ScheduleResponse :=
  primaryInterview ← liftOption (head individualInterviews);
  scheduledTime ← createScheduledTime today C primaryInterview (timezone request);
  msg ← formatMultipleInterviewsMessage C individualInterviews
           (timezone request) (orElse (bufferTime opts) 15);
  suggested ← mapM (λ slot, createScheduledTime today C slot (timezone request))
                 (slice 1 (maxSuggestions opts) individualInterviews);
  allSlots ← mapM (slotReport today C (timezone request)) individualInterviews;
  summary ← generateAvailabilitySummary request;
  interviews ← mapM (interviewReport today C (timezone request)) individualInterviews;
  mret {| success := true;
          scheduled_time := Some scheduledTime;
          message := msg;
          suggested_times := Some suggested;
          all_available_slots := Some allSlots;
          availability_summary := Some summary;
          individual_interviews := Some interviews |}.

(** The body of the [try] block of [findOptimalSchedule].  The request's
    slot objects are read from the heap; the interviews returned by
    [findIndividualInterviews] are the objects allocated by [alloc]. *)
Definition scheduleBody (today : string) (C : Collaborators)
    (request : ScheduleRequest loc) (options : PartialOptions)
    : M ScheduleResponse :=
  let opts := mergeOptions options (interview_duration request) in
  candidateAvailability ← loadAvailability (candidate_availability request);
  interviewerAvailability ← loadAvailability (interviewer_availability request);
  found ← liftOption (findIndividualInterviews candidateAvailability
                          interviewerAvailability opts (users request));
  individualInterviews ← mapM (λ m, alloc (ObjMatch m)) found;
  match individualInterviews with
  | [] => mret noOverlapResponse
  | _ => buildResponse today C request opts individualInterviews
  end.

(** [findOptimalSchedule]: the [try] block, and the [catch] that turns any
    exception into [failedResponse].  It returns the final heap and the
    response the promise resolves to. *)
Definition findOptimalSchedule (today : string) (C : Collaborators)
    (request : ScheduleRequest loc) (options : PartialOptions)
    (h : heap) : heap * ScheduleResponse :=
  match scheduleBody today C request options h with
  | (h', Some response) => (h', response)
  | (h', None) => (h', failedResponse)
  end.

(** ** Availability validator *)

Definition isValidDateFormat (s : string) : bool :=
  match list_ascii_of_string s with
  | [y1; y2; y3; y4; d1; m1; m2; d2; a1; a2] =>
      isDigit y1 && isDigit y2 && isDigit y3 && isDigit y4
      && Ascii.eqb d1 "-" && isDigit m1 && isDigit m2
      && Ascii.eqb d2 "-" && isDigit a1 && isDigit a2
  | _ => false
  end.

Definition isValidTimeFormat (timeStr : string) : bool :=
  let minutesOk (m1 m2 : ascii) :=
    (Ascii.leb "0" m1 && Ascii.leb m1 "5") && isDigit m2 in
  match list_ascii_of_string timeStr with
  | [h; c; m1; m2] => isDigit h && Ascii.eqb c ":" && minutesOk m1 m2
  | [h1; h2; c; m1; m2] =>
      (((Ascii.eqb h1 "0" || Ascii.eqb h1 "1") && isDigit h2)
       || (Ascii.eqb h1 "2" && Ascii.leb "0" h2 && Ascii.leb h2 "3"))
      && Ascii.eqb c ":" && minutesOk m1 m2
  | _ => false
  end.

Definition natToString (n : nat) : string := toString (Int (Z.of_nat n)).

Definition dateFormatError (index slotIndex : nat) (slot : TimeSlot) : string :=
  "Invalid date format for availability " +:+ natToString index +:+ " slot "
  +:+ natToString slotIndex +:+ ": " +:+ ts_date slot.

Definition timeFormatError (index slotIndex : nat) (slot : TimeSlot) : string :=
  "Invalid time format for availability " +:+ natToString index +:+ " slot "
  +:+ natToString slotIndex +:+ ": " +:+ ts_start slot +:+ "-" +:+ ts_end slot.

Definition timeRangeError (index slotIndex : nat) : string :=
  "Invalid time range for availability " +:+ natToString index +:+ " slot "
  +:+ natToString slotIndex +:+ ": start time must be before end time".

(** The three checks made on one slot, in source order. *)
Definition slotErrors (index slotIndex : nat) (slot : TimeSlot) : list string :=
  (if negb (isValidDateFormat (ts_date slot))
   then [dateFormatError index slotIndex slot] else [])
  ++ (if negb (isValidTimeFormat (ts_start slot)) || negb (isValidTimeFormat (ts_end slot))
      then [timeFormatError index slotIndex slot] else [])
  ++ (if ge (hours (parseTime (ts_start slot))) (hours (parseTime (ts_end slot)))
      then [timeRangeError index slotIndex] else []).

Record Validation := mkValidation {
  valid : bool;
  errors : list string
}.

Definition validateAvailability (availability : list (Availability TimeSlot))
    : Validation :=
  match availability with
  | [] => {| valid := false; errors := ["No availability provided"] |}
  | _ =>
      let errors :=
        concat (imap (λ index avail,
                  match time_slots avail with
                  | [] => ["No time slots provided for availability at index "
                           +:+ natToString index]
                  | slots => concat (imap (slotErrors index) slots)
                  end) availability) in
      {| valid := bool_decide (errors = []); errors := errors |}
  end.

(** ** Vocabulary of the specification *)

Definition digitVal (c : ascii) : Z := Z.of_nat (nat_of_ascii c) - 48.

(** A string of the form ["HH:MM"]: two-digit zero-padded hours in [0,23]
    and two-digit minutes in [0,59]. *)
Definition isPaddedHHMM (s : string) : bool :=
  match list_ascii_of_string s with
  | [h1; h2; c; m1; m2] =>
      isDigit h1 && isDigit h2 && Ascii.eqb c ":" && isDigit m1 && isDigit m2
      && (digitVal h1 * 10 + digitVal h2 <=? 23)
      && (digitVal m1 * 10 + digitVal m2 <=? 59)
  | _ => false
  end.

(** The object [{hours: h, minutes: m, totalMinutes: 60*h+m}]. *)
Definition timeOf (h m : Z) : Time :=
  {| hours := Int h; minutes := Some (Int m); totalMinutes := Int (60 * h + m) |}.

(** The string [s] denotes minute [t] of the day. *)
Definition timeOfDay (s : string) (t : Z) : Prop :=
  0 ≤ t < 1440 ∧ parseTime s = timeOf (t / 60) (t mod 60).

Definition minuteOf (timeStr : string) : num := totalMinutes (parseTime timeStr).

(** A generated slot that lies in [[lo, hi]] and lasts [d] minutes. *)
Definition fitsIn (date : string) (lo hi d : Z) (slot : TimeSlot) : Prop :=
  ts_date slot = date
  ∧ ∃ a b, timeOfDay (ts_start slot) a ∧ timeOfDay (ts_end slot) b
           ∧ lo ≤ a ∧ b ≤ hi ∧ b - a = d.

(** The conflict test in the specification's words: a proposed interval
    [[s1,e1)] conflicts with an existing interval [[s2,e2)] iff
    [s1 < e2 + buffer] and [e1 > s2]. *)
Definition intervalsConflict (buffer s1 e1 s2 e2 : Z) : Prop :=
  s1 < e2 + buffer ∧ e1 > s2.

(** ... applied to two slots: same date, and the minute-of-day intervals
    of the two slots conflict. *)
Definition slotsConflict (buffer : Z) (proposed existing : TimeSlot) : Prop :=
  ts_date existing = ts_date proposed
  ∧ ∃ s1 e1 s2 e2,
      minuteOf (ts_start proposed) = Int s1 ∧ minuteOf (ts_end proposed) = Int e1
      ∧ minuteOf (ts_start existing) = Int s2 ∧ minuteOf (ts_end existing) = Int e2
      ∧ intervalsConflict buffer s1 e1 s2 e2.

(** No slot of the list conflicts with a slot accepted before it. *)
Definition noDoubleBooking (buffer : Z) (slots : list TimeSlot) : Prop :=
  ∀ i j earlier later,
    (i < j)%nat → slots !! i = Some earlier → slots !! j = Some later →
    ¬ slotsConflict buffer later earlier.

(** The slot runs from minute [s] to minute [e] of its day, and [e] is
    after [s]: it does not end at or past midnight. *)
Definition runsWithinDay (slot : TimeSlot) (s e : Z) : Prop :=
  minuteOf (ts_start slot) = Int s ∧ minuteOf (ts_end slot) = Int e ∧ s < e.



(** Interviewer ids in the order in which they are first met in the input. *)
Definition encounterOrder (interviewerAvailability : list (Availability TimeSlot))
    : list string :=
  foldl setAdd [] (map user_id interviewerAvailability).

(** The slot of an element of [individual_interviews]. *)
Definition reportSlot (r : InterviewReport) : TimeSlot :=
  mkTimeSlot (ir_date r) (ir_start_time r) (ir_end_time r).

(** What [readSlot] and [loadAvailability] return on heap [h]. *)
Definition slotAt (h : heap) (l : loc) : option TimeSlot :=
  match h !! l with Some (ObjSlot s) => Some s | _ => None end.

Definition availabilityAt (h : heap) (availability : list (Availability loc))
    : option (list (Availability TimeSlot)) :=
  mapM (λ avail,
          slots ← mapM (slotAt h) (time_slots avail);
          Some (mkAvailability (user_id avail) slots)) availability.

(** No slot offered by an interviewer lacks its date. *)
Definition datesPresent (h : heap) (request : ScheduleRequest loc) : bool :=
  forallb (λ avail,
    forallb (λ l, match slotAt h l with
                  | Some s => negb (bool_decide (ts_date s = ""))
                  | None => true
                  end) (time_slots avail))
    (interviewer_availability request).

(** The range check of [validateAvailability] on one slot. *)
Definition startHourNotBeforeEndHour (slot : TimeSlot) : bool :=
  ge (hours (parseTime (ts_start slot))) (hours (parseTime (ts_end slot))).

(** Every start time of the availability has its colon. *)
Definition startsHaveColon (availability : list (Availability TimeSlot)) : Prop :=
  ∀ avail slot,
    avail ∈ availability → slot ∈ time_slots avail →
    includes ":" (ts_start slot) = true.

(** ** Auxiliary definitions of the proofs *)

#[global] Instance num_eq_dec : EqDecision num.
Proof. solve_decision. Defined.

#[global] Instance Time_eq_dec : EqDecision Time.
Proof. solve_decision. Defined.

Definition digitChars : list ascii :=
  ["0"; "1"; "2"; "3"; "4"; "5"; "6"; "7"; "8"; "9"]%char.

(** Exhaustive checks over the 24 x 60 times of day, run by the proofs. *)
Definition hmCheck (h m : Z) : bool :=
  match formatTime (timeOf h m) with
  | Some s => isPaddedHHMM s && bool_decide (parseTime s = timeOf h m)
  | None => false
  end.

Definition digitsCheck (h1 h2 m1 m2 : ascii) : bool :=
  let s := string_of_list_ascii [h1; h2; ":"%char; m1; m2] in
  implb (isPaddedHHMM s) (bool_decide (formatTime (parseTime s) = Some s)).

Fixpoint allDigits (s : string) : bool :=
  match s with
  | "" => true
  | String c s' => isDigit c && allDigits s'
  end.

(** The expression [hasOverlap] that both passes compute. *)
Definition hasOverlap (buffer : Z) (proposed existing : TimeSlot) : bool :=
  lt (minuteOf (ts_start proposed)) (add (minuteOf (ts_end existing)) (Int buffer))
  && gt (minuteOf (ts_end proposed)) (minuteOf (ts_start existing)).

(** The invariant of both passes: the two arrays hold the same slots in
    the same order, and nobody is double-booked. *)
Definition assignInv (buffer : Z) (st : AssignState) : Prop :=
  st.2 = map proposedOf st.1 ∧ noDoubleBooking buffer st.2.

(** A loop body of the assigner: it leaves the state alone or accepts, for
    the interviewer at hand, one of the slots found for that interviewer. *)
Definition acceptsAtMostOne
    (cand : list (Availability TimeSlot))
    (interviewerMap : list (string * list (Availability TimeSlot)))
    (options : SchedulingOptions) (users : option (list User))
    (body : AssignState → string → option AssignState) : Prop :=
  ∀ st interviewerId st',
    body st interviewerId = Some st' →
    st' = st
    ∨ ∃ slots slot,
        findOverlappingSlots cand (mapGet interviewerId interviewerMap) options
        = Some slots
        ∧ slot ∈ slots
        ∧ st' = accept users interviewerId st slot.

(** Every slot found for [interviewerId] conflicts with a slot of [used]. *)
Definition allTaken
    (cand : list (Availability TimeSlot))
    (interviewerMap : list (string * list (Availability TimeSlot)))
    (options : SchedulingOptions) (used : list TimeSlot)
    (interviewerId : string) : Prop :=
  ∀ slots slot,
    findOverlappingSlots cand (mapGet interviewerId interviewerMap) options
    = Some slots →
    slot ∈ slots →
    hasCandidateTimeConflict (proposedOf slot) used (orElse (bufferTime options) 15)
    = true.

(** The date of [m] is the date of some slot offered by an interviewer. *)
Definition dateFrom (interviewerAvailability : list (Availability TimeSlot))
    (m : TimeSlotMatch) : Prop :=
  ∃ avail slot,
    avail ∈ interviewerAvailability ∧ slot ∈ time_slots avail
    ∧ m_date m = ts_date slot.

(** [m] may allocate and may write to objects at locations [n] and above;
    it leaves the first [n] objects of the heap alone, and its result, if
    any, satisfies [Q]. *)
Definition frames {A} (n : nat) (m : M A) (Q : A → Prop) : Prop :=
  ∀ h, (n ≤ length h)%nat →
    take n (m h).1 = take n h
    ∧ (length h ≤ length (m h).1)%nat
    ∧ ∀ a, (m h).2 = Some a → Q a.

(** The object at [l] is the interview [m], and [m] has a date. *)
Definition datedMatchAt (h : heap) (l : loc) (m : TimeSlotMatch) : Prop :=
  h !! l = Some (ObjMatch m) ∧ m_date m ≠ "".

(** *** A call in which no date is missing

    When every interview handed to [createScheduledTime] has a date, the
    fallback never fires, nothing is written, and the response is the
    following function of the request, the options and the heap: the
    clock does not occur in it.  [scheduleBody_dated] proves it equal to
    the service's [scheduleBody]. *)

Definition scheduledTimeOf (C : Collaborators) (timezone : string)
    (slot : TimeSlotMatch) : option string :=
  zonedTimeToUtc C (dateTimeStringOf slot) timezone.

Definition messageOf (C : Collaborators) (interviews : list TimeSlotMatch)
    (timezone : string) (bufferTime : Z) : option string :=
  match interviews with
  | [] => Some "No interviews scheduled"
  | [only] => formatScheduleMessage C only timezone
  | first :: _ =>
      date ← formatDate C (m_date first);
      Some (severalInterviewsMessage (length interviews) date bufferTime)
  end.

(** What [generateAvailabilitySummary] returns on heap [h]. *)
Definition summaryAt (h : heap) (request : ScheduleRequest loc)
    : option AvailabilitySummary :=
  candidateAvailability ← availabilityAt h (candidate_availability request);
  interviewerAvailability ← availabilityAt h (interviewer_availability request);
  Some (summaryOf candidateAvailability interviewerAvailability).

Definition responseOf (C : Collaborators) (request : ScheduleRequest loc)
    (opts : SchedulingOptions) (summary : option AvailabilitySummary)
    (found : list TimeSlotMatch) : option ScheduleResponse :=
  primaryInterview ← head found;
  scheduledTime ← scheduledTimeOf C (timezone request) primaryInterview;
  msg ← messageOf C found (timezone request) (orElse (bufferTime opts) 15);
  suggested ← mapM (scheduledTimeOf C (timezone request))
                 (slice 1 (maxSuggestions opts) found);
  allSlots ← mapM (λ slot, slotReportOf slot <$> scheduledTimeOf C (timezone request) slot)
                found;
  summary ← summary;
  interviews ← mapM (λ m, interviewReportOf m <$> scheduledTimeOf C (timezone request) m)
                found;
  Some {| success := true;
          scheduled_time := Some scheduledTime;
          message := msg;
          suggested_times := Some suggested;
          all_available_slots := Some allSlots;
          availability_summary := Some summary;
          individual_interviews := Some interviews |}.

Definition scheduleOf (C : Collaborators) (request : ScheduleRequest loc)
    (options : PartialOptions) (h : heap) : heap * option ScheduleResponse :=
  match availabilityAt h (candidate_availability request) with
  | None => (h, None)
  | Some cand =>
      match availabilityAt h (interviewer_availability request) with
      | None => (h, None)
      | Some ivs =>
          let opts := mergeOptions options (interview_duration request) in
          match findIndividualInterviews cand ivs opts (users request) with
          | None => (h, None)
          | Some [] => (h, Some noOverlapResponse)
          | Some found =>
              (h ++ map ObjMatch found,
               responseOf C request opts
                 (summaryAt (h ++ map ObjMatch found) request) found)
          end
      end
  end.

(** ** Scenarios *)

(** Two interviewers and a candidate with the same window. *)
Definition window0910 : TimeSlot := mkTimeSlot "2024-01-10" "09:00" "10:00".

Definition oneCandidate : list (Availability TimeSlot) :=
  [mkAvailability "candidate" [window0910]].

Definition interviewer1 : Availability TimeSlot :=
  mkAvailability "interviewer-1" [window0910].

Definition interviewer2 : Availability TimeSlot :=
  mkAvailability "interviewer-2" [window0910].

Definition options3015 : SchedulingOptions :=
  {| duration := 30;
     bufferTime := 15;
     businessHours := ("09:00", "17:00");
     preferredDays := [1; 2; 3; 4; 5];
     maxSuggestions := 5 |}.

Definition interview1 : TimeSlotMatch :=
  {| m_date := "2024-01-10";
     m_startTime := "09:00";
     m_endTime := "09:30";
     m_duration := 30;
     m_score := 100;
     m_reasons := [];
     interviewer_id := Some "interviewer-1";
     interviewer_name := Some "Interviewer intervie" |}.

(** The options [{bufferTime: 15}]. *)
Definition buffer15 : PartialOptions := mkPartial None (Some 15) None None None.

(** The start of the slot is 09:45 (minute 585) or later. *)
Definition clearsBuffer (slot : TimeSlotMatch) : bool :=
  ge (minuteOf (m_startTime slot)) (Int 585).

(** The same scenario as a request: three slot objects in the heap. *)
Definition heapIdentical : heap :=
  [ObjSlot window0910; ObjSlot window0910; ObjSlot window0910].

Definition requestIdentical : ScheduleRequest loc :=
  {| scheduler_id := "scheduler";
     timezone := "UTC";
     interview_duration := 30;
     candidate_availability := [mkAvailability "candidate" [0%nat]];
     interviewer_availability :=
       [mkAvailability "interviewer-1" [1%nat]; mkAvailability "interviewer-2" [2%nat]];
     users := None |}.



(** A window of the same day that does not meet [window0910]. *)
Definition window1112 : TimeSlot := mkTimeSlot "2024-01-10" "11:00" "12:00".

(** The candidate offers [window0910], the interviewer [window1112]. *)
Definition heapApart : heap := [ObjSlot window0910; ObjSlot window1112].

Definition requestApart : ScheduleRequest loc :=
  {| scheduler_id := "scheduler";
     timezone := "UTC";
     interview_duration := 60;
     candidate_availability := [mkAvailability "candidate" [0%nat]];
     interviewer_availability := [mkAvailability "interviewer-1" [1%nat]];
     users := None |}.

(** ... and a second interviewer offers [window1112] as well. *)
Definition heapApartTwice : heap :=
  [ObjSlot window0910; ObjSlot window1112; ObjSlot window1112].

Definition requestApartTwice : ScheduleRequest loc :=
  {| scheduler_id := "scheduler";
     timezone := "UTC";
     interview_duration := 60;
     candidate_availability := [mkAvailability "candidate" [0%nat]];
     interviewer_availability :=
       [mkAvailability "interviewer-1" [1%nat]; mkAvailability "interviewer-2" [2%nat]];
     users := None |}.

(** The slot of the validator example: a one-digit month and day. *)
Definition slotShortDate : TimeSlot := mkTimeSlot "2024-1-1" "09:00" "10:00".

(** Collaborators for a request in the UTC zone: the conversion appends
    the UTC designator; the formatted date stands for itself, as its
    wording matters to no property below. *)
Definition utcCollaborators : Collaborators :=
  {| zonedTimeToUtc := λ dateTime _, Some (dateTime +:+ ".000Z");
     formatDate := λ date, Some date |}.

(** A collaborator whose time-zone conversion throws. *)
Definition throwingCollaborators : Collaborators :=
  {| zonedTimeToUtc := λ _ _, None;
     formatDate := λ date, Some date |}.

(** A request over a heap of four slot objects: the candidate offers two
    windows, one of them without a date; interviewer 1 offers the undated
    window, interviewer 2 the dated one. *)
Definition heapMissingDate : heap :=
  [ObjSlot (mkTimeSlot "" "09:00" "10:00");
   ObjSlot (mkTimeSlot "2024-01-10" "09:00" "10:00");
   ObjSlot (mkTimeSlot "" "09:00" "10:00");
   ObjSlot (mkTimeSlot "2024-01-10" "09:00" "10:00")].

Definition requestMissingDate : ScheduleRequest loc :=
  {| scheduler_id := "scheduler";
     timezone := "UTC";
     interview_duration := 60;
     candidate_availability := [mkAvailability "candidate" [0; 1]%nat];
     interviewer_availability :=
       [mkAvailability "interviewer-1" [2%nat]; mkAvailability "interviewer-2" [3%nat]];
     users := None |}.

(** Candidate and interviewer on different days. *)
Definition heapOtherDay : heap :=
  [ObjSlot (mkTimeSlot "2024-01-08" "09:00" "10:00");
   ObjSlot (mkTimeSlot "2024-01-09" "09:00" "10:00")].

Definition requestOtherDay : ScheduleRequest loc :=
  {| scheduler_id := "scheduler";
     timezone := "UTC";
     interview_duration := 60;
     candidate_availability := [mkAvailability "candidate" [0%nat]];
     interviewer_availability := [mkAvailability "interviewer-1" [1%nat]];
     users := None |}.

(** The same request over a heap whose start times have no colon. *)
Definition heapMalformed : heap :=
  [ObjSlot (mkTimeSlot "2024-01-10" "9" "10:00");
   ObjSlot (mkTimeSlot "2024-01-10" "9" "10:00")].

(** ** Vocabulary of the further properties *)

(** [intervalMinutes] of [findTimeSlotOverlap] for [slack] spare minutes. *)
Definition stepOf (slack : Z) : Z := Z.min 15 (Z.max 1 (slack / 4)).

(** Slot number [k] of a window that opens at minute [lo]: it starts [k]
    steps after [lo] and lasts [d] minutes. *)
Definition isSlotAt (date : string) (lo step d : Z) (k : nat) (slot : TimeSlot) : Prop :=
  ts_date slot = date
  ∧ timeOfDay (ts_start slot) (lo + Z.of_nat k * step)
  ∧ timeOfDay (ts_end slot) (lo + Z.of_nat k * step + d).

(** All the slots of an availability list, in source order. *)
Definition slotsOf (availability : list (Availability TimeSlot)) : list TimeSlot :=
  concat (map time_slots availability).

(** The summary entry of one slot. *)
Definition slotSummaryOf (slot : TimeSlot) : SlotSummary :=
  {| ss_start := ts_start slot;
     ss_end := ts_end slot;
     duration_minutes :=
       timeDifference (parseTime (ts_start slot)) (parseTime (ts_end slot)) |}.

(** [m] is the match built from slot [o] that the overlap finder returned
    for a window of the interviewer and a window of the candidate of the
    same date. *)
Definition matchFrom (cand ivs : list (Availability TimeSlot))
    (options : SchedulingOptions) (m : TimeSlotMatch) : Prop :=
  ∃ interviewerSlot candidateSlot overlaps o,
    interviewerSlot ∈ slotsOf ivs ∧ candidateSlot ∈ slotsOf cand
    ∧ ts_date candidateSlot = ts_date interviewerSlot
    ∧ findTimeSlotOverlap interviewerSlot candidateSlot (duration options)
      = Some overlaps
    ∧ o ∈ overlaps
    ∧ m = toMatch options interviewerSlot o.

(** One side of the summary accounts for every slot of [availability]:
    its dates once each in first-seen order, and under each date the slots
    of that date in source order. *)
Definition accountsFor (side : SideSummary)
    (availability : list (Availability TimeSlot)) : Prop :=
  map fst (availability_by_date side) = datesOf availability
  ∧ total_days side = length (datesOf availability)
  ∧ total_slots side = length (slotsOf availability)
  ∧ total_slots side
    = sum_list (map (λ entry, length entry.2) (availability_by_date side))
  ∧ ∀ date slots,
      (date, slots) ∈ availability_by_date side →
      slots = map slotSummaryOf
                (filter (λ slot, ts_date slot = date) (slotsOf availability)).

(** The availability records of one interviewer, in source order. *)
Definition recordsOf (interviewerId : string)
    (interviewerAvailability : list (Availability TimeSlot))
    : list (Availability TimeSlot) :=
  filter (λ avail, user_id avail = interviewerId) interviewerAvailability.

(** [slot] is free for the candidate next to the interviews [before]. *)
Definition freeAfter (options : SchedulingOptions) (before : list TimeSlotMatch)
    (slot : TimeSlotMatch) : bool :=
  negb (hasCandidateTimeConflict (proposedOf slot) (map proposedOf before)
          (orElse (bufferTime options) 15)).

(** Every interview of the list is the first slot found for its
    interviewer that is free next to the interviews listed before it. *)
Definition firstFit (cand ivs : list (Availability TimeSlot))
    (options : SchedulingOptions) (users : option (list User))
    (found : list TimeSlotMatch) : Prop :=
  ∀ before m after,
    found = before ++ m :: after →
    ∃ interviewerId slots slot,
      findOverlappingSlots cand (recordsOf interviewerId ivs) options = Some slots
      ∧ List.find (freeAfter options before) slots = Some slot
      ∧ m = assignTo users interviewerId slot.

(** The three checks of [validateAvailability] pass on the slot. *)
Definition slotPasses (slot : TimeSlot) : bool :=
  isValidDateFormat (ts_date slot)
  && isValidTimeFormat (ts_start slot) && isValidTimeFormat (ts_end slot)
  && negb (ge (hours (parseTime (ts_start slot))) (hours (parseTime (ts_end slot)))).

(** The minute of the day that [s] parses to, when it parses to one; and
    the checks, run over every string of digits of the two accepted
    shapes, that a string of the accepted format parses to a minute of
    the day and that a zero-padded time is of the accepted format. *)
Definition minuteOfDay (s : string) : option Z :=
  match totalMinutes (parseTime s) with
  | Int t =>
      if (0 <=? t) && (t <? 1440)
         && bool_decide (parseTime s = timeOf (t / 60) (t mod 60))
      then Some t else None
  | NaN => None
  end.

Definition formatCheck5 (h1 h2 m1 m2 : ascii) : bool :=
  let s := string_of_list_ascii [h1; h2; ":"%char; m1; m2] in
  implb (isValidTimeFormat s) (bool_decide (is_Some (minuteOfDay s))).

Definition formatCheck4 (h m1 m2 : ascii) : bool :=
  let s := string_of_list_ascii [h; ":"%char; m1; m2] in
  implb (isValidTimeFormat s) (bool_decide (is_Some (minuteOfDay s))).

Definition paddedCheck (h1 h2 m1 m2 : ascii) : bool :=
  let s := string_of_list_ascii [h1; h2; ":"%char; m1; m2] in
  implb (isPaddedHHMM s) (isValidTimeFormat s).

(** A date library throws on the interviews of a call: the conversion to
    UTC of the start of one of them, or the formatting of the date of the
    first.  These are all the calls the response builder makes. *)
Definition libraryThrowsOn (C : Collaborators) (timezone : string)
    (found : list TimeSlotMatch) : Prop :=
  (∃ m, m ∈ found ∧ scheduledTimeOf C timezone m = None)
  ∨ (∃ first, head found = Some first ∧ formatDate C (m_date first) = None).

(** A collaborator that rejects the thirteenth month, as [date-fns] does. *)
Definition strictCollaborators : Collaborators :=
  {| zonedTimeToUtc := λ dateTime _,
       if String.eqb (String.substring 5 2 dateTime) "13" then None
       else Some (dateTime +:+ ".000Z");
     formatDate := λ date,
       if String.eqb (String.substring 5 2 date) "13" then None else Some date |}.

Definition window1345 : TimeSlot := mkTimeSlot "2024-13-45" "09:00" "10:00".

Definition heapNoSuchDay : heap :=
  [ObjSlot window1345; ObjSlot window1345; ObjSlot window1345].



(** The interview [m] after [createScheduledTime] has run on it at date
    [today]. *)
Definition withFallbackDate (today : string) (m : TimeSlotMatch) : TimeSlotMatch :=
  if bool_decide (m_date m = "") then
    {| m_date := today;
       m_startTime := m_startTime m;
       m_endTime := m_endTime m;
       m_duration := m_duration m;
       m_score := m_score m;
       m_reasons := m_reasons m;
       interviewer_id := interviewer_id m;
       interviewer_name := interviewer_name m |}
  else m.

(** The two windows are of one date and share at least [d] minutes. *)
Definition roomFor (d : Z) (interviewerSlot candidateSlot : TimeSlot) : Prop :=
  ts_date candidateSlot = ts_date interviewerSlot
  ∧ ∃ s1 e1 s2 e2,
      timeOfDay (ts_start interviewerSlot) s1 ∧ timeOfDay (ts_end interviewerSlot) e1
      ∧ timeOfDay (ts_start candidateSlot) s2 ∧ timeOfDay (ts_end candidateSlot) e2
      ∧ d ≤ Z.min e1 e2 - Z.max s1 s2.

(** The options [{bufferTime: b}] on top of [options]. *)
Definition withBufferTime (b : Z) (options : PartialOptions) : PartialOptions :=
  {| p_duration := p_duration options;
     p_bufferTime := Some b;
     p_businessHours := p_businessHours options;
     p_preferredDays := p_preferredDays options;
     p_maxSuggestions := p_maxSuggestions options |}.

(** ** Slot scorer *)

(** [x === z] for a value that may be [undefined] and a number [z]. *)
Definition strictEq (x : option num) (z : Z) : bool :=
  match x with Some (Int v) => v =? z | _ => false end.

(** The score [selectBestTimeSlot] gives a slot; [undefined % 15] is [NaN]. *)
Definition scoreOf (slot : TimeSlot) : Z :=
  let time := parseTime (ts_start slot) in
  let score := 100 in
  let score :=
    if strictEq (minutes time) 0 then score + 20
    else if strictEq (minutes time) 30 then score + 15
    else if strictEq (Some (rem (default NaN (minutes time)) (Int 15))) 0 then score + 10
    else if strictEq (Some (rem (default NaN (minutes time)) (Int 5))) 0 then score + 5
    else score in
  if ge (hours time) (Int 9) && le (hours time) (Int 17) then score + 10 else score.

(** [xs.sort(compare)]: the sort is stable, so with a comparator that is
    a difference of keys the result is the one of any stable sort; this
    one inserts each element, from the last to the first, before the
    first element that does not precede it. *)
Fixpoint insertBy {A} (compare : A → A → Z) (x : A) (sorted : list A) : list A :=
  match sorted with
  | [] => [x]
  | y :: ys =>
      if compare x y <=? 0 then x :: y :: ys else y :: insertBy compare x ys
  end.

Definition sortBy {A} (compare : A → A → Z) (xs : list A) : list A :=
  foldr (insertBy compare) [] xs.

(** [selectBestTimeSlot]; on an empty array [scoredSlots[0].slot] throws. *)
Definition selectBestTimeSlot (slots : list TimeSlot) : option TimeSlot :=
  match slots with
  | [only] => Some only
  | _ =>
      let scoredSlots := map (λ slot, (slot, scoreOf slot)) slots in
      fst <$> head (sortBy (λ a b, b.2 - a.2) scoredSlots)
  end.

(** The head of a list sorted by descending key, ties in source order:
    the first element whose key no other exceeds. *)
Definition firstBest {A} (key : A → Z) (xs : list A) (best : A) : Prop :=
  ∃ i, xs !! i = Some best
       ∧ (∀ x, x ∈ xs → key x ≤ key best)
       ∧ ∀ j x, (j < i)%nat → xs !! j = Some x → key x < key best.

(** ** Scheduling statistics *)

Record SchedulingStats := mkStats {
  totalCandidateSlots : nat;
  totalInterviewerSlots : nat;
  overlappingDays : nat;
  totalOverlappingHours : Q
}.

(** [getSchedulingStats]: it throws when [findOverlappingSlots] does.  The
    sum of the durations is an integer; its quotient by 60 is kept as a
    rational number. *)
Definition getSchedulingStats
    (candidateAvailability interviewerAvailability : list (Availability TimeSlot))
    : option SchedulingStats :=
  let candidateSlots := totalSlots candidateAvailability in
  let interviewerSlots := totalSlots interviewerAvailability in
  let candidateDates := datesOf candidateAvailability in
  let interviewerDates := datesOf interviewerAvailability in
  let overlappingDays :=
    length (foldl setAdd [] (filter (λ date, date ∈ interviewerDates) candidateDates)) in
  overlappingSlots ← findOverlappingSlots candidateAvailability interviewerAvailability
                        defaultOptions;
  let sumOfDurations := foldl (λ sum slot, sum + m_duration slot) 0 overlappingSlots in
  Some {| totalCandidateSlots := candidateSlots;
          totalInterviewerSlots := interviewerSlots;
          overlappingDays := overlappingDays;
          totalOverlappingHours := (inject_Z sumOfDurations / inject_Z 60)%Q |}.

(** ** Latest availability per user ([src/server/routes/scheduler.ts]) *)

(** An availability record as the routes handle it: the fields of
    [Availability], and the [date] of the legacy records, [undefined] on
    the records the database returns.  A slot of a record may lack its
    date. *)
Record RawSlot := mkRawSlot {
  rs_date : option string;
  rs_start : string;
  rs_end : string
}.

(** The [time_slots] of a record as [JSON.parse] leaves it: missing, an
    array of slots, or a single slot. *)
Inductive SlotsValue :=
| NoSlots
| SlotArray (slots : list RawSlot)
| OneSlot (slot : RawSlot).

Record AvailabilityRecord := mkRecord {
  r_id : string;
  r_user_id : string;
  r_scheduler_id : string;
  r_date : option string;
  r_time_slots : SlotsValue;
  r_timezone : string;
  r_created_at : string;
  r_updated_at : string
}.

(** A [Map] with string keys, iterated in insertion order: [m.get(k)] and
    [m.set(k, v)], which keeps the place of a key it already holds. *)
Fixpoint mapLookup {V} (k : string) (m : list (string * V)) : option V :=
  match m with
  | [] => None
  | (k', v) :: m' => if bool_decide (k' = k) then Some v else mapLookup k m'
  end.

Fixpoint mapSet {V} (k : string) (v : V) (m : list (string * V)) : list (string * V) :=
  match m with
  | [] => [(k, v)]
  | (k', v') :: m' =>
      if bool_decide (k' = k) then (k', v) :: m' else (k', v') :: mapSet k v m'
  end.

(** [`${record.user_id}-${record.date}`] *)
Definition userDateKey (record : AvailabilityRecord) : string :=
  r_user_id record +:+ "-" +:+ default "undefined" (r_date record).

Section latest.
(** [new Date(s).valueOf()]: the time value of a date string, [NaN] when
    the string is not a date. *)
Variable timeValue : string → num.

(** [new Date(a.updated_at) > new Date(b.updated_at)] *)
Definition updatedAfter (a b : AvailabilityRecord) : bool :=
  gt (timeValue (r_updated_at a)) (timeValue (r_updated_at b)).

(** The callback of [availabilityRecords.forEach], which the routes write
    three times, for a map keyed by [keyOf record]: a record replaces the
    one held under its key when it is updated after it. *)
Definition keepLatest (keyOf : AvailabilityRecord → string)
    (latestMap : list (string * AvailabilityRecord))
    (record : AvailabilityRecord) : list (string * AvailabilityRecord) :=
  let key := keyOf record in
  match mapLookup key latestMap with
  | Some existingRecord =>
      if updatedAfter record existingRecord then mapSet key record latestMap
      else latestMap
  | None => mapSet key record latestMap
  end.

(** [getLatestAvailabilityPerUser]; [None] is a [null] or [undefined]
    argument. *)
Definition getLatestAvailabilityPerUser
    (availabilityRecords : option (list AvailabilityRecord))
    : list AvailabilityRecord :=
  match availabilityRecords with
  | None | Some [] => []
  | Some records => map snd (foldl (keepLatest userDateKey) [] records)
  end.

(** [chosen] is the latest record of its key: a record of the list, which
    no record of the same key is updated after, and which is updated
    after every earlier record of that key that carries a date. *)
Definition latestOf (keyOf : AvailabilityRecord → string)
    (records : list AvailabilityRecord) (chosen : AvailabilityRecord) : Prop :=
  ∃ i, records !! i = Some chosen
       ∧ (∀ r, r ∈ records → keyOf r = keyOf chosen →
               updatedAfter r chosen = false)
       ∧ ∀ j r, (j < i)%nat → records !! j = Some r →
                keyOf r = keyOf chosen →
                updatedAfter chosen r = true ∨ timeValue (r_updated_at r) = NaN.

(** The invariant of the [forEach]: the map holds, under each key seen
    so far and in the order in which the keys were first seen, the latest
    record of that key. *)
Definition latestInv (keyOf : AvailabilityRecord → string)
    (seen : list AvailabilityRecord)
    (m : list (string * AvailabilityRecord)) : Prop :=
  map fst m = foldl setAdd [] (map keyOf seen)
  ∧ (∀ r, r ∈ seen → is_Some (mapLookup (keyOf r) m))
  ∧ ∀ k c, mapLookup k m = Some c → keyOf c = k ∧ latestOf keyOf seen c.
End latest.

(** ** Most recent submission per user ([src/server/routes/scheduler.ts]) *)

(** [s.substring(a, b)] for [a <= b]. *)
Definition substring (a b : nat) (s : string) : string :=
  String.substring a (b - a) s.

(** A value is truthy: defined and not the empty string. *)
Definition truthy (x : option string) : bool :=
  match x with Some "" | None => false | Some _ => true end.

Section submissions.
Variable timeValue : string → num.
(** [new Date(s).toISOString()]; [None] is the [RangeError] thrown for a
    string that is not a date. *)
Variable toISOString : string → option string.

(** A legacy time that is an ISO date-time is cut down to its [HH:MM]. *)
Definition localTime (time : string) : option string :=
  if includes "T" time then substring 11 16 <$> toISOString time else Some time.

(** The callback of [timeSlotsArray.forEach]: a slot without a date, in a
    record without a date, is skipped. *)
Definition addSlot (record : AvailabilityRecord)
    (dateMap : list (string * list RawSlot)) (slot : RawSlot)
    : option (list (string * list RawSlot)) :=
  let slotDate := if truthy (rs_date slot) then rs_date slot else r_date record in
  if truthy slotDate then
    startTime ← localTime (rs_start slot);
    endTime ← localTime (rs_end slot);
    Some (mapPush (default "" slotDate)
            {| rs_date := None; rs_start := startTime; rs_end := endTime |} dateMap)
  else Some dateMap.

(** The callback of [userLatestMap.forEach] of the new schema: one record
    per date of the user's latest record. *)
Definition expandByDate (record : AvailabilityRecord)
    : option (list AvailabilityRecord) :=
  match r_time_slots record with
  | NoSlots => Some []
  | slots =>
      let timeSlotsArray :=
        match slots with SlotArray xs => xs | OneSlot x => [x] | NoSlots => [] end in
      dateMap ← forOf (addSlot record) [] timeSlotsArray;
      Some (map (λ entry,
                   {| r_id := r_id record;
                      r_user_id := r_user_id record;
                      r_scheduler_id := r_scheduler_id record;
                      r_date := Some entry.1;
                      r_time_slots := SlotArray entry.2;
                      r_timezone := r_timezone record;
                      r_created_at := r_created_at record;
                      r_updated_at := r_updated_at record |}) dateMap)
  end.

Definition hasNewSchema (firstRecord : AvailabilityRecord) : bool :=
  match r_time_slots firstRecord with
  | SlotArray (slot :: _) => truthy (rs_date slot)
  | _ => false
  end.

Definition hasOldSchema (firstRecord : AvailabilityRecord) : bool :=
  truthy (r_date firstRecord)
  && match r_time_slots firstRecord with NoSlots => false | _ => true end.

(** [getMostRecentAvailabilitySubmission].  Its first statement reads
    [availabilityRecords.length], so a [null] argument throws before the
    guard against it is reached. *)
Definition getMostRecentAvailabilitySubmission
    (availabilityRecords : option (list AvailabilityRecord))
    : option (list AvailabilityRecord) :=
  records ← availabilityRecords;
  match records with
  | [] => Some []
  | firstRecord :: _ =>
      if hasNewSchema firstRecord then
        let userLatestMap := foldl (keepLatest timeValue r_user_id) [] records in
        perUser ← mapM expandByDate (map snd userLatestMap);
        Some (concat perUser)
      else if hasOldSchema firstRecord then
        let userLatestMap := foldl (keepLatest timeValue r_user_id) [] records in
        Some (concat (map (λ latestRecord,
                filter (λ record,
                          r_user_id record = r_user_id latestRecord
                          ∧ r_updated_at record = r_updated_at latestRecord)
                       records)
                (map snd userLatestMap)))
      else Some records
  end.
End submissions.

(** *** Vocabulary of the submission properties *)

(** The date under which [addSlot] files a slot of the record, if any. *)
Definition slotDateOf (record : AvailabilityRecord) (slot : RawSlot) : option string :=
  if truthy (rs_date slot) then rs_date slot
  else if truthy (r_date record) then r_date record else None.

(** The slots of a record, as [expandByDate] walks them. *)
Definition rawSlotsOf (record : AvailabilityRecord) : list RawSlot :=
  match r_time_slots record with
  | NoSlots => []
  | SlotArray slots => slots
  | OneSlot slot => [slot]
  end.

(** [out] is one of the per-date records made from [record]. *)
Definition expandedFrom (record out : AvailabilityRecord) : Prop :=
  r_id out = r_id record ∧ r_user_id out = r_user_id record
  ∧ r_scheduler_id out = r_scheduler_id record
  ∧ r_timezone out = r_timezone record
  ∧ r_created_at out = r_created_at record
  ∧ r_updated_at out = r_updated_at record
  ∧ ∃ date slots,
      r_date out = Some date ∧ date ≠ ""
      ∧ r_time_slots out = SlotArray slots
      ∧ length slots
        = length (filter (λ slot, slotDateOf record slot = Some date) (rawSlotsOf record))
      ∧ Forall (λ slot, rs_date slot = None) slots.

(** The invariant of [timeSlotsArray.forEach]: the map files, under
    non-empty dates, as many undated slots as the record has slots of
    that date among those seen. *)
Definition dateMapInv (record : AvailabilityRecord) (seen : list RawSlot)
    (dateMap : list (string * list RawSlot)) : Prop :=
  NoDup (map fst dateMap)
  ∧ (∀ date, date ∈ map fst dateMap → date ≠ "")
  ∧ ∀ date,
      length (mapGet date dateMap)
      = length (filter (λ slot, slotDateOf record slot = Some date) seen)
      ∧ Forall (λ slot, rs_date slot = None) (mapGet date dateMap).

(** *** Scenarios of the submissions *)

(** Two submissions of one user, the second the later one, and a clock
    that reads the length of a time stamp. *)
Definition slotOfDay (date : string) : RawSlot :=
  {| rs_date := Some date; rs_start := "09:00"; rs_end := "10:00" |}.

Definition firstSubmission : AvailabilityRecord :=
  {| r_id := "a1"; r_user_id := "u1"; r_scheduler_id := "s";
     r_date := None;
     r_time_slots := SlotArray [slotOfDay "2024-01-10"];
     r_timezone := "UTC"; r_created_at := "1"; r_updated_at := "1" |}.

Definition secondSubmission : AvailabilityRecord :=
  {| r_id := "a2"; r_user_id := "u1"; r_scheduler_id := "s";
     r_date := None;
     r_time_slots :=
       SlotArray [slotOfDay "2024-01-11"; slotOfDay "2024-01-12"; slotOfDay "2024-01-11"];
     r_timezone := "UTC"; r_created_at := "22"; r_updated_at := "22" |}.

Definition legacySubmission : AvailabilityRecord :=
  {| r_id := "a3"; r_user_id := "u1"; r_scheduler_id := "s";
     r_date := Some "2024-01-10";
     r_time_slots := SlotArray [mkRawSlot None "09:00" "10:00"];
     r_timezone := "UTC"; r_created_at := "1"; r_updated_at := "1" |}.

Definition lengthClock (s : string) : num := Int (Z.of_nat (String.length s)).

(** * Properties *)

(** ** Lists *)

Lemma elem_of_concat {A} (x : A) (ls : list (list A)) :
  x ∈ concat ls ↔ ∃ l, l ∈ ls ∧ x ∈ l.
Proof.
  rewrite list_elem_of_In, in_concat.
  split; intros (l & H1 & H2); exists l; by rewrite ?list_elem_of_In in *.
Qed.

Lemma option_bind_some {A B} (a : A) (f : A → option B) : (Some a ≫= f) = f a.
Proof. reflexivity. Qed.

(** ** Time arithmetic *)

Example parseTime_0930 :
  parseTime "09:30" = {| hours := Int 9; minutes := Some (Int 30); totalMinutes := Int 570 |}.
Proof. reflexivity. Qed.

Example formatTime_0930 : formatTime (parseTime "9:5") = Some "09:05".
Proof. reflexivity. Qed.

Example addMinutes_wrap : addMinutesToTime "23:15" 60 = Some "00:15".
Proof. reflexivity. Qed.

Example formatTime_no_colon : formatTime (parseTime "9") = None.
Proof. reflexivity. Qed.



Lemma isDigit_digitChars c : isDigit c = true → In c digitChars.
Proof.
  destruct c as [[] [] [] [] [] [] [] []]; intros H;
    solve [discriminate H | cbv; tauto].
Qed.

Lemma formatTime_ignores_total h m t t' :
  formatTime (mkTime h m t) = formatTime (mkTime h m t').
Proof. reflexivity. Qed.

Lemma hmCheck_all :
  forallb (λ h, forallb (hmCheck h) (seqZ 0 60)) (seqZ 0 24) = true.
Proof. vm_compute. reflexivity. Qed.

Lemma hmCheck_ok h m : 0 ≤ h ≤ 23 → 0 ≤ m ≤ 59 → hmCheck h m = true.
Proof.
  intros Hh Hm. pose proof hmCheck_all as H.
  rewrite forallb_forall in H.
  specialize (H h). rewrite forallb_forall in H.
  apply H; apply list_elem_of_In, elem_of_seqZ; lia.
Qed.

(** Formatting a time of day and parsing it back. *)
Lemma parseTime_formatTime h m t :
  0 ≤ h ≤ 23 → 0 ≤ m ≤ 59 →
  ∃ s, formatTime (mkTime (Int h) (Some (Int m)) t) = Some s
       ∧ isPaddedHHMM s = true
       ∧ parseTime s = timeOf h m.
Proof.
  intros Hh Hm. pose proof (hmCheck_ok h m Hh Hm) as H.
  unfold hmCheck in H.
  rewrite (formatTime_ignores_total _ _ t (Int (60 * h + m))).
  fold (timeOf h m).
  destruct (formatTime (timeOf h m)) as [s|]; [|discriminate].
  apply andb_true_iff in H as [H1 H2]. apply bool_decide_eq_true in H2.
  eauto.
Qed.

Lemma digitsCheck_all :
  forallb (λ h1, forallb (λ h2, forallb (λ m1, forallb (digitsCheck h1 h2 m1)
    digitChars) digitChars) digitChars) digitChars = true.
Proof. vm_compute. reflexivity. Qed.

Lemma formatTime_parseTime s :
  isPaddedHHMM s = true → formatTime (parseTime s) = Some s.
Proof.
  intros H. pose proof H as Hs. unfold isPaddedHHMM in H.
  destruct (list_ascii_of_string s) as [|h1 [|h2 [|c [|m1 [|m2 [|? ?]]]]]] eqn:E;
    try discriminate.
  apply andb_true_iff in H as [H _]. apply andb_true_iff in H as [H _].
  apply andb_true_iff in H as [H D4]. apply andb_true_iff in H as [H D3].
  apply andb_true_iff in H as [H Hc]. apply andb_true_iff in H as [D1 D2].
  assert (c = ":"%char) as -> by (by apply Ascii.eqb_eq).
  assert (s = string_of_list_ascii [h1; h2; ":"%char; m1; m2]) as Es
    by (rewrite <- E; symmetry; apply string_of_list_ascii_of_string).
  pose proof digitsCheck_all as A.
  rewrite forallb_forall in A. specialize (A h1 (isDigit_digitChars _ D1)).
  rewrite forallb_forall in A. specialize (A h2 (isDigit_digitChars _ D2)).
  rewrite forallb_forall in A. specialize (A m1 (isDigit_digitChars _ D3)).
  rewrite forallb_forall in A. specialize (A m2 (isDigit_digitChars _ D4)).
  unfold digitsCheck in A. rewrite <- Es, Hs in A. simpl in A.
  by apply bool_decide_eq_true in A.
Qed.

(** C9. [formatTime] is the zero-padded inverse of [parseTime]: a string
    ["HH:MM"] with two-digit hours in [0,23] and minutes in [0,59] is
    returned unchanged by [formatTime (parseTime s)], and for hours and
    minutes in those ranges parsing the formatted time gives back
    [{hours: h, minutes: m, totalMinutes: 60*h+m}]. *)
Theorem formatTime_inverse_of_parseTime :
  (∀ s, isPaddedHHMM s = true → formatTime (parseTime s) = Some s)
  ∧ (∀ h m t, 0 ≤ h ≤ 23 → 0 ≤ m ≤ 59 →
       ∃ s, formatTime (mkTime (Int h) (Some (Int m)) t) = Some s
            ∧ parseTime s
              = {| hours := Int h; minutes := Some (Int m);
                   totalMinutes := Int (60 * h + m) |}).
Proof.
  split.
  - apply formatTime_parseTime.
  - intros h m t Hh Hm.
    destruct (parseTime_formatTime h m t Hh Hm) as (s & ? & _ & ?). eauto.
Qed.

Lemma formatTime_inverse_of_parseTime_witness :
  formatTime (parseTime "09:30") = Some "09:30"
  ∧ ∃ s, formatTime (mkTime (Int 23) (Some (Int 5)) NaN) = Some s
         ∧ parseTime s
           = {| hours := Int 23; minutes := Some (Int 5); totalMinutes := Int 1385 |}.
Proof.
  split.
  - apply (proj1 formatTime_inverse_of_parseTime "09:30"). reflexivity.
  - apply (proj2 formatTime_inverse_of_parseTime 23 5 NaN); lia.
Defined.

(** ** The conflict test *)

(** Two intervals with a minute in common, the existing one extended by
    the buffer, conflict in the sense of the test. *)
Lemma hasOverlap_spec buffer proposed existing :
  hasOverlap buffer proposed existing = true
  ↔ ∃ s1 e1 s2 e2,
      minuteOf (ts_start proposed) = Int s1 ∧ minuteOf (ts_end proposed) = Int e1
      ∧ minuteOf (ts_start existing) = Int s2 ∧ minuteOf (ts_end existing) = Int e2
      ∧ intervalsConflict buffer s1 e1 s2 e2.
Proof.
  unfold hasOverlap, intervalsConflict, gt, lt, add.
  split.
  - intros H. apply andb_true_iff in H as [H1 H2].
    destruct (minuteOf (ts_start proposed)) as [|s1]; [discriminate|].
    destruct (minuteOf (ts_end existing)) as [|e2]; [discriminate|].
    destruct (minuteOf (ts_start existing)) as [|s2]; [discriminate|].
    destruct (minuteOf (ts_end proposed)) as [|e1]; [discriminate|].
    exists s1, e1, s2, e2. repeat split; lia.
  - intros (s1 & e1 & s2 & e2 & -> & -> & -> & -> & H1 & H2).
    apply andb_true_iff. split; lia.
Qed.

Lemma hasCandidateTimeConflict_existsb proposed used buffer :
  hasCandidateTimeConflict proposed used buffer
  = existsb (λ existing, bool_decide (ts_date existing = ts_date proposed)
                         && hasOverlap buffer proposed existing) used.
Proof.
  unfold hasCandidateTimeConflict.
  assert (∀ l, existsb (λ existing, bool_decide (ts_date existing = ts_date proposed)
                          && hasOverlap buffer proposed existing) l
               = existsb (hasOverlap buffer proposed)
                   (filter (λ slot, ts_date slot = ts_date proposed) l)) as E.
  { induction l as [|x l IH]; [done|].
    rewrite filter_cons. simpl.
    destruct (decide (ts_date x = ts_date proposed)) as [e|n].
    - rewrite (bool_decide_eq_true_2 _ e). simpl. by rewrite IH.
    - rewrite (bool_decide_eq_false_2 _ n). simpl. by rewrite IH. }
  rewrite E.
  by destruct (filter _ used).
Qed.

Lemma conflictsWithScheduled_existsb options allInterviews proposed :
  conflictsWithScheduled options allInterviews proposed
  = existsb (λ existing, bool_decide (ts_date existing = ts_date proposed)
                         && hasOverlap (orElse (bufferTime options) 15) proposed existing)
      (map proposedOf allInterviews).
Proof.
  unfold conflictsWithScheduled.
  induction allInterviews as [|m l IH]; [done|].
  simpl. rewrite IH. f_equal.
  unfold conflictsWith. simpl.
  repeat case_bool_decide; try done; by simplify_eq.
Qed.

Lemma pass_checks_equal options allInterviews proposed :
  hasCandidateTimeConflict proposed (map proposedOf allInterviews)
    (orElse (bufferTime options) 15)
  = conflictsWithScheduled options allInterviews proposed.
Proof.
  by rewrite hasCandidateTimeConflict_existsb, conflictsWithScheduled_existsb.
Qed.

Lemma hasCandidateTimeConflict_spec proposed used buffer :
  hasCandidateTimeConflict proposed used buffer = true
  ↔ ∃ existing, existing ∈ used ∧ slotsConflict buffer proposed existing.
Proof.
  rewrite hasCandidateTimeConflict_existsb, existsb_exists.
  unfold slotsConflict.
  split.
  - intros (x & Hin & H). apply andb_true_iff in H as [Hd Ho].
    apply bool_decide_eq_true in Hd. apply hasOverlap_spec in Ho.
    exists x. by rewrite list_elem_of_In.
  - intros (x & Hin & Hd & Ho). exists x. split; [by apply list_elem_of_In|].
    apply andb_true_iff. split; [by apply bool_decide_eq_true|].
    by apply hasOverlap_spec.
Qed.

(** C4. The check of pass 1 ([hasCandidateTimeConflict]) and the inline
    check of pass 2 return the same answer on every proposed slot, every
    list of scheduled interviews and every buffer setting; and that answer
    is the specification's test: some existing slot of the same date has
    [s1 < e2 + buffer] and [e1 > s2], the buffer extending the existing
    slot's end only. *)
Theorem conflict_test_same_in_both_passes :
  ∀ (options : SchedulingOptions) (allInterviews : list TimeSlotMatch)
    (proposedSlot : TimeSlot),
    hasCandidateTimeConflict proposedSlot (map proposedOf allInterviews)
      (orElse (bufferTime options) 15)
    = conflictsWithScheduled options allInterviews proposedSlot
    ∧ (conflictsWithScheduled options allInterviews proposedSlot = true
       ↔ ∃ existing, existing ∈ map proposedOf allInterviews
           ∧ slotsConflict (orElse (bufferTime options) 15) proposedSlot existing)
    ∧ (∀ used buffer,
         hasCandidateTimeConflict proposedSlot used buffer = true
         ↔ ∃ existing, existing ∈ used ∧ slotsConflict buffer proposedSlot existing).
Proof.
  intros options allInterviews proposedSlot. split; [|split].
  - apply pass_checks_equal.
  - rewrite <- pass_checks_equal. apply hasCandidateTimeConflict_spec.
  - intros used buffer. apply hasCandidateTimeConflict_spec.
Qed.

(** ** The slot overlap finder *)

Lemma timeOfDay_total s t : timeOfDay s t → totalMinutes (parseTime s) = Int t.
Proof.
  intros [Ht ->]. simpl. f_equal.
  pose proof (Z.div_mod t 60). lia.
Qed.

Lemma minutesToTime_small t :
  0 ≤ t < 1440 →
  minutesToTime (Int t)
  = {| hours := Int (t / 60); minutes := Some (Int (t mod 60)); totalMinutes := Int t |}.
Proof.
  intros Ht. unfold minutesToTime. simpl.
  rewrite Z.rem_small by lia. by rewrite Z.rem_mod_nonneg by lia.
Qed.

Lemma formatTime_minutesToTime t :
  0 ≤ t < 1440 → ∃ s, formatTime (minutesToTime (Int t)) = Some s ∧ timeOfDay s t.
Proof.
  intros Ht. rewrite minutesToTime_small by done.
  destruct (parseTime_formatTime (t / 60) (t mod 60) (Int t)) as (s & Hs & _ & Hp).
  - assert (0 ≤ t / 60) by (apply Z.div_pos; lia).
    assert (t / 60 < 24) by (apply Z.div_lt_upper_bound; lia). lia.
  - pose proof (Z.mod_pos_bound t 60). lia.
  - exists s. split; [exact Hs|]. split; [lia|exact Hp].
Qed.

Lemma addMinutesToTime_timeOfDay s t d :
  timeOfDay s t → 0 ≤ t + d < 1440 →
  ∃ s', addMinutesToTime s d = Some s' ∧ timeOfDay s' (t + d).
Proof.
  intros Hs Hd. unfold addMinutesToTime.
  rewrite (timeOfDay_total s t Hs). simpl. by apply formatTime_minutesToTime.
Qed.

Section loop.
Variables (date : string) (overlapStart overlapEnd : Time).
Variables (lo hi d slack step : Z).
Hypothesis Hlo : totalMinutes overlapStart = Int lo.
Hypothesis Hhi : totalMinutes overlapEnd = Int hi.
Hypothesis Hrange : 0 ≤ lo ∧ hi < 1440.
Hypothesis Hslack : slack = hi - lo - d.
Hypothesis Hd : 0 < d.
Hypothesis Hstep : 1 ≤ step.

(** Inside a true overlap every iteration of the loop keeps its slot,
    and the slot fits. *)
Lemma slotLoop_fits fuel offset :
  0 ≤ offset →
  ∃ slots,
    slotLoop date overlapStart overlapEnd d (Int slack) (Int step) fuel (Int offset)
    = Some slots
    ∧ Forall (fitsIn date lo hi d) slots
    ∧ ((0 < fuel)%nat → offset ≤ slack → slots ≠ []).
Proof using Hlo Hhi Hrange Hslack Hd Hstep.
  revert offset. induction fuel as [|fuel IH]; intros offset Ho.
  { exists []. repeat split; [constructor|lia]. }
  cbn [slotLoop]. unfold le at 1.
  destruct (Z.leb_spec offset slack) as [Hle|Hgt].
  2:{ exists []. repeat split; [constructor|lia]. }
  rewrite Hlo. cbn [add].
  destruct (formatTime_minutesToTime (lo + offset)) as (s & -> & Hs); [lia|].
  cbn [mbind option_bind].
  destruct (addMinutesToTime_timeOfDay s (lo + offset) d Hs) as (e & -> & He); [lia|].
  cbn [mbind option_bind].
  destruct (IH (offset + step)) as (rest & -> & Hrest & _); [lia|].
  cbn [mbind option_bind].
  rewrite (timeOfDay_total e _ He), Hhi. unfold le.
  rewrite (proj2 (Z.leb_le _ _)) by lia.
  eexists. repeat split; [|done].
  constructor; [|done].
  split; [done|]. exists (lo + offset), (lo + offset + d).
  repeat split; try apply Hs; try apply He; lia.
Qed.
End loop.

(** When the two windows really meet, [findTimeSlotOverlap] does what the
    specification says: every slot lies in the intersection, lasts
    [requiredDuration] minutes, and there is a slot whenever the
    intersection is long enough. *)
Lemma findTimeSlotOverlap_meeting_windows slot1 slot2 d s1 e1 s2 e2 :
  timeOfDay (ts_start slot1) s1 → timeOfDay (ts_end slot1) e1 →
  timeOfDay (ts_start slot2) s2 → timeOfDay (ts_end slot2) e2 →
  0 < d → Z.max s1 s2 ≤ Z.min e1 e2 →
  ∃ slots,
    findTimeSlotOverlap slot1 slot2 d = Some slots
    ∧ Forall (fitsIn (ts_date slot1) (Z.max s1 s2) (Z.min e1 e2) d) slots
    ∧ (d ≤ Z.min e1 e2 - Z.max s1 s2 → slots ≠ []).
Proof.
  intros Hs1 He1 Hs2 He2 Hd Hmeet.
  pose proof (timeOfDay_total _ _ Hs1) as Ts1.
  pose proof (timeOfDay_total _ _ He1) as Te1.
  pose proof (timeOfDay_total _ _ Hs2) as Ts2.
  pose proof (timeOfDay_total _ _ He2) as Te2.
  destruct Hs1 as [Rs1 _], He1 as [Re1 _], Hs2 as [Rs2 _], He2 as [Re2 _].
  unfold findTimeSlotOverlap.
  set (overlapStart := maxTime _ _). set (overlapEnd := minTime _ _).
  assert (totalMinutes overlapStart = Int (Z.max s1 s2)) as Hlo.
  { unfold overlapStart, maxTime, ge, le. rewrite Ts1, Ts2.
    destruct (Z.leb_spec s2 s1); [rewrite Ts1|rewrite Ts2]; f_equal; lia. }
  assert (totalMinutes overlapEnd = Int (Z.min e1 e2)) as Hhi.
  { unfold overlapEnd, minTime, le. rewrite Te1, Te2.
    destruct (Z.leb_spec e1 e2); [rewrite Te1|rewrite Te2]; f_equal; lia. }
  assert (timeDifference overlapStart overlapEnd = Int (Z.min e1 e2 - Z.max s1 s2)) as ->.
  { unfold timeDifference, lt. rewrite Hlo, Hhi.
    by rewrite (proj2 (Z.ltb_ge _ _)) by lia. }
  unfold lt at 1. destruct (Z.ltb_spec (Z.min e1 e2 - Z.max s1 s2) d) as [Hshort|Hlong].
  { exists []. repeat split; [constructor|lia]. }
  cbn [sub floorDiv max min loopFuel].
  set (slack := Z.min e1 e2 - Z.max s1 s2 - d).
  destruct (slotLoop_fits (ts_date slot1) overlapStart overlapEnd
              (Z.max s1 s2) (Z.min e1 e2) d slack
              (Z.min 15 (Z.max 1 (slack / 4))) Hlo Hhi
              ltac:(lia) eq_refl Hd ltac:(lia) (Z.to_nat (slack + 1)) 0 ltac:(lia))
    as (slots & -> & Hfit & Hne).
  cbn [mbind option_bind].
  assert (slots ≠ []) as Hslots by (apply Hne; unfold slack; lia).
  destruct slots as [|slot slots]; [done|].
  exists (slot :: slots). done.
Qed.

(** C2, at two windows of one day that do not meet: candidate 09:00-10:00,
    interviewer 11:00-12:00, 60 minutes.  [timeDifference] reads the
    inverted "overlap" from 11:00 to 10:00 as a span across midnight of
    1380 minutes, and the first slot returned, 23:00-00:00, lies in neither
    window. *)
Theorem findTimeSlotOverlap_disjoint_windows :
  ∃ rest,
    findTimeSlotOverlap window0910 window1112 60
    = Some (mkTimeSlot "2024-01-10" "23:00" "00:00" :: rest)
    ∧ length rest = 40%nat
    ∧ timeDifference (maxTime (parseTime "09:00") (parseTime "11:00"))
                     (minTime (parseTime "10:00") (parseTime "12:00")) = Int 1380.
Proof.
  eexists. split; [vm_compute; reflexivity|].
  split; vm_compute; reflexivity.
Qed.

(** ** The loop of the overlap finder terminates by its own test *)

Lemma slotLoop_fuel date overlapStart overlapEnd d slack step extra fuel offset :
  1 ≤ step → (Z.to_nat (slack - offset + 1) ≤ fuel)%nat →
  slotLoop date overlapStart overlapEnd d (Int slack) (Int step) (fuel + extra)
    (Int offset)
  = slotLoop date overlapStart overlapEnd d (Int slack) (Int step) fuel (Int offset).
Proof.
  intros Hstep. revert offset. induction fuel as [|fuel IH]; intros offset Hfuel.
  - destruct extra as [|extra]; [done|]. cbn [Nat.add slotLoop]. unfold le.
    by rewrite (proj2 (Z.leb_gt _ _)) by lia.
  - cbn [Nat.add slotLoop]. unfold le at 1 3.
    destruct (Z.leb_spec offset slack); [|done].
    cbn [add]. by rewrite IH by lia.
Qed.

(** More fuel than [loopFuel] gives never changes the result: the loop of
    [findTimeSlotOverlap] always ends because [offset] has passed
    [availableDuration]. *)
Lemma slotLoop_enough_fuel date overlapStart overlapEnd d availableDuration extra :
  slotLoop date overlapStart overlapEnd d availableDuration
    (min (Int 15) (max (Int 1) (floorDiv availableDuration 4)))
    (loopFuel availableDuration + extra) (Int 0)
  = slotLoop date overlapStart overlapEnd d availableDuration
      (min (Int 15) (max (Int 1) (floorDiv availableDuration 4)))
      (loopFuel availableDuration) (Int 0).
Proof.
  destruct availableDuration as [|slack].
  - by destruct extra.
  - cbn [floorDiv max min loopFuel]. apply slotLoop_fuel; lia.
Qed.

(** ** The assigner *)

Lemma forOf_inv {S A} (P : S → Prop) (body : S → A → option S) xs :
  (∀ st x st', P st → body st x = Some st' → P st') →
  ∀ st st', P st → forOf body st xs = Some st' → P st'.
Proof.
  intros Hstep. induction xs as [|x xs IH]; simpl; intros st st' HP H.
  - by simplify_eq.
  - destruct (body st x) as [st1|] eqn:E; simpl in H; [|done]. eauto.
Qed.

Lemma proposedOf_assignTo users interviewerId slot :
  proposedOf (assignTo users interviewerId slot) = proposedOf slot.
Proof. reflexivity. Qed.

Lemma noDoubleBooking_snoc buffer used new :
  noDoubleBooking buffer used →
  (∀ existing, existing ∈ used → ¬ slotsConflict buffer new existing) →
  noDoubleBooking buffer (used ++ [new]).
Proof.
  intros Hused Hnew i j earlier later Hij Hi Hj.
  destruct (decide (j < length used)%nat) as [Hlt|Hge].
  - rewrite lookup_app_l in Hi, Hj by lia. eauto.
  - pose proof (lookup_lt_Some _ _ _ Hj) as Hlen.
    rewrite length_app in Hlen. simpl in Hlen.
    assert (j = length used) as -> by lia.
    rewrite lookup_app_l in Hi by lia.
    rewrite list_lookup_middle in Hj by done. simplify_eq.
    apply Hnew. by eapply list_elem_of_lookup_2.
Qed.

Lemma accept_inv buffer users interviewerId st slot :
  assignInv buffer st →
  hasCandidateTimeConflict (proposedOf slot) st.2 buffer = false →
  assignInv buffer (accept users interviewerId st slot).
Proof.
  intros [Hused Hok] Hfree. split; simpl.
  - by rewrite Hused, map_app.
  - apply noDoubleBooking_snoc; [done|].
    intros existing Hin Hc.
    assert (hasCandidateTimeConflict (proposedOf slot) st.2 buffer = true) as Ht
      by (apply hasCandidateTimeConflict_spec; eauto).
    congruence.
Qed.

Lemma pass1Step_inv cand imap options users st interviewerId st' :
  assignInv (orElse (bufferTime options) 15) st →
  pass1Step cand imap options users st interviewerId = Some st' →
  assignInv (orElse (bufferTime options) 15) st'.
Proof.
  intros Hinv H. unfold pass1Step in H.
  destruct (findOverlappingSlots _ _ _) as [slots|]; simpl in H; [|done].
  destruct (List.find _ slots) as [slot|] eqn:F; simplify_eq; [|done].
  apply find_some in F as [_ F]. apply negb_true_iff in F.
  by apply accept_inv.
Qed.



Lemma pass1Step_accepts cand imap options users :
  acceptsAtMostOne cand imap options users (pass1Step cand imap options users).
Proof.
  intros st id st' H. unfold pass1Step in H.
  destruct (findOverlappingSlots _ _ _) as [slots|]; simpl in H; [|done].
  destruct (List.find _ slots) as [slot|] eqn:F; simplify_eq; [|by left].
  right. exists slots, slot. apply find_some in F as [F _].
  by rewrite <- list_elem_of_In in F.
Qed.

Lemma pass2Step_accepts cand imap options users :
  acceptsAtMostOne cand imap options users (pass2Step cand imap options users).
Proof.
  intros st id st' H. unfold pass2Step in H.
  destruct (findOverlappingSlots _ _ _) as [slots|]; simpl in H; [|done].
  destruct (List.find _ slots) as [slot|] eqn:F; simplify_eq; [|by left].
  right. exists slots, slot. apply find_some in F as [F _].
  by rewrite <- list_elem_of_In in F.
Qed.

(** A pass appends its successes, in the order of the ids it walks. *)
Lemma forOf_appends cand imap options users body ids :
  acceptsAtMostOne cand imap options users body →
  ∀ st st', forOf body st ids = Some st' →
  ∃ new, st'.1 = st.1 ++ new
         ∧ sublist (map interviewer_id new) (map Some ids).
Proof.
  intros Hbody. induction ids as [|id ids IH]; simpl; intros st st' H.
  - simplify_eq. exists []. by rewrite app_nil_r.
  - destruct (body st id) as [st1|] eqn:E; simpl in H; [|done].
    destruct (IH _ _ H) as (new & Hnew & Hsub).
    destruct (Hbody _ _ _ E) as [->|(slots & slot & _ & _ & ->)].
    + exists new. split; [done|]. by apply sublist_cons.
    + exists (assignTo users id slot :: new). split.
      * rewrite Hnew. simpl. by rewrite <- app_assoc.
      * simpl. by apply sublist_skip.
Qed.

Lemma map_fst_mapPush {V} k (v : V) m :
  map fst (mapPush k v m) = setAdd (map fst m) k.
Proof.
  unfold setAdd. induction m as [|[k' vs] m IH]; simpl; [done|].
  destruct (decide (k' = k)) as [->|Hne].
  - rewrite (bool_decide_eq_true_2 (k = k)) by done.
    rewrite bool_decide_eq_true_2; [done|]. apply list_elem_of_here.
  - rewrite (bool_decide_eq_false_2 (k' = k)) by done. simpl. rewrite IH.
    destruct (decide (k ∈ map fst m)) as [Hin|Hnin].
    + rewrite (bool_decide_eq_true_2 _ Hin).
      rewrite bool_decide_eq_true_2; [done|]. by apply list_elem_of_further.
    + rewrite (bool_decide_eq_false_2 _ Hnin).
      rewrite bool_decide_eq_false_2; [done|].
      rewrite elem_of_cons. intros [Heq|Hin]; [by apply Hne|done].
Qed.

Lemma interviewerIds_encounterOrder ivs :
  map fst (interviewerMapOf ivs) = encounterOrder ivs.
Proof.
  unfold interviewerMapOf, encounterOrder.
  change (@nil string) with (map fst (@nil (string * list (Availability TimeSlot)))).
  generalize (@nil (string * list (Availability TimeSlot))).
  induction ivs as [|av ivs IH]; intros m; simpl; [done|].
  by rewrite IH, map_fst_mapPush.
Qed.

Lemma setAdd_NoDup s x : NoDup s → NoDup (setAdd s x).
Proof.
  intros H. unfold setAdd. case_bool_decide; [done|].
  apply NoDup_app. split; [done|]. split; [|apply NoDup_singleton].
  intros y Hy Hy'. apply list_elem_of_singleton in Hy'. by subst.
Qed.

Lemma encounterOrder_NoDup ivs : NoDup (encounterOrder ivs).
Proof.
  unfold encounterOrder. generalize (NoDup_nil_2 (A:=string)).
  generalize (@nil string).
  induction (map user_id ivs) as [|x xs IH]; intros s Hs; simpl; [done|].
  apply IH. by apply setAdd_NoDup.
Qed.

Lemma sublist_map_Some (l1 l2 : list string) :
  sublist l1 l2 → sublist (map Some l1) (map Some l2).
Proof. induction 1; simpl; by constructor. Qed.

Lemma NoDup_map_Some (l : list string) : NoDup l → NoDup (map Some l).
Proof.
  induction 1 as [|x l Hx Hl IH]; simpl; constructor; [|done].
  intros Hin. apply list_elem_of_In, in_map_iff in Hin as (y & [= ->] & Hy).
  by apply Hx, list_elem_of_In.
Qed.

Lemma sublist_elem_of {A} (l1 l2 : list A) x : sublist l1 l2 → x ∈ l1 → x ∈ l2.
Proof.
  induction 1; intros Hx; [done| |].
  - apply elem_of_cons in Hx as [->|Hx]; [apply list_elem_of_here|].
    by apply list_elem_of_further, IHsublist.
  - by apply list_elem_of_further, IHsublist.
Qed.

(** C3. The list the assigner returns is the successes of pass 1 followed
    by the successes of pass 2, never interleaved; within each pass the
    interviewers appear in the order in which they are first met in the
    input; and no interviewer appears twice. *)
Theorem assigner_output_order cand ivs options users found :
  findIndividualInterviews cand ivs options users = Some found →
  ∃ pass1 used pass2,
    forOf (pass1Step cand (interviewerMapOf ivs) options users) ([], [])
      (encounterOrder ivs) = Some (pass1, used)
    ∧ found = pass1 ++ pass2
    ∧ sublist (map interviewer_id pass1) (map Some (encounterOrder ivs))
    ∧ sublist (map interviewer_id pass2) (map Some (encounterOrder ivs))
    ∧ (∀ m, m ∈ pass2 → interviewer_id m ∉ map interviewer_id pass1)
    ∧ NoDup (map interviewer_id found).
Proof.
  unfold findIndividualInterviews. rewrite interviewerIds_encounterOrder.
  intros H.
  destruct (forOf (pass1Step _ _ _ _) _ _) as [[pass1 used]|] eqn:E1;
    simpl in H; [|done].
  destruct (forOf (pass2Step _ _ _ _) _ _) as [st2|] eqn:E2; simpl in H; [|done].
  simplify_eq.
  destruct (forOf_appends _ _ _ _ _ _ (pass1Step_accepts cand _ options users) _ _ E1)
    as (new1 & Hnew1 & Hsub1).
  destruct (forOf_appends _ _ _ _ _ _ (pass2Step_accepts cand _ options users) _ _ E2)
    as (new2 & Hnew2 & Hsub2).
  simpl in Hnew1, Hnew2. subst pass1.
  assert (sublist (map interviewer_id new2) (map Some (encounterOrder ivs))) as Hsub2'.
  { etrans; [exact Hsub2|]. apply sublist_map_Some, sublist_filter. }
  assert (∀ m, m ∈ new2 → interviewer_id m ∉ map interviewer_id new1) as Hfresh.
  { intros m Hm.
    assert (interviewer_id m ∈ map Some (unscheduledOf (encounterOrder ivs) new1)) as Hin.
    { eapply sublist_elem_of; [exact Hsub2|].
      apply list_elem_of_In, in_map, list_elem_of_In, Hm. }
    apply list_elem_of_In, in_map_iff in Hin as (id & <- & Hid).
    apply list_elem_of_In in Hid. unfold unscheduledOf in Hid.
    by apply list_elem_of_filter in Hid as [Hid _]. }
  exists new1, used, new2. repeat split; try done.
  rewrite Hnew2, map_app. apply NoDup_app. repeat split.
  - eapply sublist_NoDup; [|exact Hsub1].
    apply NoDup_map_Some, encounterOrder_NoDup.
  - intros x Hx Hx'.
    apply list_elem_of_In, in_map_iff in Hx' as (m & <- & Hm).
    by apply (Hfresh m); [apply list_elem_of_In|].
  - eapply sublist_NoDup; [|exact Hsub2'].
    apply NoDup_map_Some, encounterOrder_NoDup.
Qed.

Lemma assigner_output_order_witness :
  ∃ pass1 used pass2,
    forOf (pass1Step oneCandidate (interviewerMapOf [interviewer1; interviewer2])
             options3015 None) ([], [])
      (encounterOrder [interviewer1; interviewer2]) = Some (pass1, used)
    ∧ [interview1] = pass1 ++ pass2
    ∧ sublist (map interviewer_id pass1)
        (map Some (encounterOrder [interviewer1; interviewer2]))
    ∧ sublist (map interviewer_id pass2)
        (map Some (encounterOrder [interviewer1; interviewer2]))
    ∧ (∀ m, m ∈ pass2 → interviewer_id m ∉ map interviewer_id pass1)
    ∧ NoDup (map interviewer_id [interview1]).
Proof.
  apply (assigner_output_order oneCandidate [interviewer1; interviewer2]
           options3015 None [interview1]).
  vm_compute. reflexivity.
Defined.

(** C5. Two interviewers and the candidate all offer exactly 2024-01-10
    09:00-10:00, duration 30, buffer 15.  Interviewer 1 is placed at
    09:00-09:30, the first generated slot.  Interviewer 2 would get the
    first generated slot that starts at 09:45 or later; the generated
    starts are 09:00, 09:07, 09:14, 09:21 and 09:28, none of them clears
    the buffer, and interviewer 2 is omitted, from the assigner's list and
    from the response of [findOptimalSchedule]. *)
Theorem two_identical_interviewers :
  ∃ generated,
    findOverlappingSlots oneCandidate [interviewer2] options3015 = Some generated
    ∧ map m_startTime generated = ["09:00"; "09:07"; "09:14"; "09:21"; "09:28"]
    ∧ findIndividualInterviews oneCandidate [interviewer1; interviewer2]
        options3015 None
      = Some (interview1 ::
              match List.find clearsBuffer generated with
              | Some slot => [assignTo None "interviewer-2" slot]
              | None => []
              end)
    ∧ List.find clearsBuffer generated = None
    ∧ findIndividualInterviews oneCandidate [interviewer1; interviewer2]
        options3015 None = Some [interview1]
    ∧ individual_interviews
        (findOptimalSchedule "2024-01-10" utcCollaborators requestIdentical
           buffer15 heapIdentical).2
      = Some [interviewReportOf interview1 "2024-01-10T09:00:00.000Z"].
Proof.
  eexists. split; [vm_compute; reflexivity|].
  repeat split; vm_compute; reflexivity.
Qed.

(** ** Pass 2 finds nothing that pass 1 did not *)

Lemma hasCandidateTimeConflict_more proposed used extra buffer :
  hasCandidateTimeConflict proposed used buffer = true →
  hasCandidateTimeConflict proposed (used ++ extra) buffer = true.
Proof.
  rewrite !hasCandidateTimeConflict_existsb, existsb_app. intros ->. done.
Qed.

Lemma allTaken_more cand imap options used extra interviewerId :
  allTaken cand imap options used interviewerId →
  allTaken cand imap options (used ++ extra) interviewerId.
Proof.
  intros H slots slot Hslots Hslot.
  by eapply hasCandidateTimeConflict_more, H.
Qed.

Lemma forOf_grows cand imap options users body ids :
  acceptsAtMostOne cand imap options users body →
  ∀ st st', forOf body st ids = Some st' →
            ∃ new extra, st'.1 = st.1 ++ new ∧ st'.2 = st.2 ++ extra.
Proof.
  intros Hbody. induction ids as [|id ids IH]; cbn; intros st st' H.
  - simplify_eq. exists [], []. by rewrite !app_nil_r.
  - destruct (body st id) as [st1|] eqn:E; cbn in H; [|done].
    destruct (IH _ _ H) as (new & extra & Hn & He).
    destruct (Hbody _ _ _ E) as [->|(slots & slot & _ & _ & ->)]; [eauto|].
    cbn in Hn, He. rewrite <- app_assoc in Hn, He. eauto.
Qed.

(** After pass 1 an interviewer is scheduled, or every slot found for
    that interviewer is taken. *)
Lemma pass1_scheduled_or_taken cand imap options users ids :
  ∀ st st',
    forOf (pass1Step cand imap options users) st ids = Some st' →
    ∀ id, id ∈ ids →
      Some id ∈ map interviewer_id st'.1 ∨ allTaken cand imap options st'.2 id.
Proof.
  induction ids as [|id0 ids IH]; cbn; intros st st' H id Hid.
  { by apply elem_of_nil in Hid. }
  destruct (pass1Step cand imap options users st id0) as [st1|] eqn:E;
    cbn in H; [|done].
  apply elem_of_cons in Hid as [->|Hid]; [|by eapply IH].
  destruct (forOf_grows _ _ _ _ _ _ (pass1Step_accepts cand imap options users) _ _ H)
    as (new & extra & Hn & He).
  unfold pass1Step in E.
  destruct (findOverlappingSlots _ _ _) as [slots|] eqn:Hs; cbn in E; [|done].
  destruct (List.find _ slots) as [slot|] eqn:F; simplify_eq.
  - left. rewrite Hn. cbn. rewrite !map_app. cbn.
    apply elem_of_app. left. apply elem_of_app. right. apply list_elem_of_here.
  - right. rewrite He. apply allTaken_more.
    intros slots' slot' Hs' Hslot'. simplify_eq.
    apply list_elem_of_In in Hslot'.
    pose proof (find_none _ _ F _ Hslot') as Hc. cbv beta in Hc.
    by apply negb_false_iff in Hc.
Qed.

Lemma pass2_nothing cand imap options users ids :
  ∀ st,
    st.2 = map proposedOf st.1 →
    (∀ id, id ∈ ids → allTaken cand imap options st.2 id) →
    ∀ st', forOf (pass2Step cand imap options users) st ids = Some st' → st' = st.
Proof.
  induction ids as [|id ids IH]; cbn; intros st Hused Htaken st' H.
  { by simplify_eq. }
  destruct (pass2Step cand imap options users st id) as [st1|] eqn:E;
    cbn in H; [|done].
  assert (st1 = st) as ->; [|apply IH; [done| |done]].
  2:{ intros. by apply Htaken, list_elem_of_further. }
  unfold pass2Step in E.
  destruct (findOverlappingSlots _ _ _) as [slots|] eqn:Hs; cbn in E; [|done].
  destruct (List.find _ slots) as [slot|] eqn:F; simplify_eq; [|done].
  apply find_some in F as [Hin F]. apply negb_true_iff in F.
  rewrite <- pass_checks_equal, <- Hused in F.
  rewrite (Htaken id (list_elem_of_here _ _) slots slot Hs) in F; [done|].
  by apply list_elem_of_In.
Qed.

(** The list the assigner returns is the list pass 1 has built: an
    interviewer left out by pass 1 is left out by pass 2 as well, because
    both passes test the same slots against a list that only grows. *)
Lemma findIndividualInterviews_is_pass1 cand ivs options users found :
  findIndividualInterviews cand ivs options users = Some found →
  ∃ used,
    forOf (pass1Step cand (interviewerMapOf ivs) options users) ([], [])
      (encounterOrder ivs) = Some (found, used).
Proof.
  unfold findIndividualInterviews. rewrite interviewerIds_encounterOrder.
  intros H.
  destruct (forOf (pass1Step _ _ _ _) _ _) as [st1|] eqn:E1; simpl in H; [|done].
  destruct (forOf (pass2Step _ _ _ _) _ _) as [st2|] eqn:E2; simpl in H; [|done].
  simplify_eq.
  assert (assignInv (orElse (bufferTime options) 15) st1) as [I1 _].
  { eapply (forOf_inv _ _ _ (pass1Step_inv cand _ options users)); [|exact E1].
    split; [done|]. intros i j ? ? _ Hi. simpl in Hi. by rewrite lookup_nil in Hi. }
  assert (st2 = st1) as ->.
  { eapply (pass2_nothing _ _ _ _ _ st1 I1); [|exact E2].
    intros id Hid. unfold unscheduledOf in Hid.
    apply list_elem_of_filter in Hid as [Hnot Hid].
    by destruct (pass1_scheduled_or_taken _ _ _ _ _ _ _ E1 id Hid). }
  exists st1.2. by destruct st1.
Qed.

(** ** Where the assigned dates come from, and when nothing is assigned *)

Lemma mapM_concat_elem {A B} (f : A → option (list B)) xs rs y :
  mapM f xs = Some rs → y ∈ concat rs → ∃ x r, x ∈ xs ∧ f x = Some r ∧ y ∈ r.
Proof.
  revert rs. induction xs as [|x xs IH]; intros rs H Hy; cbn [mapM] in H.
  - injection H as <-. cbn in Hy. by apply elem_of_nil in Hy.
  - destruct (f x) as [r|] eqn:E; [|done]. cbn in H.
    destruct (mapM f xs) as [rs'|]; [|done]. injection H as <-.
    cbn in Hy. apply elem_of_app in Hy as [Hy|Hy].
    + exists x, r. split; [apply list_elem_of_here|done].
    + destruct (IH rs' eq_refl Hy) as (x' & r' & ? & ? & ?).
      exists x', r'. split; [by apply list_elem_of_further|done].
Qed.

Lemma mapM_all_nil {A B} (f : A → option (list B)) xs :
  (∀ x, x ∈ xs → f x = Some []) → ∃ rs, mapM f xs = Some rs ∧ concat rs = [].
Proof.
  induction xs as [|x xs IH]; intros Hf; cbn [mapM].
  - by exists [].
  - rewrite (Hf x) by apply list_elem_of_here. cbn.
    destruct IH as (rs & -> & Hrs); [intros; by apply Hf, list_elem_of_further|].
    cbn. by exists ([] :: rs).
Qed.

Lemma findOverlappingSlots_dateFrom cand avs options slots m :
  findOverlappingSlots cand avs options = Some slots → m ∈ slots → dateFrom avs m.
Proof.
  unfold findOverlappingSlots. intros H Hm.
  destruct (mapM _ avs) as [perAvail|] eqn:E1; [|done]. cbn in H. simplify_eq.
  destruct (mapM_concat_elem _ _ _ _ E1 Hm) as (avail & r & Hav & Hr & Hm1).
  unfold overlapsOfAvailability in Hr.
  destruct (mapM _ (time_slots avail)) as [perSlot|] eqn:E2; [|done].
  cbn in Hr. simplify_eq.
  destruct (mapM_concat_elem _ _ _ _ E2 Hm1) as (slot & r & Hslot & Hr & Hm2).
  exists avail, slot. repeat split; [done..|].
  unfold overlapsOfSlot in Hr.
  destruct (candidateMapOf cand !! ts_date slot) as [cs|];
    [|simplify_eq; by apply elem_of_nil in Hm2].
  destruct (mapM _ cs) as [perCandidate|] eqn:E3; [|done].
  cbn in Hr. simplify_eq.
  destruct (mapM_concat_elem _ _ _ _ E3 Hm2) as (c & r & _ & Hr & Hm3).
  destruct (findTimeSlotOverlap slot c (duration options)) as [overlaps|]; [|done].
  cbn in Hr. simplify_eq.
  apply list_elem_of_In, in_map_iff in Hm3 as (o & <- & _). done.
Qed.

Lemma findOverlappingSlots_single cand avail options :
  findOverlappingSlots cand [avail] options
  = overlapsOfAvailability (candidateMapOf cand) options avail.
Proof.
  unfold findOverlappingSlots. cbn [mapM].
  destruct (overlapsOfAvailability _ _ _) as [r|]; [|done].
  cbn. by rewrite app_nil_r.
Qed.

Lemma findOverlappingSlots_nil cand avs options :
  (∀ avail, avail ∈ avs → findOverlappingSlots cand [avail] options = Some []) →
  findOverlappingSlots cand avs options = Some [].
Proof.
  intros H. unfold findOverlappingSlots.
  destruct (mapM_all_nil (overlapsOfAvailability (candidateMapOf cand) options) avs)
    as (rs & -> & Hrs).
  - intros avail Hav. rewrite <- findOverlappingSlots_single. by apply H.
  - cbn. by rewrite Hrs.
Qed.

Lemma mapGet_mapPush {V} k k' (v : V) m x :
  x ∈ mapGet k (mapPush k' v m) → x = v ∨ x ∈ mapGet k m.
Proof.
  induction m as [|[k0 vs] m IH]; cbn.
  - case_bool_decide; intros Hx; [|by apply elem_of_nil in Hx].
    apply list_elem_of_singleton in Hx. by left.
  - destruct (decide (k0 = k')) as [->|Hne].
    + rewrite (bool_decide_eq_true_2 (k' = k')) by done. cbn.
      case_bool_decide; [|by right].
      intros Hx. apply elem_of_app in Hx as [Hx|Hx]; [by right|].
      apply list_elem_of_singleton in Hx. by left.
    + rewrite (bool_decide_eq_false_2 (k0 = k')) by done. cbn.
      case_bool_decide; [by right|done].
Qed.

Lemma mapGet_interviewerMapOf ivs interviewerId avail :
  avail ∈ mapGet interviewerId (interviewerMapOf ivs) → avail ∈ ivs.
Proof.
  unfold interviewerMapOf.
  assert (∀ m, avail ∈ mapGet interviewerId
                 (foldl (λ m a, mapPush (user_id a) a m) m ivs) →
               avail ∈ ivs ∨ avail ∈ mapGet interviewerId m) as G.
  { induction ivs as [|a ivs IH]; intros m Hin; cbn in Hin; [by right|].
    destruct (IH _ Hin) as [?|Hm]; [left; by apply list_elem_of_further|].
    apply mapGet_mapPush in Hm as [->|?]; [left; apply list_elem_of_here|by right]. }
  intros Hin. destruct (G [] Hin) as [?|Hnil]; [done|].
  by apply elem_of_nil in Hnil.
Qed.

Lemma dateFrom_subset avs ivs m :
  (∀ avail, avail ∈ avs → avail ∈ ivs) → dateFrom avs m → dateFrom ivs m.
Proof. intros Hsub (avail & slot & ? & ? & ?). exists avail, slot. eauto. Qed.

Lemma forOf_dateFrom cand ivs options users body ids :
  acceptsAtMostOne cand (interviewerMapOf ivs) options users body →
  ∀ st st', Forall (dateFrom ivs) st.1 → forOf body st ids = Some st' →
            Forall (dateFrom ivs) st'.1.
Proof.
  intros Hbody. apply forOf_inv. intros st id st' Hst H.
  destruct (Hbody _ _ _ H) as [->|(slots & slot & Hslots & Hslot & ->)]; [done|].
  cbn. apply Forall_app. split; [done|]. constructor; [|constructor].
  eapply dateFrom_subset; [intros avail; apply mapGet_interviewerMapOf|].
  by eapply (findOverlappingSlots_dateFrom _ _ _ _ slot Hslots).
Qed.

Lemma findIndividualInterviews_dateFrom cand ivs options users found :
  findIndividualInterviews cand ivs options users = Some found →
  Forall (dateFrom ivs) found.
Proof.
  unfold findIndividualInterviews. intros H.
  destruct (forOf (pass1Step _ _ _ _) _ _) as [st1|] eqn:E1; simpl in H; [|done].
  destruct (forOf (pass2Step _ _ _ _) _ _) as [st2|] eqn:E2; simpl in H; [|done].
  simplify_eq.
  eapply (forOf_dateFrom _ _ _ _ _ _ (pass2Step_accepts cand _ options users));
    [|exact E2].
  eapply (forOf_dateFrom _ _ _ _ _ _ (pass1Step_accepts cand _ options users));
    [|exact E1].
  constructor.
Qed.

Lemma forOf_nothing_found cand imap options users body ids :
  acceptsAtMostOne cand imap options users body →
  (∀ st id, is_Some (body st id)) →
  (∀ id, findOverlappingSlots cand (mapGet id imap) options = Some []) →
  ∀ st, forOf body st ids = Some st.
Proof.
  intros Hbody Htotal Hnone. induction ids as [|id ids IH]; intros st; [done|].
  cbn. destruct (Htotal st id) as [st' E]. rewrite E. cbn.
  destruct (Hbody _ _ _ E) as [->|(slots & slot & Hslots & Hslot & _)]; [done|].
  rewrite Hnone in Hslots. simplify_eq. by apply elem_of_nil in Hslot.
Qed.

(** If no availability record of any interviewer has a feasible slot with
    the candidate, the assigner returns the empty list. *)
Lemma findIndividualInterviews_nothing cand ivs options users :
  (∀ avail, avail ∈ ivs → findOverlappingSlots cand [avail] options = Some []) →
  findIndividualInterviews cand ivs options users = Some [].
Proof.
  intros Hnone.
  assert (∀ id, findOverlappingSlots cand (mapGet id (interviewerMapOf ivs)) options
                = Some []) as Hid.
  { intros id. apply findOverlappingSlots_nil. intros avail Hav.
    by apply Hnone, (mapGet_interviewerMapOf _ id). }
  unfold findIndividualInterviews.
  rewrite (forOf_nothing_found cand (interviewerMapOf ivs) options users);
    [|apply pass1Step_accepts| |done].
  2:{ intros st id. unfold pass1Step. rewrite Hid. by eexists. }
  cbn. rewrite (forOf_nothing_found cand (interviewerMapOf ivs) options users);
    [done|apply pass2Step_accepts| |done].
  intros st id. unfold pass2Step. rewrite Hid. by eexists.
Qed.

(** ** No common date, no feasible slot *)

Lemma candidateMapOf_no_date cand date :
  (∀ avail slot, avail ∈ cand → slot ∈ time_slots avail → ts_date slot ≠ date) →
  candidateMapOf cand !! date = None.
Proof.
  intros H. unfold candidateMapOf.
  assert (∀ slot, slot ∈ concat (map time_slots cand) → ts_date slot ≠ date) as Hs.
  { intros slot Hin. apply elem_of_concat in Hin as (l & Hl & Hin).
    apply list_elem_of_In, in_map_iff in Hl as (avail & <- & Hav).
    apply (H avail); [by apply list_elem_of_In|done]. }
  clear H. revert Hs.
  generalize (lookup_empty (M:=gmap string) (A:=list TimeSlot) date).
  generalize (∅ : gmap string (list TimeSlot)).
  induction (concat (map time_slots cand)) as [|slot slots IH]; intros m Hm Hs; [done|].
  cbn. apply IH.
  - rewrite lookup_insert_ne; [done|]. apply Hs, list_elem_of_here.
  - intros. by apply Hs, list_elem_of_further.
Qed.

(** When no slot of the interviewer shares its date with a slot of the
    candidate, the interviewer has no feasible slot. *)
Lemma findOverlappingSlots_no_common_date cand avail options :
  (∀ slot a c, slot ∈ time_slots avail → a ∈ cand → c ∈ time_slots a →
               ts_date c ≠ ts_date slot) →
  findOverlappingSlots cand [avail] options = Some [].
Proof.
  intros H. rewrite findOverlappingSlots_single. unfold overlapsOfAvailability.
  destruct (mapM_all_nil (overlapsOfSlot (candidateMapOf cand) options)
              (time_slots avail)) as (rs & -> & Hrs).
  - intros slot Hslot. unfold overlapsOfSlot.
    rewrite candidateMapOf_no_date; [done|]. intros a c. by apply H.
  - cbn. by rewrite Hrs.
Qed.

(** ** The assigner returns *)

Lemma parseTime_minutes s :
  includes ":" s = true → is_Some (minutes (parseTime s)).
Proof.
  intros H. unfold parseTime. cbn [minutes].
  assert (∃ p q ps, split ":" s = p :: q :: ps) as (p & q & ps & ->);
    [|by eexists].
  induction s as [|c s IH]; [done|].
  cbn [includes] in H. cbn [split].
  destruct (Ascii.eqb c ":") eqn:E.
  - destruct s as [|c' s']; [by eexists _, _, _|].
    cbn [split]. destruct (Ascii.eqb c' ":"); [by eexists _, _, _|].
    destruct (split ":" s'); by eexists _, _, _.
  - destruct (IH H) as (p & q & ps & ->). by eexists _, _, _.
Qed.

Lemma formatTime_minutesToTime_Some total : is_Some (formatTime (minutesToTime total)).
Proof. by eexists. Qed.

Lemma addMinutesToTime_Some s d : is_Some (addMinutesToTime s d).
Proof. apply formatTime_minutesToTime_Some. Qed.

Lemma slotLoop_Some date overlapStart overlapEnd d slack step fuel offset :
  is_Some (slotLoop date overlapStart overlapEnd d slack step fuel offset).
Proof.
  revert offset. induction fuel as [|fuel IH]; intros offset; [by eexists|].
  cbn [slotLoop]. destruct (le offset slack); [|by eexists].
  destruct (formatTime_minutesToTime_Some (add (totalMinutes overlapStart) offset))
    as [s ->].
  rewrite option_bind_some.
  destruct (addMinutesToTime_Some s d) as [e ->]. rewrite option_bind_some.
  destruct (IH (add offset step)) as [rest ->]. by eexists.
Qed.

(** [findTimeSlotOverlap] throws only on a start time without a colon. *)
Lemma findTimeSlotOverlap_Some slot1 slot2 d :
  includes ":" (ts_start slot1) = true → includes ":" (ts_start slot2) = true →
  is_Some (findTimeSlotOverlap slot1 slot2 d).
Proof.
  intros H1 H2. unfold findTimeSlotOverlap.
  destruct (lt _ _); [by eexists|].
  match goal with |- context [slotLoop ?a ?b ?c ?d ?e ?f ?g ?h] =>
    destruct (slotLoop_Some a b c d e f g h) as [slots ->] end.
  rewrite option_bind_some.
  destruct slots; [|by eexists].
  assert (is_Some (formatTime (maxTime (parseTime (ts_start slot1))
                                       (parseTime (ts_start slot2))))) as [s ->].
  { unfold maxTime. destruct (ge _ _); unfold formatTime.
    - destruct (parseTime_minutes _ H1) as [m ->]. by eexists.
    - destruct (parseTime_minutes _ H2) as [m ->]. by eexists. }
  rewrite option_bind_some.
  destruct (addMinutesToTime_Some s d) as [e ->]. by eexists.
Qed.

Lemma candidateMapOf_slots cand date slots c :
  candidateMapOf cand !! date = Some slots → c ∈ slots →
  ∃ avail, avail ∈ cand ∧ c ∈ time_slots avail.
Proof.
  unfold candidateMapOf. intros Hm Hc.
  assert (c ∈ concat (map time_slots cand)) as Hin.
  2:{ apply elem_of_concat in Hin as (l & Hl & Hin).
      apply list_elem_of_In, in_map_iff in Hl as (avail & <- & Hav).
      exists avail. by rewrite list_elem_of_In. }
  revert Hm.
  assert (∀ d cs, (∅ : gmap string (list TimeSlot)) !! d = Some cs →
                  ∀ x, x ∈ cs → x ∈ concat (map time_slots cand)) as Hinit
    by (intros d cs H; by rewrite lookup_empty in H).
  revert Hinit. generalize (∅ : gmap string (list TimeSlot)).
  assert (∀ x, x ∈ concat (map time_slots cand) → x ∈ concat (map time_slots cand))
    as Hall by done.
  revert Hall.
  generalize (concat (map time_slots cand)) at 1 4.
  intros L. induction L as [|slot L IH]; intros Hall m Hinv Hm; cbn in Hm.
  { by eapply Hinv. }
  eapply (IH (λ x Hx, Hall x (list_elem_of_further _ _ _ Hx))); [|exact Hm].
  intros d cs Hd x Hx.
  destruct (decide (ts_date slot = d)) as [<-|Hne].
  - rewrite lookup_insert_eq in Hd. injection Hd as <-.
    apply elem_of_app in Hx as [Hx|Hx].
    + destruct (m !! ts_date slot) as [old|] eqn:E; [by eapply Hinv|].
      by apply elem_of_nil in Hx.
    + apply list_elem_of_singleton in Hx as ->. apply Hall, list_elem_of_here.
  - rewrite lookup_insert_ne in Hd by done. by eapply Hinv.
Qed.

Lemma findOverlappingSlots_Some cand avs options :
  startsHaveColon cand → startsHaveColon avs →
  is_Some (findOverlappingSlots cand avs options).
Proof.
  intros Hc Ha. unfold findOverlappingSlots.
  assert (is_Some (mapM (overlapsOfAvailability (candidateMapOf cand) options) avs))
    as [perAvail ->]; [|by eexists].
  apply mapM_is_Some, Forall_forall. intros avail Hav. cbn.
  unfold overlapsOfAvailability.
  assert (is_Some (mapM (overlapsOfSlot (candidateMapOf cand) options)
                     (time_slots avail))) as [perSlot ->]; [|by eexists].
  apply mapM_is_Some, Forall_forall. intros slot Hslot. cbn.
  unfold overlapsOfSlot.
  destruct (candidateMapOf cand !! ts_date slot) as [cs|] eqn:E; [|by eexists].
  match goal with |- is_Some (mapM ?f cs ≫= _) =>
    assert (is_Some (mapM f cs)) as [perCandidate ->]; [|by eexists] end.
  apply mapM_is_Some, Forall_forall. intros c Hcs. cbn.
  destruct (candidateMapOf_slots _ _ _ _ E Hcs) as (a & Hin & Hca).
  destruct (findTimeSlotOverlap_Some slot c (duration options)) as [overlaps ->];
    [by eapply Ha|by eapply Hc|by eexists].
Qed.

Lemma forOf_Some {S A} (body : S → A → option S) xs :
  (∀ st x, is_Some (body st x)) → ∀ st, is_Some (forOf body st xs).
Proof.
  intros Hbody. induction xs as [|x xs IH]; intros st; [by eexists|].
  cbn. destruct (Hbody st x) as [st' ->]. apply IH.
Qed.

(** On a request whose start times all have their colon, the assigner
    returns a list: nothing in it throws. *)
Lemma findIndividualInterviews_Some cand ivs options users :
  startsHaveColon cand → startsHaveColon ivs →
  is_Some (findIndividualInterviews cand ivs options users).
Proof.
  intros Hc Hi.
  assert (∀ id, is_Some (findOverlappingSlots cand
                           (mapGet id (interviewerMapOf ivs)) options)) as Hfound.
  { intros id. apply findOverlappingSlots_Some; [done|].
    intros avail slot Hav. by apply Hi, (mapGet_interviewerMapOf _ id). }
  unfold findIndividualInterviews.
  destruct (forOf_Some (pass1Step cand (interviewerMapOf ivs) options users)
              (map fst (interviewerMapOf ivs))) with (st := ([], []) : AssignState)
    as [st1 ->].
  { intros st id. unfold pass1Step. destruct (Hfound id) as [slots ->]. by eexists. }
  rewrite option_bind_some.
  destruct (forOf_Some (pass2Step cand (interviewerMapOf ivs) options users)
              (unscheduledOf (map fst (interviewerMapOf ivs)) st1.1)) with (st := st1)
    as [st2 ->].
  { intros st id. unfold pass2Step. destruct (Hfound id) as [slots ->]. by eexists. }
  by eexists.
Qed.

(** ** Heap computations *)

Lemma bind_unfold {A B} (m : M A) (k : A → M B) h :
  (m ≫= k) h = match m h with
               | (h', Some a) => k a h'
               | (h', None) => (h', None)
               end.
Proof. reflexivity. Qed.

Lemma mapM_pure {A B} (f : A → M B) (g : A → option B) h xs :
  (∀ x, x ∈ xs → f x h = (h, g x)) → mapM f xs h = (h, mapM g xs).
Proof.
  induction xs as [|x xs IH]; intros Hf; [done|].
  cbn [mapM]. rewrite bind_unfold, (Hf x) by apply list_elem_of_here.
  destruct (g x) as [y|]; [|done].
  rewrite bind_unfold, IH by (intros; by apply Hf, list_elem_of_further).
  by destruct (mapM g xs).
Qed.

Lemma readSlot_pure l h : readSlot l h = (h, slotAt h l).
Proof.
  unfold readSlot, slotAt, readObj. rewrite bind_unfold.
  by destruct (h !! l) as [[]|].
Qed.

Lemma loadAvailability_pure availability h :
  loadAvailability availability h = (h, availabilityAt h availability).
Proof.
  apply mapM_pure. intros avail _.
  rewrite bind_unfold, (mapM_pure _ (slotAt h)) by (intros; apply readSlot_pure).
  by destruct (mapM (slotAt h) (time_slots avail)).
Qed.

Lemma alloc_all found h :
  mapM (λ m, alloc (ObjMatch m)) found h
  = (h ++ map ObjMatch found, Some (seq (length h) (length found))).
Proof.
  revert h. induction found as [|m found IH]; intros h.
  - cbn. by rewrite app_nil_r.
  - cbn [mapM]. rewrite bind_unfold. cbn [alloc].
    rewrite bind_unfold, IH, length_app. cbn.
    by rewrite <- app_assoc, Nat.add_1_r.
Qed.

(** The [try] block, with its reads and allocations spelled out. *)
Lemma scheduleBody_unfold today C request options h :
  scheduleBody today C request options h
  = match availabilityAt h (candidate_availability request) with
    | None => (h, None)
    | Some cand =>
        match availabilityAt h (interviewer_availability request) with
        | None => (h, None)
        | Some ivs =>
            match findIndividualInterviews cand ivs
                    (mergeOptions options (interview_duration request))
                    (users request) with
            | None => (h, None)
            | Some [] => (h, Some noOverlapResponse)
            | Some found =>
                buildResponse today C request
                  (mergeOptions options (interview_duration request))
                  (seq (length h) (length found)) (h ++ map ObjMatch found)
            end
        end
    end.
Proof.
  unfold scheduleBody.
  rewrite bind_unfold, loadAvailability_pure.
  destruct (availabilityAt h (candidate_availability request)) as [cand|]; [|done].
  rewrite bind_unfold, loadAvailability_pure.
  destruct (availabilityAt h (interviewer_availability request)) as [ivs|]; [|done].
  rewrite bind_unfold. unfold liftOption at 1.
  destruct (findIndividualInterviews _ _ _ _) as [found|]; [|done].
  rewrite bind_unfold, alloc_all.
  destruct found as [|m found]; [cbn; by rewrite app_nil_r|done].
Qed.

(** ** The frame of the heap computations *)

Lemma frames_weaken {A} n (m : M A) (Q R : A → Prop) :
  frames n m Q → (∀ a, Q a → R a) → frames n m R.
Proof.
  intros Hm HQR h Hn. destruct (Hm h Hn) as (? & ? & ?). naive_solver.
Qed.

Lemma frames_readonly {A} n (m : M A) :
  (∀ h, (m h).1 = h) → frames n m (λ _, True).
Proof. intros Hm h _. by rewrite Hm. Qed.

Lemma frames_ret {A} n (a : A) (Q : A → Prop) : Q a → frames n (mret a) Q.
Proof. intros HQ h _. cbn. repeat split; [lia|]. by intros ? [= <-]. Qed.

Lemma frames_bind {A B} n (m : M A) (k : A → M B) (Q : A → Prop) (R : B → Prop) :
  frames n m Q → (∀ a, Q a → frames n (k a) R) → frames n (m ≫= k) R.
Proof.
  intros Hm Hk h Hn. rewrite bind_unfold.
  destruct (Hm h Hn) as (Ht & Hl & HQ).
  destruct (m h) as [h' [a|]]; simpl in *; [|done].
  destruct (Hk a (HQ a eq_refl) h' ltac:(lia)) as (Ht' & Hl' & HR).
  repeat split; [congruence|lia|done].
Qed.

Lemma frames_alloc n o : frames n (alloc o) (λ l, (n ≤ l)%nat).
Proof.
  intros h Hn. cbn. rewrite length_app. repeat split; [|lia|].
  - by rewrite take_app_le.
  - intros ? [= <-]. done.
Qed.

Lemma frames_writeDate n l d : (n ≤ l)%nat → frames n (writeDate l d) (λ _, True).
Proof.
  intros Hl h Hn. unfold writeDate. cbn [fst snd]. rewrite length_alter.
  repeat split; [|lia]. by apply take_alter_ge.
Qed.

Lemma frames_mapM {A B} n (f : A → M B) xs (Q : B → Prop) :
  (∀ x, x ∈ xs → frames n (f x) Q) → frames n (mapM f xs) (Forall Q).
Proof.
  induction xs as [|x xs IH]; intros Hf.
  - by apply frames_ret.
  - cbn [mapM]. eapply frames_bind; [apply Hf, list_elem_of_here|].
    intros b Hb. eapply frames_bind.
    + apply IH. intros; by apply Hf, list_elem_of_further.
    + intros bs Hbs. apply frames_ret. by constructor.
Qed.

Lemma readObj_readonly l h : (readObj l h).1 = h.
Proof. reflexivity. Qed.

Lemma readMatch_readonly l h : (readMatch l h).1 = h.
Proof. unfold readMatch, readObj. rewrite bind_unfold. by destruct (h !! l) as [[]|]. Qed.

Lemma frames_createScheduledTime today C n l tz :
  (n ≤ l)%nat → frames n (createScheduledTime today C l tz) (λ _, True).
Proof.
  intros Hl. unfold createScheduledTime.
  eapply frames_bind; [apply frames_readonly, readObj_readonly|].
  intros o _. eapply frames_bind.
  { case_bool_decide; [by apply frames_writeDate|by apply frames_ret]. }
  intros _ _. eapply frames_bind; [apply frames_readonly, readMatch_readonly|].
  intros m _. by apply frames_readonly.
Qed.

Lemma frames_formatMultipleInterviewsMessage C n ls tz buffer :
  frames n (formatMultipleInterviewsMessage C ls tz buffer) (λ _, True).
Proof.
  apply frames_readonly. intros h.
  unfold formatMultipleInterviewsMessage.
  destruct ls as [|first [|second rest]]; [done| |];
    rewrite bind_unfold;
    pose proof (readMatch_readonly first h) as Hr;
    destruct (readMatch first h) as [h' [m|]]; simpl in *; subst; try done.
  rewrite bind_unfold. unfold liftOption. by destruct (formatDate C (m_date m)).
Qed.

Lemma frames_generateAvailabilitySummary n request :
  frames n (generateAvailabilitySummary request) (λ _, True).
Proof.
  apply frames_readonly. intros h. unfold generateAvailabilitySummary.
  rewrite bind_unfold, loadAvailability_pure.
  destruct (availabilityAt h (candidate_availability request)); [|done].
  rewrite bind_unfold, loadAvailability_pure.
  by destruct (availabilityAt h (interviewer_availability request)).
Qed.

Lemma elem_of_slice {A} a b (xs : list A) x : x ∈ slice a b xs → x ∈ xs.
Proof.
  unfold slice. intros H. apply elem_of_take in H as (i & H & _).
  rewrite lookup_drop in H. by eapply list_elem_of_lookup_2.
Qed.

Lemma frames_buildResponse today C request opts n ls :
  (∀ l, l ∈ ls → (n ≤ l)%nat) →
  frames n (buildResponse today C request opts ls) (λ _, True).
Proof.
  intros Hls. unfold buildResponse.
  eapply (frames_bind _ _ _ (λ l, l ∈ ls)).
  { intros h _. cbn. repeat split; [lia|].
    intros l Hl. apply head_Some_elem_of in Hl. done. }
  intros primary Hp.
  eapply frames_bind; [by apply frames_createScheduledTime, Hls|]. intros ? _.
  eapply frames_bind; [apply frames_formatMultipleInterviewsMessage|]. intros ? _.
  eapply frames_bind.
  { apply (frames_mapM _ _ _ (λ _, True)). intros l Hl.
    apply frames_createScheduledTime, Hls. by eapply elem_of_slice. }
  intros ? _. eapply frames_bind.
  { apply (frames_mapM _ _ _ (λ _, True)). intros l Hl. unfold slotReport.
    eapply frames_bind; [apply frames_readonly, readMatch_readonly|]. intros ? _.
    eapply frames_bind; [by apply frames_createScheduledTime, Hls|]. intros ? _.
    by apply frames_ret. }
  intros ? _. eapply frames_bind; [apply frames_generateAvailabilitySummary|].
  intros ? _. eapply frames_bind.
  { apply (frames_mapM _ _ _ (λ _, True)). intros l Hl. unfold interviewReport.
    eapply frames_bind; [apply frames_readonly, readMatch_readonly|]. intros ? _.
    eapply frames_bind; [by apply frames_createScheduledTime, Hls|]. intros ? _.
    by apply frames_ret. }
  intros ? _. by apply frames_ret.
Qed.

Lemma scheduleBody_frame today C request options h :
  ∃ fresh, (scheduleBody today C request options h).1 = h ++ fresh.
Proof.
  rewrite scheduleBody_unfold.
  destruct (availabilityAt h (candidate_availability request)) as [cand|];
    [|exists []; by rewrite app_nil_r].
  destruct (availabilityAt h (interviewer_availability request)) as [ivs|];
    [|exists []; by rewrite app_nil_r].
  destruct (findIndividualInterviews _ _ _ _) as [[|m found]|];
    [exists []; by rewrite app_nil_r| |exists []; by rewrite app_nil_r].
  set (found' := m :: found).
  destruct (frames_buildResponse today C request
              (mergeOptions options (interview_duration request)) (length h)
              (seq (length h) (length found'))
              ltac:(intros l Hl; apply elem_of_seq in Hl; lia)
              (h ++ map ObjMatch found')
              ltac:(rewrite length_app; lia)) as (Ht & _ & _).
  rewrite take_app_length in Ht.
  eexists. by rewrite <- (take_drop (length h) (_.1)), Ht.
Qed.

(** The frame is not for free: handed an undated slot object of the
    request, [createScheduledTime] writes to it (and then throws). *)
Example createScheduledTime_writes_undated_object :
  createScheduledTime "2024-01-10" utcCollaborators 0%nat "UTC" heapMissingDate
  = (<[0%nat := ObjSlot (mkTimeSlot "2024-01-10" "09:00" "10:00")]> heapMissingDate,
     None).
Proof. reflexivity. Qed.

(** C10. [findOptimalSchedule] does not change its input: whatever the
    request, the options, the clock and the collaborators do, and whether
    the call succeeds or fails, the final heap is the initial heap, with
    every [TimeSlot] of the request in it, followed by newly allocated
    objects.  (Strings are immutable and the request's arrays are never
    written: the one assignment of the service is to the [date] of an
    object it has allocated itself.) *)
Theorem findOptimalSchedule_preserves_input today C request options h :
  ∃ fresh, (findOptimalSchedule today C request options h).1 = h ++ fresh.
Proof.
  destruct (scheduleBody_frame today C request options h) as [fresh Hf].
  exists fresh. unfold findOptimalSchedule.
  by destruct (scheduleBody today C request options h) as [h' [r|]].
Qed.

(** ** A call in which no date is missing *)

Lemma createScheduledTime_dated today C tz h l m :
  datedMatchAt h l m →
  createScheduledTime today C l tz h = (h, scheduledTimeOf C tz m).
Proof.
  intros [Hl Hd]. unfold createScheduledTime.
  rewrite bind_unfold. unfold readObj at 1. rewrite Hl. cbn [dateOf].
  rewrite bool_decide_eq_false_2 by done.
  rewrite bind_unfold. cbn [mret M_ret].
  rewrite bind_unfold. unfold readMatch, readObj. rewrite bind_unfold, Hl.
  done.
Qed.

Lemma readMatch_at h l m : h !! l = Some (ObjMatch m) → readMatch l h = (h, Some m).
Proof. intros Hl. unfold readMatch, readObj. by rewrite bind_unfold, Hl. Qed.

Lemma mapM_related {A A' B} (R : A → A' → Prop) (f : A → M B) (g : A' → option B)
    h xs ys :
  Forall2 R xs ys → (∀ x y, R x y → f x h = (h, g y)) →
  mapM f xs h = (h, mapM g ys).
Proof.
  intros HR Hf. induction HR as [|x y xs ys Hxy _ IH]; [done|].
  cbn [mapM]. rewrite bind_unfold, (Hf x y Hxy).
  destruct (g y) as [b|]; [|done].
  rewrite bind_unfold, IH. by destruct (mapM g ys).
Qed.

Lemma Forall2_slice {A B} (R : A → B → Prop) a b xs ys :
  Forall2 R xs ys → Forall2 R (slice a b xs) (slice a b ys).
Proof.
  intros H. unfold slice. rewrite (Forall2_length _ _ _ H).
  by apply Forall2_take, Forall2_drop.
Qed.

Lemma formatMultipleInterviewsMessage_dated C tz buffer h ls ms :
  Forall2 (datedMatchAt h) ls ms →
  formatMultipleInterviewsMessage C ls tz buffer h = (h, messageOf C ms tz buffer).
Proof.
  intros H. pose proof (Forall2_length _ _ _ H) as Hlen.
  destruct H as [|l m ls ms [Hl _] H]; [done|].
  unfold formatMultipleInterviewsMessage, messageOf.
  destruct H as [|l' m' ls ms _ H].
  - by rewrite bind_unfold, (readMatch_at _ _ _ Hl).
  - rewrite bind_unfold, (readMatch_at _ _ _ Hl), bind_unfold.
    unfold liftOption. destruct (formatDate C (m_date m)); [|done].
    by rewrite Hlen.
Qed.

Lemma generateAvailabilitySummary_pure request h :
  generateAvailabilitySummary request h = (h, summaryAt h request).
Proof.
  unfold generateAvailabilitySummary, summaryAt.
  rewrite bind_unfold, loadAvailability_pure.
  destruct (availabilityAt h (candidate_availability request)); [|done].
  rewrite bind_unfold, loadAvailability_pure.
  by destruct (availabilityAt h (interviewer_availability request)).
Qed.

Lemma buildResponse_dated today C request opts h ls ms :
  Forall2 (datedMatchAt h) ls ms →
  buildResponse today C request opts ls h
  = (h, responseOf C request opts (summaryAt h request) ms).
Proof.
  intros H. unfold buildResponse, responseOf.
  destruct H as [|l m ls ms Hlm H]; [done|].
  set (ls' := l :: ls). set (ms' := m :: ms).
  assert (Forall2 (datedMatchAt h) ls' ms') as H' by by constructor.
  rewrite bind_unfold. unfold liftOption at 1.
  change (head ls') with (Some l). change (head ms') with (Some m).
  rewrite option_bind_some. cbv beta iota.
  rewrite bind_unfold, (createScheduledTime_dated _ _ _ _ _ _ Hlm).
  destruct (scheduledTimeOf C (timezone request) m) as [scheduledTime|]; [|done].
  rewrite option_bind_some. cbv beta iota.
  rewrite bind_unfold, (formatMultipleInterviewsMessage_dated _ _ _ _ _ _ H').
  destruct (messageOf _ _ _ _) as [msg|]; [|done].
  rewrite option_bind_some. cbv beta iota.
  rewrite bind_unfold,
    (mapM_related (datedMatchAt h) _ (scheduledTimeOf C (timezone request)) h
       _ _ (Forall2_slice _ 1 (maxSuggestions opts) _ _ H'))
    by (intros; by apply createScheduledTime_dated).
  destruct (mapM _ (slice _ _ ms')) as [suggested|]; [|done].
  rewrite option_bind_some. cbv beta iota.
  rewrite bind_unfold,
    (mapM_related (datedMatchAt h) _
       (λ slot, slotReportOf slot <$> scheduledTimeOf C (timezone request) slot)
       h _ _ H').
  2:{ intros x y Hxy. unfold slotReport.
      rewrite bind_unfold, (readMatch_at _ _ _ (proj1 Hxy)).
      rewrite bind_unfold, (createScheduledTime_dated _ _ _ _ _ _ Hxy).
      by destruct (scheduledTimeOf _ _ y). }
  destruct (mapM _ ms') as [allSlots|] eqn:E1; [|done].
  rewrite option_bind_some. cbv beta iota.
  rewrite bind_unfold, generateAvailabilitySummary_pure.
  destruct (summaryAt h request) as [summary|]; [|done].
  rewrite option_bind_some. cbv beta iota.
  rewrite bind_unfold,
    (mapM_related (datedMatchAt h) _
       (λ i, interviewReportOf i <$> scheduledTimeOf C (timezone request) i)
       h _ _ H').
  2:{ intros x y Hxy. unfold interviewReport.
      rewrite bind_unfold, (readMatch_at _ _ _ (proj1 Hxy)).
      rewrite bind_unfold, (createScheduledTime_dated _ _ _ _ _ _ Hxy).
      by destruct (scheduledTimeOf _ _ y). }
  by destruct (mapM (λ m, interviewReportOf m <$> _) ms').
Qed.

Lemma mapM_Some_elem {A B} (f : A → option B) xs ys y :
  mapM f xs = Some ys → y ∈ ys → ∃ x, x ∈ xs ∧ f x = Some y.
Proof.
  intros H Hy. apply mapM_Some in H.
  induction H as [|x y' xs ys Hxy _ IH]; [by apply elem_of_nil in Hy|].
  apply elem_of_cons in Hy as [->|Hy].
  - exists x. split; [apply list_elem_of_here|done].
  - destruct (IH Hy) as (x' & ? & ?). exists x'.
    split; [by apply list_elem_of_further|done].
Qed.

(** Every slot read from the heap is the value of a slot object of the
    request. *)
Lemma availabilityAt_slots h availability loaded avail slot :
  availabilityAt h availability = Some loaded →
  avail ∈ loaded → slot ∈ time_slots avail →
  ∃ a l, a ∈ availability ∧ l ∈ time_slots a ∧ slotAt h l = Some slot.
Proof.
  intros H Hav Hslot. unfold availabilityAt in H.
  destruct (mapM_Some_elem _ _ _ _ H Hav) as (a & Ha & Hload).
  destruct (mapM (slotAt h) (time_slots a)) as [slots|] eqn:E; [|done].
  injection Hload as <-. cbn in Hslot.
  destruct (mapM_Some_elem _ _ _ _ E Hslot) as (l & Hl & Hs).
  by exists a, l.
Qed.

Lemma datesPresent_found h request ivs found :
  datesPresent h request = true →
  availabilityAt h (interviewer_availability request) = Some ivs →
  Forall (dateFrom ivs) found →
  Forall (λ m, m_date m ≠ "") found.
Proof.
  intros Hd Hivs Hfrom. eapply Forall_impl; [exact Hfrom|].
  intros m (avail & slot & Hav & Hslot & Hm). cbv beta. rewrite Hm.
  destruct (availabilityAt_slots _ _ _ _ _ Hivs Hav Hslot) as (a & l & Ha & Hl & Hs).
  unfold datesPresent in Hd. rewrite forallb_forall in Hd.
  specialize (Hd a ltac:(by apply list_elem_of_In)).
  rewrite forallb_forall in Hd.
  specialize (Hd l ltac:(by apply list_elem_of_In)).
  rewrite Hs in Hd. apply negb_true_iff, bool_decide_eq_false in Hd. done.
Qed.

Lemma fresh_matches_dated (h : heap) found :
  Forall (λ m, m_date m ≠ "") found →
  Forall2 (datedMatchAt (h ++ map ObjMatch found))
    (seq (length h) (length found)) found.
Proof.
  intros Hd. apply Forall2_same_length_lookup_2.
  - by rewrite length_seq.
  - intros i l m Hl Hm. apply lookup_seq in Hl as [-> Hi].
    split.
    + rewrite lookup_app_r by lia.
      replace (length h + i - length h)%nat with i by lia.
      change (map ObjMatch found) with (ObjMatch <$> found).
      by rewrite list_lookup_fmap, Hm.
    + by eapply (proj1 (Forall_lookup _ _) Hd).
Qed.

(** With every date present, the [try] block is [scheduleOf]. *)
Lemma scheduleBody_dated today C request options h :
  datesPresent h request = true →
  scheduleBody today C request options h = scheduleOf C request options h.
Proof.
  intros Hd. rewrite scheduleBody_unfold. unfold scheduleOf.
  destruct (availabilityAt h (candidate_availability request)) as [cand|]; [|done].
  destruct (availabilityAt h (interviewer_availability request)) as [ivs|] eqn:Hivs;
    [|done].
  destruct (findIndividualInterviews _ _ _ _) as [found|] eqn:Hf; [|done].
  destruct found as [|m found]; [done|].
  apply buildResponse_dated, fresh_matches_dated.
  eapply datesPresent_found; [done..|].
  by eapply findIndividualInterviews_dateFrom.
Qed.

Lemma slotAt_fresh_matches (h : heap) found l :
  slotAt (h ++ map ObjMatch found) l = slotAt h l.
Proof.
  unfold slotAt. destruct (decide (l < length h)%nat) as [Hlt|Hge].
  - by rewrite lookup_app_l.
  - rewrite lookup_app_r, (lookup_ge_None_2 h l) by lia.
    change (map ObjMatch found) with (ObjMatch <$> found).
    rewrite list_lookup_fmap. by destruct (found !! _).
Qed.

Lemma availabilityAt_fresh_matches (h : heap) found availability :
  availabilityAt (h ++ map ObjMatch found) availability = availabilityAt h availability.
Proof.
  unfold availabilityAt. apply mapM_ext. intros avail.
  by rewrite (mapM_ext _ (slotAt h)) by (intros; apply slotAt_fresh_matches).
Qed.

Lemma datesPresent_fresh_matches (h : heap) found request :
  datesPresent (h ++ map ObjMatch found) request = datesPresent h request.
Proof.
  unfold datesPresent.
  induction (interviewer_availability request) as [|avail avs IH]; [done|].
  cbn [forallb]. rewrite IH. f_equal.
  induction (time_slots avail) as [|l ls IHl]; [done|].
  cbn [forallb]. by rewrite IHl, slotAt_fresh_matches.
Qed.

(** The matches a call has left in the heap change nothing for the next
    call. *)
Lemma scheduleOf_fresh_matches C request options (h : heap) left :
  (scheduleOf C request options (h ++ map ObjMatch left)).2
  = (scheduleOf C request options h).2.
Proof.
  unfold scheduleOf, summaryAt. rewrite !availabilityAt_fresh_matches.
  destruct (availabilityAt h (candidate_availability request)) as [cand|]; [|done].
  destruct (availabilityAt h (interviewer_availability request)) as [ivs|]; [|done].
  destruct (findIndividualInterviews _ _ _ _) as [[|m found]|]; [done| |done].
  cbn [snd]. by rewrite <- !app_assoc, <- !map_app, !availabilityAt_fresh_matches.
Qed.

Lemma scheduleOf_heap C request options (h : heap) :
  ∃ left, (scheduleOf C request options h).1 = h ++ map ObjMatch left.
Proof.
  unfold scheduleOf.
  destruct (availabilityAt h (candidate_availability request)) as [cand|];
    [|exists []; by rewrite app_nil_r].
  destruct (availabilityAt h (interviewer_availability request)) as [ivs|];
    [|exists []; by rewrite app_nil_r].
  destruct (findIndividualInterviews _ _ _ _) as [[|m found]|];
    [exists []; by rewrite app_nil_r|by eexists|exists []; by rewrite app_nil_r].
Qed.

Lemma findOptimalSchedule_dated today C request options h :
  datesPresent h request = true →
  findOptimalSchedule today C request options h
  = ((scheduleOf C request options h).1,
     default failedResponse (scheduleOf C request options h).2).
Proof.
  intros Hd. unfold findOptimalSchedule. rewrite scheduleBody_dated by done.
  by destruct (scheduleOf C request options h) as [h' [r|]].
Qed.

(** C7. [findOptimalSchedule] is a function of its input; the one thing
    it reads besides is the clock, and only in the fallback for a missing
    date.  When no slot offered by an interviewer lacks its date, two
    calls at different times return the same response and leave the same
    heap, and a second call made after the first, on the heap the first
    has left, returns the response of the first. *)
Theorem findOptimalSchedule_deterministic today1 today2 C request options h :
  datesPresent h request = true →
  findOptimalSchedule today1 C request options h
  = findOptimalSchedule today2 C request options h
  ∧ (findOptimalSchedule today2 C request options
       (findOptimalSchedule today1 C request options h).1).2
    = (findOptimalSchedule today1 C request options h).2.
Proof.
  intros Hd. split.
  - by rewrite !findOptimalSchedule_dated.
  - rewrite (findOptimalSchedule_dated today1) by done. cbn [fst snd].
    destruct (scheduleOf_heap C request options h) as [left ->].
    rewrite findOptimalSchedule_dated by (by rewrite datesPresent_fresh_matches).
    cbn [snd]. by rewrite scheduleOf_fresh_matches.
Qed.

Lemma findOptimalSchedule_deterministic_witness :
  datesPresent heapIdentical requestIdentical = true
  ∧ findOptimalSchedule "2024-01-10" utcCollaborators requestIdentical noOptions
      heapIdentical
    = findOptimalSchedule "2025-06-30" utcCollaborators requestIdentical noOptions
        heapIdentical
  ∧ (findOptimalSchedule "2025-06-30" utcCollaborators requestIdentical noOptions
       (findOptimalSchedule "2024-01-10" utcCollaborators requestIdentical noOptions
          heapIdentical).1).2
    = (findOptimalSchedule "2024-01-10" utcCollaborators requestIdentical noOptions
         heapIdentical).2.
Proof.
  split; [reflexivity|].
  apply (findOptimalSchedule_deterministic "2024-01-10" "2025-06-30" utcCollaborators
           requestIdentical noOptions heapIdentical).
  reflexivity.
Defined.

(** The fallback does read the clock: with a missing date, the day of
    the call shows in the response. *)
Example missing_date_reads_the_clock :
  scheduled_time
    (findOptimalSchedule "2024-01-10" utcCollaborators requestMissingDate noOptions
       heapMissingDate).2 = Some "2024-01-10T09:00:00.000Z"
  ∧ scheduled_time
      (findOptimalSchedule "2025-06-30" utcCollaborators requestMissingDate noOptions
         heapMissingDate).2 = Some "2025-06-30T09:00:00.000Z".
Proof. split; vm_compute; reflexivity. Qed.

(** ** The two failure responses *)

Lemma bind_Some_inv {A B} (m : M A) (k : A → M B) h h' b :
  (m ≫= k) h = (h', Some b) → ∃ h1 a, m h = (h1, Some a) ∧ k a h1 = (h', Some b).
Proof.
  rewrite bind_unfold. destruct (m h) as [h1 [a|]]; [|done]. eauto.
Qed.

Lemma buildResponse_success today C request opts ls h h' response :
  buildResponse today C request opts ls h = (h', Some response) →
  success response = true.
Proof.
  unfold buildResponse. intros H.
  repeat (apply bind_Some_inv in H as (? & ? & _ & H)).
  by injection H as _ <-.
Qed.

Lemma scheduleBody_success today C request options h h' response :
  scheduleBody today C request options h = (h', Some response) →
  success response = true ∨ response = noOverlapResponse.
Proof.
  rewrite scheduleBody_unfold. intros H.
  destruct (availabilityAt h (candidate_availability request)); [|done].
  destruct (availabilityAt h (interviewer_availability request)); [|done].
  destruct (findIndividualInterviews _ _ _ _) as [[|m found]|]; [| |done].
  - right. congruence.
  - left. by eapply buildResponse_success.
Qed.

(** What a call returns.  When no availability record of any interviewer
    has a slot with the candidate in the sense of [findOverlappingSlots],
    the call returns [success: false] with the message "No overlapping time
    slots found between candidate and any interviewer."; when anything in
    the [try] block throws, it returns [success: false] with the message
    "Failed to generate schedule. Please try again or contact support.";
    and every call returns a response, which is a success or one of these
    two: nothing is thrown to the caller. *)
Lemma findOptimalSchedule_outcomes today C request options h :
  (∀ cand ivs,
     availabilityAt h (candidate_availability request) = Some cand →
     availabilityAt h (interviewer_availability request) = Some ivs →
     (∀ avail, avail ∈ ivs →
        findOverlappingSlots cand [avail]
          (mergeOptions options (interview_duration request)) = Some []) →
     findOptimalSchedule today C request options h = (h, noOverlapResponse))
  ∧ (∀ h', scheduleBody today C request options h = (h', None) →
           findOptimalSchedule today C request options h = (h', failedResponse))
  ∧ (success (findOptimalSchedule today C request options h).2 = true
     ∨ (findOptimalSchedule today C request options h).2 = noOverlapResponse
     ∨ (findOptimalSchedule today C request options h).2 = failedResponse)
  ∧ noOverlapResponse
    = {| success := false;
         scheduled_time := None;
         message := "No overlapping time slots found between candidate and any interviewer.";
         suggested_times := None;
         all_available_slots := None;
         availability_summary := None;
         individual_interviews := None |}
  ∧ failedResponse
    = {| success := false;
         scheduled_time := None;
         message := "Failed to generate schedule. Please try again or contact support.";
         suggested_times := Some [];
         all_available_slots := None;
         availability_summary := None;
         individual_interviews := None |}.
Proof.
  split; [|split; [|split; [|done]]].
  - intros cand ivs Hc Hi Hnone. unfold findOptimalSchedule.
    rewrite scheduleBody_unfold, Hc, Hi.
    by rewrite (findIndividualInterviews_nothing _ _ _ _ Hnone).
  - intros h' H. unfold findOptimalSchedule. by rewrite H.
  - unfold findOptimalSchedule.
    destruct (scheduleBody today C request options h) as [h' [r|]] eqn:E; cbn.
    + destruct (scheduleBody_success _ _ _ _ _ _ _ E); auto.
    + auto.
Qed.

(** Candidate and interviewer on different days: no overlap is found. *)
Example no_common_day_no_overlap :
  findOptimalSchedule "2024-01-10" utcCollaborators requestOtherDay noOptions
    heapOtherDay = (heapOtherDay, noOverlapResponse).
Proof.
  apply (proj1 (findOptimalSchedule_outcomes "2024-01-10" utcCollaborators
                  requestOtherDay noOptions heapOtherDay)
           [mkAvailability "candidate" [mkTimeSlot "2024-01-08" "09:00" "10:00"]]
           [mkAvailability "interviewer-1" [mkTimeSlot "2024-01-09" "09:00" "10:00"]]).
  - reflexivity.
  - reflexivity.
  - intros avail Hin. apply list_elem_of_singleton in Hin as ->.
    vm_compute. reflexivity.
Qed.

(** C6, at a candidate free 09:00-10:00 and an interviewer free
    11:00-12:00 on the same day, for a 60-minute interview.  The two have
    no common time, and the call does not answer "No overlapping time slots
    found between candidate and any interviewer.": it succeeds, with an
    interview at 23:00-00:00, a time at which neither is available.  The
    slot is the one [findTimeSlotOverlap] returns for windows that do not
    meet. *)
Theorem findOptimalSchedule_windows_apart :
  let response :=
    (findOptimalSchedule "2024-01-10" utcCollaborators requestApart noOptions
       heapApart).2 in
  findTimeSlotOverlap window1112 window0910 60
  = Some (map (λ k, mkTimeSlot "2024-01-10"
                      (default "" (formatTime (minutesToTime (Int (1380 + 15 * k)))))
                      (default "" (formatTime (minutesToTime (Int (1440 + 15 * k))))))
              (map Z.of_nat (seq 0 41)))
  ∧ success response = true
  ∧ scheduled_time response = Some "2024-01-10T23:00:00.000Z"
  ∧ message response = "Interview scheduled for 2024-01-10 at 23:00 - 00:00 UTC"
  ∧ (map reportSlot <$> individual_interviews response)
    = Some [mkTimeSlot "2024-01-10" "23:00" "00:00"]
  ∧ response ≠ noOverlapResponse.
Proof.
  cbv zeta. repeat split; try (vm_compute; reflexivity).
  vm_compute. discriminate.
Qed.

(** Two internal errors and what the caller sees: a start time without a
    colon makes [formatTime] throw inside the matching engine, and a
    time-zone conversion may throw in the response builder. *)
Example internal_errors_are_caught :
  findTimeSlotOverlap (mkTimeSlot "2024-01-10" "9" "10:00")
    (mkTimeSlot "2024-01-10" "9" "10:00") 60 = None
  ∧ (findOptimalSchedule "2024-01-10" utcCollaborators requestOtherDay noOptions
       heapMalformed).2 = failedResponse
  ∧ (findOptimalSchedule "2024-01-10" throwingCollaborators requestIdentical noOptions
       heapIdentical).2 = failedResponse.
Proof. repeat split; vm_compute; reflexivity. Qed.

(** ** No double booking in the response *)

Lemma noDoubleBooking_mono buffer buffer' slots :
  buffer ≤ buffer' → noDoubleBooking buffer' slots → noDoubleBooking buffer slots.
Proof.
  intros Hle H i j earlier later Hij Hi Hj (Hd & s1 & e1 & s2 & e2 & ? & ? & ? & ? & Hc).
  apply (H i j earlier later Hij Hi Hj).
  split; [done|]. exists s1, e1, s2, e2. repeat split; try done;
    destruct Hc; lia.
Qed.


Lemma responseOf_interviews C request opts summary found response :
  responseOf C request opts summary found = Some response →
  success response = true
  ∧ ∃ interviews,
      individual_interviews response = Some interviews
      ∧ map reportSlot interviews = map proposedOf found.
Proof.
  unfold responseOf. intros H.
  destruct (head found); [|done]. rewrite option_bind_some in H.
  destruct (scheduledTimeOf _ _ _); [|done]. rewrite option_bind_some in H.
  destruct (messageOf _ _ _ _); [|done]. rewrite option_bind_some in H.
  destruct (mapM _ (slice _ _ _)); [|done]. rewrite option_bind_some in H.
  destruct (mapM (λ slot, slotReportOf slot <$> _) found); [|done].
  rewrite option_bind_some in H.
  destruct summary; [|done]. rewrite option_bind_some in H.
  destruct (mapM (λ m, interviewReportOf m <$> _) found) as [interviews|] eqn:E;
    [|done].
  rewrite option_bind_some in H. injection H as <-.
  split; [done|]. exists interviews. split; [done|].
  apply mapM_Some in E.
  induction E as [|m r ms rs Hmr _ IH]; [done|].
  cbn [map]. rewrite IH. f_equal.
  destruct (scheduledTimeOf C (timezone request) m); [|done].
  by injection Hmr as <-.
Qed.






(** What the statement leaves out.  For windows of one day that do not
    meet, the overlap finder returns slots that start at 23:00 (C2); a
    slot 23:00-00:00 does not run within its day, the conflict test
    compares its end, minute 0, with the start of the other, and two
    interviewers are given the same hour of a dated request that passes
    validation. *)
Example slot_ending_at_midnight_given_twice :
  datesPresent heapApartTwice requestApartTwice = true
  ∧ (map reportSlot
       <$> individual_interviews
             (findOptimalSchedule "2024-01-10" utcCollaborators requestApartTwice
                noOptions heapApartTwice).2)
    = Some [mkTimeSlot "2024-01-10" "23:00" "00:00";
            mkTimeSlot "2024-01-10" "23:00" "00:00"]
  ∧ ¬ ∃ s e, runsWithinDay (mkTimeSlot "2024-01-10" "23:00" "00:00") s e.
Proof.
  split; [vm_compute; reflexivity|]. split; [vm_compute; reflexivity|].
  intros (s & e & Hs & He & Hlt). vm_compute in Hs, He.
  injection Hs as <-. injection He as <-. lia.
Qed.

(** ** The availability validator *)

Lemma allDigits_string_of_uint u : allDigits (NilEmpty.string_of_uint u) = true.
Proof. induction u; simpl; done. Qed.

Lemma allDigits_natToString n : allDigits (natToString n) = true.
Proof.
  unfold natToString, toString.
  destruct (Z.of_nat n) as [|p|p] eqn:E; [done| |lia].
  simpl. destruct (Pos.to_uint p); try done; apply (allDigits_string_of_uint (_ _)).
Qed.

Lemma natToString_inj n n' : natToString n = natToString n' → n = n'.
Proof.
  unfold natToString, toString. intros H.
  assert (∀ z, NilZero.int_of_string (NilZero.string_of_int (Z.to_int z))
               = Some (Z.to_int z)) as R.
  { intros z. apply NilZero.isi; destruct z as [|p|p]; simpl; try discriminate;
      intros [= Hp]; by apply DecimalPos.Unsigned.to_uint_nonnil in Hp. }
  pose proof (R (Z.of_nat n)) as R1. rewrite H, R in R1.
  injection R1 as R1. apply DecimalZ.to_int_inj in R1. lia.
Qed.

Lemma digits_then_delimiter a a' c r r' :
  allDigits a = true → allDigits a' = true → isDigit c = false →
  a +:+ String c r = a' +:+ String c r' → a = a' ∧ r = r'.
Proof.
  intros Ha Ha' Hc. revert a' Ha'.
  induction a as [|x a IH]; intros [|x' a'] Ha'; simpl; intros H.
  - by simplify_eq.
  - simplify_eq. simpl in Ha'. apply andb_true_iff in Ha' as [? _]. congruence.
  - simplify_eq. simpl in Ha. apply andb_true_iff in Ha as [? _]. congruence.
  - simpl in Ha, Ha'. apply andb_true_iff in Ha as [_ Ha].
    apply andb_true_iff in Ha' as [_ Ha'].
    injection H as -> H. destruct (IH Ha _ Ha' H) as [-> ->]. done.
Qed.

Lemma timeRangeError_inj i j i' j' :
  timeRangeError i j = timeRangeError i' j' → i = i' ∧ j = j'.
Proof.
  unfold timeRangeError. intros H. simpl in H. simplify_eq.
  apply digits_then_delimiter in H as [Hi H];
    [|apply allDigits_natToString..|done].
  simpl in H. simplify_eq.
  apply digits_then_delimiter in H as [Hj _];
    [|apply allDigits_natToString..|done].
  split; by apply natToString_inj.
Qed.

Lemma timeRangeError_in_slotErrors i j i' j' slot :
  timeRangeError i j ∈ slotErrors i' j' slot
  ↔ i = i' ∧ j = j' ∧ startHourNotBeforeEndHour slot = true.
Proof.
  unfold slotErrors, startHourNotBeforeEndHour.
  rewrite !elem_of_app. split.
  - intros [H|[H|H]].
    + destruct (negb _); [|by apply elem_of_nil in H].
      apply list_elem_of_singleton in H. discriminate H.
    + destruct (_ || _); [|by apply elem_of_nil in H].
      apply list_elem_of_singleton in H. discriminate H.
    + destruct (ge _ _); [|by apply elem_of_nil in H].
      apply list_elem_of_singleton, timeRangeError_inj in H as [-> ->]. done.
  - intros (-> & -> & ->). right. right. apply list_elem_of_here.
Qed.

(** A range error for slot [slotIndex] of availability [index] is among
    the reported errors exactly when that slot exists and its start hour
    is not before its end hour. *)
Lemma timeRangeError_reported availability index slotIndex :
  timeRangeError index slotIndex ∈ errors (validateAvailability availability)
  ↔ ∃ avail slot,
      availability !! index = Some avail
      ∧ time_slots avail !! slotIndex = Some slot
      ∧ startHourNotBeforeEndHour slot = true.
Proof.
  unfold validateAvailability.
  destruct availability as [|a0 rest].
  { simpl. split.
    - intros H. apply list_elem_of_singleton in H. discriminate H.
    - intros (? & ? & H & _). by rewrite lookup_nil in H. }
  set (availability := a0 :: rest). cbn [errors].
  rewrite elem_of_concat. split.
  - intros (l & Hl & Hx).
    apply elem_of_lookup_imap in Hl as (i' & avail & -> & Hav).
    destruct (time_slots avail) as [|s0 slots] eqn:Es.
    { apply list_elem_of_singleton in Hx. discriminate Hx. }
    apply elem_of_concat in Hx as (l & Hl & Hx).
    apply elem_of_lookup_imap in Hl as (j' & slot & -> & Hslot).
    apply timeRangeError_in_slotErrors in Hx as (-> & -> & Hge).
    exists avail, slot. by rewrite Es.
  - intros (avail & slot & Hav & Hslot & Hge).
    eexists. split; [by eapply elem_of_lookup_imap_2|].
    destruct (time_slots avail) as [|s0 slots] eqn:Es;
      [by rewrite lookup_nil in Hslot|].
    apply elem_of_concat. eexists. split; [by eapply elem_of_lookup_imap_2|].
    by apply timeRangeError_in_slotErrors.
Qed.

(** C8. The range check of [validateAvailability] compares hours only: a
    range error is reported for a slot iff the hour of its start is not
    below the hour of its end, whatever the minutes; and the slot
    [{date: "2024-1-1", start: "09:00", end: "10:00"}] is flagged for its
    date format and for nothing else. *)
Theorem validateAvailability_compares_hours_only :
  (∀ availability index slotIndex,
     timeRangeError index slotIndex ∈ errors (validateAvailability availability)
     ↔ ∃ avail slot,
         availability !! index = Some avail
         ∧ time_slots avail !! slotIndex = Some slot
         ∧ ge (hours (parseTime (ts_start slot)))
              (hours (parseTime (ts_end slot))) = true)
  ∧ (∀ date h1 m1 h2 m2 start end_,
       formatTime (timeOf h1 m1) = Some start →
       formatTime (timeOf h2 m2) = Some end_ →
       0 ≤ h1 ≤ 23 → 0 ≤ m1 ≤ 59 → 0 ≤ h2 ≤ 23 → 0 ≤ m2 ≤ 59 →
       (startHourNotBeforeEndHour (mkTimeSlot date start end_) = true ↔ h2 ≤ h1))
  ∧ validateAvailability [mkAvailability "u" [slotShortDate]]
    = {| valid := false;
         errors := ["Invalid date format for availability 0 slot 0: 2024-1-1"] |}.
Proof.
  split; [|split].
  - apply timeRangeError_reported.
  - intros date h1 m1 h2 m2 start end_ Hs He Hh1 Hm1 Hh2 Hm2.
    destruct (parseTime_formatTime h1 m1 (Int (60 * h1 + m1)) Hh1 Hm1)
      as (s & Hs' & _ & Ps).
    destruct (parseTime_formatTime h2 m2 (Int (60 * h2 + m2)) Hh2 Hm2)
      as (e & He' & _ & Pe).
    unfold timeOf in Hs, He.
    assert (s = start) as -> by congruence.
    assert (e = end_) as -> by congruence.
    unfold startHourNotBeforeEndHour. cbn [ts_start ts_end]. rewrite Ps, Pe. simpl.
    apply Z.leb_le.
  - vm_compute. reflexivity.
Qed.

Lemma validateAvailability_compares_hours_only_witness :
  (startHourNotBeforeEndHour (mkTimeSlot "2024-01-10" "09:45" "09:50") = true
   ↔ 9 ≤ 9)
  ∧ (startHourNotBeforeEndHour (mkTimeSlot "2024-01-10" "09:50" "10:00") = true
     ↔ 10 ≤ 9).
Proof.
  split.
  - apply (proj1 (proj2 validateAvailability_compares_hours_only)
             "2024-01-10" 9 45 9 50 "09:45" "09:50"); [reflexivity..|lia|lia|lia|lia].
  - apply (proj1 (proj2 validateAvailability_compares_hours_only)
             "2024-01-10" 9 50 10 0 "09:50" "10:00"); [reflexivity..|lia|lia|lia|lia].
Defined.

(** * Further properties of the code *)

(** ** Time arithmetic across midnight *)

Lemma parseTime_timeOf s t : timeOfDay s t → parseTime s = timeOf (t / 60) (t mod 60).
Proof. by intros [_ ?]. Qed.

Lemma timeOf_total t : totalMinutes (timeOf (t / 60) (t mod 60)) = Int t.
Proof. cbn. f_equal. pose proof (Z.div_mod t 60). lia. Qed.

(** X1. [timeDifference] counts the minutes from [start] forwards around
    the clock to [end]: for two times of day it is [(e - s) mod 1440], so an
    end that is earlier than the start is read as a time of the next day. *)
Theorem timeDifference_wraps start end_ s e :
  timeOfDay start s → timeOfDay end_ e →
  timeDifference (parseTime start) (parseTime end_) = Int ((e - s) mod 1440).
Proof.
  intros Hs He. pose proof Hs as [Hrs _]. pose proof He as [Hre _].
  unfold timeDifference.
  rewrite (timeOfDay_total _ _ Hs), (timeOfDay_total _ _ He).
  cbn [lt add sub]. destruct (Z.ltb_spec e s); f_equal.
  - rewrite <- (Z.mod_unique (e - s) 1440 (-1) (e + 1440 - s)); lia.
  - rewrite Z.mod_small; lia.
Qed.

Lemma timeDifference_wraps_witness :
  timeDifference (parseTime "23:30") (parseTime "00:15") = Int ((15 - 1410) mod 1440).
Proof.
  apply (timeDifference_wraps "23:30" "00:15" 1410 15);
    (split; [lia | reflexivity]).
Defined.

Lemma minutesToTime_mod t :
  0 ≤ t →
  minutesToTime (Int t) = minutesToTime (Int (t mod 1440)).
Proof.
  intros Ht. unfold minutesToTime. cbn [rem]. cbn [Z.eqb].
  rewrite !Z.rem_mod_nonneg by (try apply Z.mod_pos_bound; lia).
  by rewrite Z.mod_mod by lia.
Qed.

Lemma addMinutesToTime_wraps_to s t d :
  timeOfDay s t → 0 ≤ t + d →
  ∃ s', addMinutesToTime s d = Some s'
        ∧ timeOfDay s' ((t + d) mod 1440)
        ∧ isPaddedHHMM s' = true.
Proof.
  intros Hs Hd. unfold addMinutesToTime.
  rewrite (timeOfDay_total _ _ Hs). cbn [add].
  rewrite minutesToTime_mod by done.
  pose proof (Z.mod_pos_bound (t + d) 1440 ltac:(lia)) as Hm.
  rewrite minutesToTime_small by done.
  set (u := (t + d) mod 1440) in *.
  destruct (parseTime_formatTime (u / 60) (u mod 60) (Int u)) as (s' & Hf & Hp & Hparse).
  - split; [apply Z.div_pos; lia|].
    assert (u / 60 < 24) by (apply Z.div_lt_upper_bound; lia). lia.
  - pose proof (Z.mod_pos_bound u 60). lia.
  - exists s'. split; [done|]. split; [|done]. split; [done|]. done.
Qed.

(** X2. [addMinutesToTime] wraps at midnight: adding [d] minutes to the
    time of day [t], with [t + d] not negative, gives the zero-padded
    ["HH:MM"] of the minute [(t + d) mod 1440]. *)
Theorem addMinutesToTime_wraps s t d :
  timeOfDay s t → 0 ≤ t + d →
  ∃ s', addMinutesToTime s d = Some s'
        ∧ timeOfDay s' ((t + d) mod 1440)
        ∧ isPaddedHHMM s' = true.
Proof. apply addMinutesToTime_wraps_to. Qed.

Lemma addMinutesToTime_wraps_witness :
  ∃ s', addMinutesToTime "23:15" 60 = Some s'
        ∧ timeOfDay s' ((1395 + 60) mod 1440)
        ∧ isPaddedHHMM s' = true.
Proof.
  apply (addMinutesToTime_wraps "23:15" 1395 60); [split; [lia|reflexivity] | lia].
Defined.

(** X3. Adding [a] minutes and then [b] minutes to a time of day is
    adding [a + b] minutes, for [a] and [b] not negative, also across
    midnight. *)
Theorem addMinutesToTime_compose s t a b :
  timeOfDay s t → 0 ≤ a → 0 ≤ b →
  (addMinutesToTime s a ≫= λ s', addMinutesToTime s' b) = addMinutesToTime s (a + b).
Proof.
  intros Hs Ha Hb. pose proof Hs as [Hr _].
  destruct (addMinutesToTime_wraps_to s t a Hs) as (s1 & H1 & Ht1 & _); [lia|].
  destruct (addMinutesToTime_wraps_to s1 _ b Ht1) as (s2 & H2 & Ht2 & Hp2).
  { pose proof (Z.mod_pos_bound (t + a) 1440). lia. }
  destruct (addMinutesToTime_wraps_to s t (a + b) Hs) as (s3 & H3 & Ht3 & Hp3); [lia|].
  rewrite H1, option_bind_some, H2, H3. f_equal.
  replace (((t + a) mod 1440 + b) mod 1440) with ((t + (a + b)) mod 1440) in Ht2.
  2:{ rewrite Z.add_mod_idemp_l by lia. f_equal. lia. }
  apply formatTime_parseTime in Hp2, Hp3.
  destruct Ht2 as [_ E2], Ht3 as [_ E3]. rewrite E2 in Hp2. rewrite E3 in Hp3.
  congruence.
Qed.

Lemma addMinutesToTime_compose_witness :
  (addMinutesToTime "22:50" 45 ≫= λ s', addMinutesToTime s' 45)
  = addMinutesToTime "22:50" (45 + 45).
Proof.
  apply (addMinutesToTime_compose "22:50" 1370 45 45); [split; [lia|reflexivity] | lia | lia].
Defined.

Lemma split_without_separator c s : includes c s = false → split c s = [s].
Proof.
  induction s as [|d s IH]; [done|]. cbn [includes split].
  intros H. apply orb_false_iff in H as [Hd Hs].
  rewrite Hd, (IH Hs). done.
Qed.

(** X4. A string without a colon is not a time: [parseTime] leaves its
    minutes [undefined] and its total [NaN], [formatTime] throws on the
    result, and [addMinutesToTime] answers ["NaN:NaN"] whatever is added. *)
Theorem parseTime_without_colon s :
  includes ":" s = false →
  minutes (parseTime s) = None
  ∧ totalMinutes (parseTime s) = NaN
  ∧ formatTime (parseTime s) = None
  ∧ ∀ d, addMinutesToTime s d = Some "NaN:NaN".
Proof.
  intros H. unfold addMinutesToTime, formatTime, parseTime.
  rewrite (split_without_separator _ _ H). cbn [map lookup list_lookup default minutes totalMinutes hours].
  assert (E : ∀ n, add (mul n (Int 60)) NaN = NaN) by (by intros []).
  rewrite E. by repeat split.
Qed.

Lemma parseTime_without_colon_witness :
  minutes (parseTime "0900") = None
  ∧ totalMinutes (parseTime "0900") = NaN
  ∧ formatTime (parseTime "0900") = None
  ∧ ∀ d, addMinutesToTime "0900" d = Some "NaN:NaN".
Proof. apply (parseTime_without_colon "0900"). reflexivity. Defined.

(** ** The slots the overlap finder enumerates *)

Lemma maxTime_timeOf a b :
  maxTime (timeOf (a / 60) (a mod 60)) (timeOf (b / 60) (b mod 60))
  = timeOf (Z.max a b / 60) (Z.max a b mod 60).
Proof.
  unfold maxTime, ge, le. cbn [totalMinutes timeOf].
  pose proof (Z.div_mod a 60 ltac:(lia)). pose proof (Z.div_mod b 60 ltac:(lia)).
  destruct (Z.leb_spec (60 * (b / 60) + b mod 60) (60 * (a / 60) + a mod 60)).
  - by rewrite Z.max_l by lia.
  - by rewrite Z.max_r by lia.
Qed.

Lemma minTime_timeOf a b :
  minTime (timeOf (a / 60) (a mod 60)) (timeOf (b / 60) (b mod 60))
  = timeOf (Z.min a b / 60) (Z.min a b mod 60).
Proof.
  unfold minTime, le. cbn [totalMinutes timeOf].
  pose proof (Z.div_mod a 60 ltac:(lia)). pose proof (Z.div_mod b 60 ltac:(lia)).
  destruct (Z.leb_spec (60 * (a / 60) + a mod 60) (60 * (b / 60) + b mod 60)).
  - by rewrite Z.min_l by lia.
  - by rewrite Z.min_r by lia.
Qed.

Section enumeration.
Variables (date : string) (overlapStart overlapEnd : Time).
Variables (lo hi d slack step : Z).
Hypothesis Hlo : totalMinutes overlapStart = Int lo.
Hypothesis Hhi : totalMinutes overlapEnd = Int hi.
Hypothesis Hrange : 0 ≤ lo ∧ hi < 1440.
Hypothesis Hslack : slack = hi - lo - d.
Hypothesis Hd : 0 < d.
Hypothesis Hstep : 1 ≤ step.

(** From [offset = j * step] on, the loop keeps one slot per step until
    the slack is used up. *)
Lemma slotLoop_enumerates fuel j :
  slack - Z.of_nat j * step + 1 ≤ Z.of_nat fuel →
  ∃ slots,
    slotLoop date overlapStart overlapEnd d (Int slack) (Int step) fuel
      (Int (Z.of_nat j * step)) = Some slots
    ∧ Z.of_nat (length slots)
      = (if Z.of_nat j * step <=? slack
         then (slack - Z.of_nat j * step) / step + 1 else 0)
    ∧ ∀ i slot, slots !! i = Some slot → isSlotAt date lo step d (j + i) slot.
Proof using Hlo Hhi Hrange Hslack Hd Hstep.
  revert j. induction fuel as [|fuel IH]; intros j Hfuel.
  { exists []. cbn [slotLoop length]. rewrite (proj2 (Z.leb_gt _ _)) by lia. done. }
  cbn [slotLoop]. unfold le at 1.
  destruct (Z.leb_spec (Z.of_nat j * step) slack) as [Hle|Hgt].
  2:{ by exists []. }
  rewrite Hlo. cbn [add].
  destruct (formatTime_minutesToTime (lo + Z.of_nat j * step)) as (s & -> & Hs); [lia|].
  cbn [mbind option_bind].
  destruct (addMinutesToTime_timeOfDay s _ d Hs) as (e & -> & He); [lia|].
  cbn [mbind option_bind].
  replace (Z.of_nat j * step + step) with (Z.of_nat (S j) * step) by lia.
  destruct (IH (S j)) as (rest & -> & Hlen & Hrest); [lia|].
  cbn [mbind option_bind].
  rewrite (timeOfDay_total e _ He), Hhi. unfold le.
  rewrite (proj2 (Z.leb_le _ _)) by lia.
  eexists. split; [done|]. split.
  - cbn [length]. rewrite Nat2Z.inj_succ, Hlen.
    destruct (Z.leb_spec (Z.of_nat (S j) * step) slack).
    + replace (slack - Z.of_nat j * step)
        with (slack - Z.of_nat (S j) * step + 1 * step) by lia.
      rewrite Z.div_add by lia. lia.
    + rewrite Z.div_small by lia. lia.
  - intros [|i] slot Hi.
    + injection Hi as <-. rewrite Nat.add_0_r. done.
    + replace (j + S i)%nat with (S j + i)%nat by lia. by apply Hrest.
Qed.
End enumeration.

(** X5. For two windows that meet with room for the interview,
    [findTimeSlotOverlap] returns exactly the slots that start at the
    beginning of the intersection and then every [stepOf] minutes, as long
    as the interview still ends inside the intersection; each carries the
    date of the first window. *)
Theorem findTimeSlotOverlap_enumerates slot1 slot2 d s1 e1 s2 e2 :
  timeOfDay (ts_start slot1) s1 → timeOfDay (ts_end slot1) e1 →
  timeOfDay (ts_start slot2) s2 → timeOfDay (ts_end slot2) e2 →
  0 < d → d ≤ Z.min e1 e2 - Z.max s1 s2 →
  let lo := Z.max s1 s2 in
  let slack := Z.min e1 e2 - Z.max s1 s2 - d in
  ∃ slots,
    findTimeSlotOverlap slot1 slot2 d = Some slots
    ∧ Z.of_nat (length slots) = slack / stepOf slack + 1
    ∧ ∀ k slot, slots !! k = Some slot →
        isSlotAt (ts_date slot1) lo (stepOf slack) d k slot.
Proof.
  intros Hs1 He1 Hs2 He2 Hd Hroom lo slack.
  pose proof (timeOfDay_total _ _ Hs1) as Ts1.
  pose proof (timeOfDay_total _ _ He1) as Te1.
  pose proof (timeOfDay_total _ _ Hs2) as Ts2.
  pose proof (timeOfDay_total _ _ He2) as Te2.
  destruct Hs1 as [Rs1 _], He1 as [Re1 _], Hs2 as [Rs2 _], He2 as [Re2 _].
  unfold findTimeSlotOverlap.
  set (overlapStart := maxTime _ _). set (overlapEnd := minTime _ _).
  assert (totalMinutes overlapStart = Int (Z.max s1 s2)) as Hlo.
  { unfold overlapStart, maxTime, ge, le. rewrite Ts1, Ts2.
    destruct (Z.leb_spec s2 s1); [rewrite Ts1|rewrite Ts2]; f_equal; lia. }
  assert (totalMinutes overlapEnd = Int (Z.min e1 e2)) as Hhi.
  { unfold overlapEnd, minTime, le. rewrite Te1, Te2.
    destruct (Z.leb_spec e1 e2); [rewrite Te1|rewrite Te2]; f_equal; lia. }
  assert (timeDifference overlapStart overlapEnd = Int (Z.min e1 e2 - Z.max s1 s2)) as ->.
  { unfold timeDifference, lt. rewrite Hlo, Hhi.
    by rewrite (proj2 (Z.ltb_ge _ _)) by lia. }
  unfold lt at 1. rewrite (proj2 (Z.ltb_ge _ _)) by lia.
  cbn [sub floorDiv max min loopFuel]. fold slack. fold (stepOf slack).
  assert (1 ≤ stepOf slack) as Hstep by (unfold stepOf; lia).
  destruct (slotLoop_enumerates (ts_date slot1) overlapStart overlapEnd
              lo (Z.min e1 e2) d slack (stepOf slack) Hlo Hhi
              ltac:(unfold lo; lia) eq_refl Hd Hstep (Z.to_nat (slack + 1)) 0
              ltac:(unfold slack; lia))
    as (slots & Hloop & Hlen & Hslots).
  change (Z.of_nat 0 * stepOf slack) with 0 in Hloop, Hlen.
  rewrite Hloop. cbn [mbind option_bind].
  assert (0 ≤ slack) as Hslack0 by (unfold slack; lia).
  rewrite (proj2 (Z.leb_le 0 slack) Hslack0), Z.sub_0_r in Hlen.
  assert (0 ≤ slack / stepOf slack) by (apply Z.div_pos; lia).
  destruct slots as [|slot slots]; [cbn in Hlen; lia|].
  exists (slot :: slots). split; [done|]. split; [done|].
  intros k slot' Hk. by apply (Hslots k).
Qed.

Lemma findTimeSlotOverlap_enumerates_witness :
  ∃ slots,
    findTimeSlotOverlap (mkTimeSlot "2024-01-10" "09:00" "11:00")
      (mkTimeSlot "2024-01-10" "09:30" "12:00") 60 = Some slots
    ∧ Z.of_nat (length slots) = 30 / stepOf 30 + 1
    ∧ ∀ k slot, slots !! k = Some slot →
        isSlotAt "2024-01-10" 570 (stepOf 30) 60 k slot.
Proof.
  apply (findTimeSlotOverlap_enumerates (mkTimeSlot "2024-01-10" "09:00" "11:00")
           (mkTimeSlot "2024-01-10" "09:30" "12:00") 60 540 660 570 720);
    try (split; [lia|reflexivity]); lia.
Defined.

(** X6. Two windows that meet for less than the interview lasts give no
    slot. *)
Theorem findTimeSlotOverlap_too_short slot1 slot2 d s1 e1 s2 e2 :
  timeOfDay (ts_start slot1) s1 → timeOfDay (ts_end slot1) e1 →
  timeOfDay (ts_start slot2) s2 → timeOfDay (ts_end slot2) e2 →
  Z.max s1 s2 ≤ Z.min e1 e2 → Z.min e1 e2 - Z.max s1 s2 < d →
  findTimeSlotOverlap slot1 slot2 d = Some [].
Proof.
  intros Hs1 He1 Hs2 He2 Hmeet Hshort.
  unfold findTimeSlotOverlap.
  rewrite (parseTime_timeOf _ _ Hs1), (parseTime_timeOf _ _ He1),
    (parseTime_timeOf _ _ Hs2), (parseTime_timeOf _ _ He2).
  rewrite maxTime_timeOf, minTime_timeOf.
  unfold timeDifference. rewrite !timeOf_total. cbn [lt sub add].
  rewrite (proj2 (Z.ltb_ge _ _)) by lia. cbn [lt sub].
  by rewrite (proj2 (Z.ltb_lt _ _)) by lia.
Qed.

Lemma findTimeSlotOverlap_too_short_witness :
  findTimeSlotOverlap (mkTimeSlot "2024-01-10" "09:00" "10:00")
    (mkTimeSlot "2024-01-10" "09:30" "10:30") 45 = Some [].
Proof.
  apply (findTimeSlotOverlap_too_short _ _ 45 540 600 570 630);
    try (split; [lia|reflexivity]); lia.
Defined.

(** X7. For two windows of one date, the slots found do not depend on
    which of the two is the interviewer's. *)
Theorem findTimeSlotOverlap_symmetric slot1 slot2 d s1 e1 s2 e2 :
  timeOfDay (ts_start slot1) s1 → timeOfDay (ts_end slot1) e1 →
  timeOfDay (ts_start slot2) s2 → timeOfDay (ts_end slot2) e2 →
  ts_date slot1 = ts_date slot2 →
  findTimeSlotOverlap slot1 slot2 d = findTimeSlotOverlap slot2 slot1 d.
Proof.
  intros Hs1 He1 Hs2 He2 Hdate.
  unfold findTimeSlotOverlap.
  rewrite (parseTime_timeOf _ _ Hs1), (parseTime_timeOf _ _ He1),
    (parseTime_timeOf _ _ Hs2), (parseTime_timeOf _ _ He2).
  rewrite !maxTime_timeOf, !minTime_timeOf.
  by rewrite (Z.max_comm s2 s1), (Z.min_comm e2 e1), Hdate.
Qed.

Lemma findTimeSlotOverlap_symmetric_witness :
  findTimeSlotOverlap (mkTimeSlot "2024-01-10" "09:00" "11:00")
    (mkTimeSlot "2024-01-10" "09:30" "12:00") 60
  = findTimeSlotOverlap (mkTimeSlot "2024-01-10" "09:30" "12:00")
      (mkTimeSlot "2024-01-10" "09:00" "11:00") 60.
Proof.
  apply (findTimeSlotOverlap_symmetric (mkTimeSlot "2024-01-10" "09:00" "11:00")
           (mkTimeSlot "2024-01-10" "09:30" "12:00") 60 540 660 570 720);
    try (split; [lia|reflexivity]); reflexivity.
Defined.

(** ** What the slot search finds *)

Lemma elem_of_slotsOf availability slot :
  slot ∈ slotsOf availability
  ↔ ∃ avail, avail ∈ availability ∧ slot ∈ time_slots avail.
Proof.
  unfold slotsOf. rewrite elem_of_concat. split.
  - intros (l & Hl & Hin). apply list_elem_of_In, in_map_iff in Hl as (avail & <- & Hav).
    exists avail. by rewrite list_elem_of_In.
  - intros (avail & Hav & Hin). exists (time_slots avail). split; [|done].
    apply list_elem_of_In, in_map_iff. exists avail. by rewrite <- list_elem_of_In.
Qed.

Lemma candidateMap_fold (m : gmap string (list TimeSlot)) slots date :
  foldl (λ m slot, <[ts_date slot := default [] (m !! ts_date slot) ++ [slot]]> m)
    m slots !! date
  = match filter (λ slot, ts_date slot = date) slots with
    | [] => m !! date
    | found => Some (default [] (m !! date) ++ found)
    end.
Proof.
  revert m. induction slots as [|slot slots IH]; intros m; [done|].
  cbn [foldl]. rewrite IH, filter_cons.
  destruct (decide (ts_date slot = date)) as [<-|Hne].
  - rewrite lookup_insert_eq. cbn [default].
    destruct (filter _ slots) as [|x xs]; [done|].
    unfold id. by rewrite <- app_assoc.
  - by rewrite lookup_insert_ne.
Qed.

Lemma candidateMapOf_lookup cand date :
  candidateMapOf cand !! date
  = match filter (λ slot, ts_date slot = date) (slotsOf cand) with
    | [] => None
    | found => Some found
    end.
Proof.
  unfold candidateMapOf. rewrite candidateMap_fold, lookup_empty. done.
Qed.

Lemma mapM_concat_elem_rev {A B} (f : A → option (list B)) xs rs x r y :
  mapM f xs = Some rs → x ∈ xs → f x = Some r → y ∈ r → y ∈ concat rs.
Proof.
  revert rs. induction xs as [|x' xs IH]; intros rs H Hx Hr Hy.
  { by apply elem_of_nil in Hx. }
  cbn [mapM] in H.
  destruct (f x') as [r'|] eqn:E; [|done]. rewrite option_bind_some in H.
  destruct (mapM f xs) as [rs'|]; [|done]. injection H as <-.
  cbn [concat]. apply elem_of_app.
  apply elem_of_cons in Hx as [->|Hx].
  - left. congruence.
  - right. by eapply IH.
Qed.

Lemma findOverlappingSlots_matchFrom cand ivs options slots m :
  findOverlappingSlots cand ivs options = Some slots →
  m ∈ slots ↔ matchFrom cand ivs options m.
Proof.
  unfold findOverlappingSlots. intros H.
  destruct (mapM _ ivs) as [perAvail|] eqn:E1; [|done]. cbn in H. simplify_eq.
  split.
  - intros Hm.
    destruct (mapM_concat_elem _ _ _ _ E1 Hm) as (avail & r & Hav & Hr & Hm1).
    unfold overlapsOfAvailability in Hr.
    destruct (mapM _ (time_slots avail)) as [perSlot|] eqn:E2; [|done].
    cbn in Hr. simplify_eq.
    destruct (mapM_concat_elem _ _ _ _ E2 Hm1) as (slot & r & Hslot & Hr & Hm2).
    unfold overlapsOfSlot in Hr. rewrite candidateMapOf_lookup in Hr.
    destruct (filter _ (slotsOf cand)) as [|c0 cs0] eqn:Ef;
      [simplify_eq; by apply elem_of_nil in Hm2|].
    destruct (mapM _ (c0 :: cs0)) as [perCandidate|] eqn:E3; [|done].
    cbn in Hr. simplify_eq.
    destruct (mapM_concat_elem _ _ _ _ E3 Hm2) as (c & r & Hc & Hr & Hm3).
    destruct (findTimeSlotOverlap slot c (duration options)) as [overlaps|] eqn:Eo;
      [|done].
    cbn in Hr. simplify_eq.
    apply list_elem_of_In, in_map_iff in Hm3 as (o & <- & Ho).
    rewrite <- Ef in Hc. apply list_elem_of_filter in Hc as [Hdate Hc].
    exists slot, c, overlaps, o. repeat split; try done.
    + apply elem_of_slotsOf. eauto.
    + by apply list_elem_of_In.
  - intros (slot & c & overlaps & o & Hslot & Hc & Hdate & Ho & Hin & ->).
    apply elem_of_slotsOf in Hslot as (avail & Hav & Hslot).
    pose proof (mapM_is_Some_1 _ _ (mk_is_Some _ _ E1)) as Hall.
    rewrite Forall_forall in Hall. destruct (Hall avail Hav) as [r Hr].
    eapply (mapM_concat_elem_rev _ _ _ _ _ _ E1 Hav Hr).
    unfold overlapsOfAvailability in Hr.
    destruct (mapM _ (time_slots avail)) as [perSlot|] eqn:E2; [|done].
    cbn in Hr. simplify_eq.
    pose proof (mapM_is_Some_1 _ _ (mk_is_Some _ _ E2)) as Hall2.
    rewrite Forall_forall in Hall2. destruct (Hall2 slot Hslot) as [r Hr].
    eapply (mapM_concat_elem_rev _ _ _ _ _ _ E2 Hslot Hr).
    unfold overlapsOfSlot in Hr. rewrite candidateMapOf_lookup in Hr.
    assert (c ∈ filter (λ s, ts_date s = ts_date slot) (slotsOf cand)) as Hcf
      by by apply list_elem_of_filter.
    destruct (filter _ (slotsOf cand)) as [|c0 cs0];
      [by apply elem_of_nil in Hcf|].
    destruct (mapM _ (c0 :: cs0)) as [perCandidate|] eqn:E3; [|done].
    cbn in Hr. simplify_eq.
    eapply (mapM_concat_elem_rev _ _ _ _ _ _ E3 Hcf).
    + rewrite Ho. reflexivity.
    + apply list_elem_of_In, in_map_iff. exists o. by rewrite <- list_elem_of_In.
Qed.

(** X8. The slots [findOverlappingSlots] returns are exactly the matches
    built from a slot that [findTimeSlotOverlap] returned for a window of
    an interviewer and a window of the candidate of the same date. *)
Theorem findOverlappingSlots_member cand ivs options slots m :
  findOverlappingSlots cand ivs options = Some slots →
  m ∈ slots ↔ matchFrom cand ivs options m.
Proof. apply findOverlappingSlots_matchFrom. Qed.

Lemma findOverlappingSlots_member_witness :
  toMatch options3015 window0910 (mkTimeSlot "2024-01-10" "09:07" "09:37")
    ∈ default [] (findOverlappingSlots oneCandidate [interviewer1] options3015)
  ↔ matchFrom oneCandidate [interviewer1] options3015
      (toMatch options3015 window0910 (mkTimeSlot "2024-01-10" "09:07" "09:37")).
Proof.
  apply (findOverlappingSlots_member oneCandidate [interviewer1] options3015).
  vm_compute. reflexivity.
Defined.

Lemma mapM_app_option {A B} (f : A → option B) xs ys :
  mapM f (xs ++ ys) = (rs ← mapM f xs; ss ← mapM f ys; Some (rs ++ ss)).
Proof.
  induction xs as [|x xs IH]; cbn [mapM app].
  - rewrite option_bind_some. by destruct (mapM f ys).
  - destruct (f x) as [r|]; [|done]. rewrite !option_bind_some, IH.
    destruct (mapM f xs) as [rs|]; [|done]. rewrite !option_bind_some.
    destruct (mapM f ys) as [ss|]; [|done]. by rewrite !option_bind_some.
Qed.

(** X9. The slots found for a list of availability records are the slots
    found for its parts, one after the other; the search throws when the
    search on a part does. *)
Theorem findOverlappingSlots_app cand ivs1 ivs2 options :
  findOverlappingSlots cand (ivs1 ++ ivs2) options
  = (slots1 ← findOverlappingSlots cand ivs1 options;
     slots2 ← findOverlappingSlots cand ivs2 options;
     Some (slots1 ++ slots2)).
Proof.
  unfold findOverlappingSlots. rewrite mapM_app_option.
  destruct (mapM _ ivs1) as [rs|]; [|done]. rewrite !option_bind_some.
  destruct (mapM _ ivs2) as [ss|]; [|done]. rewrite !option_bind_some.
  by rewrite concat_app.
Qed.

(** ** Dates *)

Lemma foldl_setAdd_elem (acc xs : list string) x :
  x ∈ foldl setAdd acc xs ↔ x ∈ acc ∨ x ∈ xs.
Proof.
  revert acc. induction xs as [|y xs IH]; intros acc; cbn [foldl].
  - split; [by left|]. intros [?|H]; [done|by apply elem_of_nil in H].
  - rewrite IH. unfold setAdd. rewrite elem_of_cons.
    case_bool_decide as Hy.
    + split; [intros [?|?]; auto|]. intros [?|[->|?]]; auto.
    + rewrite elem_of_app, list_elem_of_singleton. tauto.
Qed.

Lemma foldl_setAdd_NoDup (acc xs : list string) :
  NoDup acc → NoDup (foldl setAdd acc xs).
Proof.
  revert acc. induction xs as [|y xs IH]; intros acc H; [done|].
  cbn [foldl]. by apply IH, setAdd_NoDup.
Qed.

Lemma elem_of_datesOf availability date :
  date ∈ datesOf availability ↔ ∃ slot, slot ∈ slotsOf availability ∧ ts_date slot = date.
Proof.
  unfold datesOf. fold (slotsOf availability). rewrite foldl_setAdd_elem. split.
  - intros [H|H]; [by apply elem_of_nil in H|].
    apply list_elem_of_In, in_map_iff in H as (slot & <- & Hs).
    exists slot. by rewrite list_elem_of_In.
  - intros (slot & Hs & <-). right. apply list_elem_of_In, in_map_iff.
    exists slot. by rewrite <- list_elem_of_In.
Qed.

Lemma findOverlappingDays_NoDup cand ivs : NoDup (findOverlappingDays cand ivs).
Proof. apply NoDup_filter, foldl_setAdd_NoDup, NoDup_nil_2. Qed.

Lemma elem_of_findOverlappingDays cand ivs date :
  date ∈ findOverlappingDays cand ivs
  ↔ (∃ slot, slot ∈ slotsOf cand ∧ ts_date slot = date)
    ∧ (∃ slot, slot ∈ slotsOf ivs ∧ ts_date slot = date).
Proof.
  unfold findOverlappingDays. rewrite list_elem_of_filter, !elem_of_datesOf. tauto.
Qed.

(** X10. [findOverlappingDays] lists, once each and in the order in
    which the candidate first offers them, the dates that a slot of the
    candidate and a slot of an interviewer share. *)
Theorem findOverlappingDays_spec cand ivs :
  NoDup (findOverlappingDays cand ivs)
  ∧ sublist (findOverlappingDays cand ivs) (datesOf cand)
  ∧ ∀ date,
      date ∈ findOverlappingDays cand ivs
      ↔ (∃ slot, slot ∈ slotsOf cand ∧ ts_date slot = date)
        ∧ (∃ slot, slot ∈ slotsOf ivs ∧ ts_date slot = date).
Proof.
  split; [apply findOverlappingDays_NoDup|]. split.
  - apply sublist_filter.
  - apply elem_of_findOverlappingDays.
Qed.

(** No shared date, no slot: when [findOverlappingDays] finds nothing,
    so does [findOverlappingSlots]. *)
Lemma findOverlappingSlots_needs_shared_day cand ivs options :
  findOverlappingDays cand ivs = [] →
  findOverlappingSlots cand ivs options = Some [].
Proof.
  intros Hdays. apply findOverlappingSlots_nil. intros avail Hav.
  apply findOverlappingSlots_no_common_date. intros slot a c Hslot Ha Hc Hdate.
  assert (ts_date slot ∈ findOverlappingDays cand ivs) as Hin.
  { apply elem_of_findOverlappingDays. split.
    - exists c. split; [|done]. apply elem_of_slotsOf. eauto.
    - exists slot. split; [|done]. apply elem_of_slotsOf. eauto. }
  rewrite Hdays in Hin. by apply elem_of_nil in Hin.
Qed.

(** ** The availability summary *)

Lemma totalSlots_length availability :
  totalSlots availability = length (slotsOf availability).
Proof.
  unfold totalSlots, slotsOf.
  assert (∀ n, foldl (λ sum avail, (sum + length (time_slots avail))%nat) n availability
               = (n + length (concat (map time_slots availability)))%nat) as G.
  { induction availability as [|a l IH]; intros n; cbn [foldl map concat].
    - cbn. lia.
    - rewrite IH, length_app. lia. }
  apply (G O).
Qed.

Lemma mapGet_mapPush_eq {V} k k' (v : V) m :
  mapGet k (mapPush k' v m)
  = if bool_decide (k' = k) then mapGet k m ++ [v] else mapGet k m.
Proof.
  induction m as [|[k0 vs] m IH]; cbn [mapPush mapGet].
  - by case_bool_decide.
  - destruct (decide (k0 = k')) as [->|Hne].
    + rewrite (bool_decide_eq_true_2 (k' = k')) by done. cbn [mapGet].
      by case_bool_decide.
    + rewrite (bool_decide_eq_false_2 (k0 = k')) by done. cbn [mapGet].
      rewrite IH. destruct (decide (k0 = k)) as [->|Hne'].
      * rewrite (bool_decide_eq_true_2 (k = k)) by done.
        rewrite (bool_decide_eq_false_2 (k' = k)); [done|congruence].
      * by rewrite (bool_decide_eq_false_2 (k0 = k)) by done.
Qed.

Lemma sum_lengths_mapPush {V} k (v : V) m :
  sum_list (map (λ entry, length entry.2) (mapPush k v m))
  = S (sum_list (map (λ entry : string * list V, length entry.2) m)).
Proof.
  induction m as [|[k0 vs] m IH]; cbn [mapPush]; [done|].
  case_bool_decide; cbn [map sum_list snd].
  - rewrite length_app. cbn. lia.
  - rewrite IH. lia.
Qed.

Lemma mapGet_entry {V} k (vs : list V) m :
  NoDup (map fst m) → (k, vs) ∈ m → mapGet k m = vs.
Proof.
  induction m as [|[k0 vs0] m IH]; intros Hnd Hin; [by apply elem_of_nil in Hin|].
  cbn [map fst] in Hnd. apply NoDup_cons in Hnd as [Hk0 Hnd]. cbn [mapGet].
  apply elem_of_cons in Hin as [[= -> ->]|Hin].
  - by rewrite bool_decide_eq_true_2.
  - rewrite bool_decide_eq_false_2; [by apply IH|].
    intros ->. apply Hk0, list_elem_of_In, in_map_iff. exists (k, vs).
    by rewrite <- list_elem_of_In.
Qed.

Lemma dateMap_fold slots (m : list (string * list SlotSummary)) :
  let m' := foldl (λ m slot, mapPush (ts_date slot) (slotSummaryOf slot) m) m slots in
  map fst m' = foldl setAdd (map fst m) (map ts_date slots)
  ∧ sum_list (map (λ entry, length entry.2) m')
    = (sum_list (map (λ entry, length entry.2) m) + length slots)%nat
  ∧ ∀ date, mapGet date m'
            = mapGet date m
              ++ map slotSummaryOf (filter (λ slot, ts_date slot = date) slots).
Proof.
  revert m. induction slots as [|slot slots IH]; intros m; cbn [foldl].
  { cbn. split; [done|]. split; [lia|]. intros. by rewrite app_nil_r. }
  destruct (IH (mapPush (ts_date slot) (slotSummaryOf slot) m)) as (Hk & Hs & Hg).
  cbv zeta. split; [|split].
  - rewrite Hk, map_fst_mapPush. done.
  - rewrite Hs, sum_lengths_mapPush. cbn [length]. lia.
  - intros date. rewrite Hg, mapGet_mapPush_eq, filter_cons.
    destruct (decide (ts_date slot = date)) as [Heq|Hne].
    + rewrite bool_decide_eq_true_2 by done. by rewrite <- app_assoc.
    + by rewrite bool_decide_eq_false_2 by done.
Qed.

Lemma dateMapOf_accounts availability :
  let m := dateMapOf availability in
  map fst m = datesOf availability
  ∧ sum_list (map (λ entry, length entry.2) m) = length (slotsOf availability)
  ∧ ∀ date slots,
      (date, slots) ∈ m →
      slots = map slotSummaryOf
                (filter (λ slot, ts_date slot = date) (slotsOf availability)).
Proof.
  destruct (dateMap_fold (slotsOf availability) []) as (Hk & Hs & Hg).
  cbv zeta. unfold dateMapOf. fold (slotsOf availability).
  change (λ (m : list (string * list SlotSummary)) (slot : TimeSlot),
            mapPush (ts_date slot)
              {| ss_start := ts_start slot; ss_end := ts_end slot;
                 duration_minutes :=
                   timeDifference (parseTime (ts_start slot)) (parseTime (ts_end slot)) |}
              m)
    with (λ (m : list (string * list SlotSummary)) (slot : TimeSlot),
            mapPush (ts_date slot) (slotSummaryOf slot) m).
  split; [exact Hk|]. split; [exact Hs|].
  intros date slots Hin.
  change (map slotSummaryOf (filter (λ slot, ts_date slot = date) (slotsOf availability)))
    with (mapGet date (@nil (string * list SlotSummary))
          ++ map slotSummaryOf
               (filter (λ slot, ts_date slot = date) (slotsOf availability))).
  rewrite <- (Hg date). symmetry.
  apply mapGet_entry; [|done]. rewrite Hk. apply foldl_setAdd_NoDup, NoDup_nil_2.
Qed.

(** ** The records of one interviewer *)

Lemma mapGet_interviewerMapOf_records ivs interviewerId :
  mapGet interviewerId (interviewerMapOf ivs) = recordsOf interviewerId ivs.
Proof.
  unfold interviewerMapOf, recordsOf.
  change (filter (λ avail, user_id avail = interviewerId) ivs)
    with (mapGet interviewerId (@nil (string * list (Availability TimeSlot)))
          ++ filter (λ avail, user_id avail = interviewerId) ivs).
  generalize (@nil (string * list (Availability TimeSlot))).
  induction ivs as [|a ivs IH]; intros m; cbn [foldl].
  - by rewrite app_nil_r.
  - rewrite IH, mapGet_mapPush_eq, filter_cons.
    destruct (decide (user_id a = interviewerId)) as [Heq|Hne].
    + rewrite bool_decide_eq_true_2 by done. by rewrite <- app_assoc.
    + by rewrite bool_decide_eq_false_2 by done.
Qed.

(** ** The second pass *)

Lemma forOf_pass1_slots_found cand imap options users ids :
  ∀ st st',
    forOf (pass1Step cand imap options users) st ids = Some st' →
    ∀ id, id ∈ ids → is_Some (findOverlappingSlots cand (mapGet id imap) options).
Proof.
  induction ids as [|id0 ids IH]; cbn; intros st st' H id Hid.
  { by apply elem_of_nil in Hid. }
  destruct (pass1Step cand imap options users st id0) as [st1|] eqn:E;
    cbn in H; [|done].
  apply elem_of_cons in Hid as [->|Hid]; [|by eapply IH].
  unfold pass1Step in E.
  by destruct (findOverlappingSlots _ _ _) as [slots|].
Qed.

Lemma pass2_stays cand imap options users ids :
  ∀ st,
    st.2 = map proposedOf st.1 →
    (∀ id, id ∈ ids →
       allTaken cand imap options st.2 id
       ∧ is_Some (findOverlappingSlots cand (mapGet id imap) options)) →
    forOf (pass2Step cand imap options users) st ids = Some st.
Proof.
  induction ids as [|id ids IH]; cbn [forOf]; intros st Hused Htaken; [done|].
  destruct (Htaken id (list_elem_of_here _ _)) as [Hall [slots Hslots]].
  assert (pass2Step cand imap options users st id = Some st) as ->.
  { unfold pass2Step. rewrite Hslots, option_bind_some.
    destruct (List.find _ slots) as [slot|] eqn:F; [|done].
    apply find_some in F as [Hin F]. apply negb_true_iff in F.
    rewrite <- pass_checks_equal, <- Hused in F.
    rewrite (Hall slots slot Hslots) in F; [done|]. by apply list_elem_of_In. }
  rewrite option_bind_some. apply IH; [done|].
  intros. by apply Htaken, list_elem_of_further.
Qed.

(** The second pass never adds an interview: the assigner returns the
    list its first loop has built. *)
Lemma second_pass_drops cand ivs options users :
  findIndividualInterviews cand ivs options users
  = (st ← forOf (pass1Step cand (interviewerMapOf ivs) options users) ([], [])
            (map fst (interviewerMapOf ivs));
     Some st.1).
Proof.
  unfold findIndividualInterviews.
  destruct (forOf (pass1Step _ _ _ _) _ _) as [st1|] eqn:E1; [|done].
  rewrite !option_bind_some.
  assert (assignInv (orElse (bufferTime options) 15) st1) as [I1 _].
  { eapply (forOf_inv _ _ _ (pass1Step_inv cand _ options users)); [|exact E1].
    split; [done|]. intros i j ? ? _ Hi. simpl in Hi. by rewrite lookup_nil in Hi. }
  rewrite pass2_stays; [done..|].
  intros id Hid. unfold unscheduledOf in Hid.
  apply list_elem_of_filter in Hid as [Hnot Hid]. split.
  - by destruct (pass1_scheduled_or_taken _ _ _ _ _ _ _ E1 id Hid).
  - by eapply forOf_pass1_slots_found.
Qed.

(** X11. The second pass of the assigner never adds an interview:
    [findIndividualInterviews] returns what its first pass has scheduled,
    and throws exactly when the first pass does. *)
Theorem second_pass_adds_nothing cand ivs options users :
  findIndividualInterviews cand ivs options users
  = (st ← forOf (pass1Step cand (interviewerMapOf ivs) options users) ([], [])
            (map fst (interviewerMapOf ivs));
     Some st.1).
Proof. apply second_pass_drops. Qed.

(** ** First fit *)

Lemma firstFit_snoc cand ivs options users found id slots slot :
  firstFit cand ivs options users found →
  findOverlappingSlots cand (recordsOf id ivs) options = Some slots →
  List.find (freeAfter options found) slots = Some slot →
  firstFit cand ivs options users (found ++ [assignTo users id slot]).
Proof.
  intros Hfound Hslots Hfind before m after Heq.
  destruct after as [|a after' _] using rev_ind.
  - apply app_inj_tail in Heq as [<- <-]. by exists id, slots, slot.
  - rewrite app_comm_cons, app_assoc in Heq.
    apply app_inj_tail in Heq as [-> _]. by eapply Hfound.
Qed.

Lemma forOf_pass1_firstFit cand ivs options users ids :
  ∀ st st',
    st.2 = map proposedOf st.1 →
    firstFit cand ivs options users st.1 →
    forOf (pass1Step cand (interviewerMapOf ivs) options users) st ids = Some st' →
    st'.2 = map proposedOf st'.1 ∧ firstFit cand ivs options users st'.1.
Proof.
  induction ids as [|id ids IH]; cbn; intros st st' Hused Hfit H.
  { by simplify_eq. }
  destruct (pass1Step _ _ _ _ st id) as [st1|] eqn:E; cbn in H; [|done].
  eapply (IH st1); [| |exact H];
    unfold pass1Step in E; rewrite mapGet_interviewerMapOf_records in E;
    destruct (findOverlappingSlots _ _ _) as [slots|] eqn:Hs; cbn in E; try done;
    rewrite Hused in E;
    destruct (List.find _ slots) as [slot|] eqn:F; simplify_eq; try done.
  - cbn. by rewrite Hused, map_app.
  - cbn. by eapply firstFit_snoc.
Qed.

Lemma findIndividualInterviews_firstFit cand ivs options users found :
  findIndividualInterviews cand ivs options users = Some found →
  firstFit cand ivs options users found.
Proof.
  intros H. apply findIndividualInterviews_is_pass1 in H as [used H].
  eapply (forOf_pass1_firstFit cand ivs options users _ ([], []) (found, used));
    [done| |exact H].
  intros before m after Heq. by destruct before.
Qed.

(** X12. The assigner is a first fit: every interview it returns is the
    first slot, among those found for its interviewer's records, that is
    free for the candidate next to the interviews returned before it. *)
Theorem findIndividualInterviews_first_fit cand ivs options users found :
  findIndividualInterviews cand ivs options users = Some found →
  firstFit cand ivs options users found.
Proof. apply findIndividualInterviews_firstFit. Qed.

Lemma findIndividualInterviews_first_fit_witness :
  firstFit oneCandidate [interviewer1; interviewer2] options3015 None [interview1].
Proof.
  apply (findIndividualInterviews_first_fit oneCandidate [interviewer1; interviewer2]
           options3015 None [interview1]).
  vm_compute. reflexivity.
Defined.

(** ** Who is left out *)

(** An interviewer of the request without an interview in the result has
    no free slot left: every slot found for that interviewer conflicts
    with an interview of the result. *)
Lemma left_out_without_free_slot cand ivs options users found id :
  findIndividualInterviews cand ivs options users = Some found →
  id ∈ map user_id ivs →
  Some id ∉ map interviewer_id found →
  ∃ slots,
    findOverlappingSlots cand (recordsOf id ivs) options = Some slots
    ∧ Forall (λ slot, freeAfter options found slot = false) slots.
Proof.
  intros H Hid Hout. apply findIndividualInterviews_is_pass1 in H as [used H].
  assert (id ∈ encounterOrder ivs) as Hid'.
  { unfold encounterOrder. apply foldl_setAdd_elem. by right. }
  destruct (forOf_pass1_slots_found _ _ _ _ _ _ _ H id Hid') as [slots Hslots].
  destruct (pass1_scheduled_or_taken _ _ _ _ _ _ _ H id Hid') as [Hin|Htaken]; [done|].
  assert (used = map proposedOf found) as ->.
  { eapply (forOf_pass1_firstFit cand ivs options users _ ([], []) (found, used));
      [done| |exact H]. intros before m after Heq. by destruct before. }
  rewrite mapGet_interviewerMapOf_records in Hslots.
  exists slots. split; [done|]. apply Forall_forall. intros slot Hslot.
  unfold freeAfter. apply negb_false_iff.
  eapply Htaken; [|done]. by rewrite mapGet_interviewerMapOf_records.
Qed.

(** X13. An interviewer of the request is left out of the result only
    when none of the slots found for that interviewer is free for the
    candidate next to the interviews that were scheduled. *)
Theorem left_out_only_without_free_slot cand ivs options users found id :
  findIndividualInterviews cand ivs options users = Some found →
  id ∈ map user_id ivs →
  Some id ∉ map interviewer_id found →
  ∃ slots,
    findOverlappingSlots cand (recordsOf id ivs) options = Some slots
    ∧ Forall (λ slot, freeAfter options found slot = false) slots.
Proof. apply left_out_without_free_slot. Qed.

Lemma left_out_only_without_free_slot_witness :
  ∃ slots,
    findOverlappingSlots oneCandidate
      (recordsOf "interviewer-2" [interviewer1; interviewer2]) options3015 = Some slots
    ∧ Forall (λ slot, freeAfter options3015 [interview1] slot = false) slots.
Proof.
  apply (left_out_only_without_free_slot oneCandidate [interviewer1; interviewer2]
           options3015 None [interview1] "interviewer-2").
  - vm_compute. reflexivity.
  - apply list_elem_of_further, list_elem_of_here.
  - intros H. apply list_elem_of_singleton in H. discriminate H.
Defined.

(** ** The accepted time format *)

Lemma minuteOfDay_timeOfDay s t : minuteOfDay s = Some t → timeOfDay s t.
Proof.
  unfold minuteOfDay. destruct (totalMinutes (parseTime s)) as [|z]; [done|].
  destruct (_ && _) eqn:E; [|done]. intros [= <-].
  apply andb_true_iff in E as [E P]. apply andb_true_iff in E as [L U].
  apply bool_decide_eq_true in P. split; [lia|done].
Qed.

Lemma formatCheck5_all :
  forallb (λ h1, forallb (λ h2, forallb (λ m1, forallb (formatCheck5 h1 h2 m1)
    digitChars) digitChars) digitChars) digitChars = true.
Proof. vm_compute. reflexivity. Qed.

Lemma formatCheck4_all :
  forallb (λ h, forallb (λ m1, forallb (formatCheck4 h m1)
    digitChars) digitChars) digitChars = true.
Proof. vm_compute. reflexivity. Qed.

Lemma tens_isDigit c :
  Ascii.leb "0" c && Ascii.leb c "5" = true → isDigit c = true.
Proof. destruct c as [[] [] [] [] [] [] [] []]; intros H; solve [discriminate H | reflexivity]. Qed.

Lemma units_isDigit c :
  Ascii.leb "0" c && Ascii.leb c "3" = true → isDigit c = true.
Proof. destruct c as [[] [] [] [] [] [] [] []]; intros H; solve [discriminate H | reflexivity]. Qed.

Lemma In_digitChars4 (P : ascii → ascii → ascii → ascii → bool) a b c d :
  forallb (λ a, forallb (λ b, forallb (λ c, forallb (P a b c)
    digitChars) digitChars) digitChars) digitChars = true →
  isDigit a = true → isDigit b = true → isDigit c = true → isDigit d = true →
  P a b c d = true.
Proof.
  intros A Da Db Dc Dd.
  rewrite forallb_forall in A. specialize (A a (isDigit_digitChars _ Da)).
  rewrite forallb_forall in A. specialize (A b (isDigit_digitChars _ Db)).
  rewrite forallb_forall in A. specialize (A c (isDigit_digitChars _ Dc)).
  rewrite forallb_forall in A. exact (A d (isDigit_digitChars _ Dd)).
Qed.

(** A string accepted by [isValidTimeFormat] parses to a minute of the day. *)
Lemma isValidTimeFormat_timeOfDay s :
  isValidTimeFormat s = true → ∃ t, timeOfDay s t.
Proof.
  intros H. pose proof H as Hs. unfold isValidTimeFormat in H.
  assert (s = string_of_list_ascii (list_ascii_of_string s)) as Es
    by (symmetry; apply string_of_list_ascii_of_string).
  destruct (list_ascii_of_string s) as [|a [|b [|c [|d [|e [|? ?]]]]]];
    try discriminate.
  - (* H:MM *)
    apply andb_true_iff in H as [H Hm]. apply andb_true_iff in H as [Dh Hc].
    apply andb_true_iff in Hm as [Hm1 Dm2].
    apply tens_isDigit in Hm1. apply Ascii.eqb_eq in Hc. subst b.
    pose proof formatCheck4_all as A.
    rewrite forallb_forall in A. specialize (A a (isDigit_digitChars _ Dh)).
    rewrite forallb_forall in A. specialize (A c (isDigit_digitChars _ Hm1)).
    rewrite forallb_forall in A. specialize (A d (isDigit_digitChars _ Dm2)).
    unfold formatCheck4 in A. rewrite <- Es, Hs in A. cbn [implb] in A.
    apply bool_decide_eq_true in A as [t Ht].
    exists t. by apply minuteOfDay_timeOfDay.
  - (* HH:MM *)
    apply andb_true_iff in H as [H Hm]. apply andb_true_iff in H as [Hh Hc].
    apply andb_true_iff in Hm as [Hm1 Dm2].
    apply tens_isDigit in Hm1. apply Ascii.eqb_eq in Hc. subst c.
    assert (isDigit a = true ∧ isDigit b = true) as [Da Db].
    { apply orb_true_iff in Hh as [Hh|Hh].
      - apply andb_true_iff in Hh as [Ha Db]. split; [|done].
        apply orb_true_iff in Ha as [Ha|Ha]; apply Ascii.eqb_eq in Ha; by subst a.
      - apply andb_true_iff in Hh as [Hh U]. apply andb_true_iff in Hh as [Ha L].
        apply Ascii.eqb_eq in Ha. subst a. split; [done|].
        apply units_isDigit. by rewrite L, U. }
    pose proof (In_digitChars4 formatCheck5 a b d e formatCheck5_all Da Db Hm1 Dm2) as A.
    unfold formatCheck5 in A. rewrite <- Es, Hs in A. cbn [implb] in A.
    apply bool_decide_eq_true in A as [t Ht].
    exists t. by apply minuteOfDay_timeOfDay.
Qed.

Lemma isValidTimeFormat_colon s : isValidTimeFormat s = true → includes ":" s = true.
Proof.
  intros H. unfold isValidTimeFormat in H.
  rewrite <- (string_of_list_ascii_of_string s).
  destruct (list_ascii_of_string s) as [|a [|b [|c [|d [|e [|? ?]]]]]];
    try discriminate.
  - apply andb_true_iff in H as [H _]. apply andb_true_iff in H as [_ Hc].
    apply Ascii.eqb_eq in Hc. subst b. cbn. by rewrite orb_true_r.
  - apply andb_true_iff in H as [H _]. apply andb_true_iff in H as [_ Hc].
    apply Ascii.eqb_eq in Hc. subst c. cbn. by rewrite !orb_true_r.
Qed.

Lemma paddedCheck_all :
  forallb (λ h1, forallb (λ h2, forallb (λ m1, forallb (paddedCheck h1 h2 m1)
    digitChars) digitChars) digitChars) digitChars = true.
Proof. vm_compute. reflexivity. Qed.

Lemma isPaddedHHMM_valid s : isPaddedHHMM s = true → isValidTimeFormat s = true.
Proof.
  intros H. pose proof H as Hs. unfold isPaddedHHMM in H.
  assert (s = string_of_list_ascii (list_ascii_of_string s)) as Es
    by (symmetry; apply string_of_list_ascii_of_string).
  destruct (list_ascii_of_string s) as [|h1 [|h2 [|c [|m1 [|m2 [|? ?]]]]]];
    try discriminate.
  apply andb_true_iff in H as [H _]. apply andb_true_iff in H as [H _].
  apply andb_true_iff in H as [H D4]. apply andb_true_iff in H as [H D3].
  apply andb_true_iff in H as [H Hc]. apply andb_true_iff in H as [D1 D2].
  apply Ascii.eqb_eq in Hc. subst c.
  pose proof (In_digitChars4 paddedCheck h1 h2 m1 m2 paddedCheck_all D1 D2 D3 D4) as A.
  unfold paddedCheck in A. by rewrite <- Es, Hs in A.
Qed.

(** X14. The time format accepted by the validator is closed under the
    engine's arithmetic: an accepted string is a time of day, and adding
    minutes to it gives an accepted string again. *)
Theorem isValidTimeFormat_closed s d :
  isValidTimeFormat s = true → 0 ≤ d →
  (∃ t, timeOfDay s t)
  ∧ ∃ s', addMinutesToTime s d = Some s' ∧ isValidTimeFormat s' = true.
Proof.
  intros Hs Hd. destruct (isValidTimeFormat_timeOfDay s Hs) as [t Ht].
  split; [by exists t|].
  destruct (addMinutesToTime_wraps_to s t d Ht) as (s' & Hs' & _ & Hp).
  { destruct Ht. lia. }
  exists s'. split; [done|]. by apply isPaddedHHMM_valid.
Qed.

Lemma isValidTimeFormat_closed_witness :
  (∃ t, timeOfDay "9:05" t)
  ∧ ∃ s', addMinutesToTime "9:05" 1000 = Some s' ∧ isValidTimeFormat s' = true.
Proof. apply (isValidTimeFormat_closed "9:05" 1000); [reflexivity|lia]. Defined.

(** ** What a valid availability is *)

Lemma concat_eq_nil {A} (ls : list (list A)) : concat ls = [] ↔ Forall (λ l, l = []) ls.
Proof.
  induction ls as [|l ls IH]; cbn [concat].
  - split; [constructor|done].
  - rewrite Forall_cons, <- IH. destruct l; cbn; [tauto|].
    split; [done|]. by intros [? _].
Qed.

Lemma Forall_imap {A B} (f : nat → A → B) (P : B → Prop) (l : list A) :
  Forall P (imap f l) ↔ ∀ i x, l !! i = Some x → P (f i x).
Proof.
  rewrite Forall_forall. split.
  - intros H i x Hi. apply H. by eapply elem_of_lookup_imap_2.
  - intros H y Hy. apply elem_of_lookup_imap in Hy as (i & x & -> & Hi). eauto.
Qed.

Lemma slotErrors_nil index slotIndex slot :
  slotErrors index slotIndex slot = [] ↔ slotPasses slot = true.
Proof.
  unfold slotErrors, slotPasses.
  destruct (isValidDateFormat _), (isValidTimeFormat (ts_start slot)),
    (isValidTimeFormat (ts_end slot)), (ge _ _); cbn; split; congruence.
Qed.

Lemma validateAvailability_valid availability :
  valid (validateAvailability availability) = true
  ↔ availability ≠ []
    ∧ ∀ avail, avail ∈ availability →
        time_slots avail ≠ []
        ∧ ∀ slot, slot ∈ time_slots avail → slotPasses slot = true.
Proof.
  unfold validateAvailability. destruct availability as [|a0 rest].
  { cbn. split; [done|]. by intros [? _]. }
  set (availability := a0 :: rest). cbn [valid].
  rewrite bool_decide_eq_true, concat_eq_nil, Forall_imap.
  split.
  - intros H. split; [done|]. intros avail Hav.
    apply list_elem_of_lookup in Hav as [i Hi]. specialize (H i avail Hi).
    destruct (time_slots avail) as [|s0 slots] eqn:Es; [done|]. split; [done|].
    intros slot Hslot. apply list_elem_of_lookup in Hslot as [j Hj].
    rewrite concat_eq_nil, Forall_imap in H.
    by apply (slotErrors_nil i j), H.
  - intros [_ H] i avail Hi.
    destruct (H avail (list_elem_of_lookup_2 _ _ _ Hi)) as [Hne Hslots].
    destruct (time_slots avail) as [|s0 slots] eqn:Es; [done|].
    rewrite concat_eq_nil, Forall_imap. intros j slot Hj.
    apply slotErrors_nil, Hslots. by eapply list_elem_of_lookup_2.
Qed.

(** X15. [validateAvailability] answers [valid: true] exactly when there
    is an availability record, every record has a slot, and every slot has
    a date of the shape [dddd-dd-dd], two times of the accepted format and
    a start hour below its end hour; and exactly when it lists no error. *)
Theorem validateAvailability_valid_iff availability :
  (valid (validateAvailability availability) = true
   ↔ availability ≠ []
     ∧ ∀ avail, avail ∈ availability →
         time_slots avail ≠ []
         ∧ ∀ slot, slot ∈ time_slots avail → slotPasses slot = true)
  ∧ (valid (validateAvailability availability) = true
     ↔ errors (validateAvailability availability) = []).
Proof.
  split; [apply validateAvailability_valid|].
  unfold validateAvailability. destruct availability as [|a0 rest]; [done|].
  cbn [valid errors]. apply bool_decide_eq_true.
Qed.

Lemma slotPasses_window slot :
  slotPasses slot = true →
  isValidDateFormat (ts_date slot) = true
  ∧ ∃ s e, timeOfDay (ts_start slot) s ∧ timeOfDay (ts_end slot) e ∧ s / 60 < e / 60.
Proof.
  unfold slotPasses. intros H.
  apply andb_true_iff in H as [H Hr]. apply andb_true_iff in H as [H He].
  apply andb_true_iff in H as [Hd Hs]. split; [done|].
  destruct (isValidTimeFormat_timeOfDay _ Hs) as [s Ts].
  destruct (isValidTimeFormat_timeOfDay _ He) as [e Te].
  exists s, e. split; [done|]. split; [done|].
  destruct Ts as [_ Ps], Te as [_ Pe]. rewrite Ps, Pe in Hr. cbn in Hr.
  apply negb_true_iff, Z.leb_gt in Hr. lia.
Qed.

(** Every slot of a valid availability is a window of one day that opens
    before it closes. *)
Lemma valid_slots_are_windows_aux availability slot :
  valid (validateAvailability availability) = true →
  slot ∈ slotsOf availability →
  ∃ s e, timeOfDay (ts_start slot) s ∧ timeOfDay (ts_end slot) e
         ∧ s < e ∧ ts_date slot ≠ "".
Proof.
  intros Hv Hslot. apply validateAvailability_valid in Hv as [_ Hv].
  apply elem_of_slotsOf in Hslot as (avail & Hav & Hslot).
  destruct (Hv avail Hav) as [_ Hs].
  destruct (slotPasses_window slot (Hs slot Hslot)) as (Hd & s & e & Ts & Te & Hlt).
  exists s, e. split; [done|]. split; [done|]. split.
  - pose proof (Z.div_mod s 60 ltac:(lia)). pose proof (Z.div_mod e 60 ltac:(lia)).
    pose proof (Z.mod_pos_bound s 60 ltac:(lia)).
    pose proof (Z.mod_pos_bound e 60 ltac:(lia)). lia.
  - intros E. by rewrite E in Hd.
Qed.

(** X16. Every slot of an availability that passes [validateAvailability]
    is a window: its start and end are times of day, the start is before
    the end, and its date is not empty. *)
Theorem valid_slots_are_windows availability slot :
  valid (validateAvailability availability) = true →
  slot ∈ slotsOf availability →
  ∃ s e, timeOfDay (ts_start slot) s ∧ timeOfDay (ts_end slot) e
         ∧ s < e ∧ ts_date slot ≠ "".
Proof. apply valid_slots_are_windows_aux. Qed.

Lemma valid_slots_are_windows_witness :
  ∃ s e, timeOfDay "09:00" s ∧ timeOfDay "10:00" e ∧ s < e ∧ "2024-01-10" ≠ "".
Proof.
  apply (valid_slots_are_windows oneCandidate window0910).
  - reflexivity.
  - apply list_elem_of_here.
Defined.

(** ** A validated request *)

Lemma mapM_Some_elem_1 {A B} (f : A → option B) xs ys x :
  mapM f xs = Some ys → x ∈ xs → ∃ y, y ∈ ys ∧ f x = Some y.
Proof.
  intros H Hx. apply mapM_Some in H.
  induction H as [|x' y xs ys Hxy _ IH]; [by apply elem_of_nil in Hx|].
  apply elem_of_cons in Hx as [->|Hx].
  - exists y. split; [apply list_elem_of_here|done].
  - destruct (IH Hx) as (y' & ? & ?). exists y'.
    split; [by apply list_elem_of_further|done].
Qed.

Lemma availabilityAt_loaded h availability loaded a l :
  availabilityAt h availability = Some loaded →
  a ∈ availability → l ∈ time_slots a →
  ∃ slot, slotAt h l = Some slot ∧ slot ∈ slotsOf loaded.
Proof.
  intros H Ha Hl. unfold availabilityAt in H.
  destruct (mapM_Some_elem_1 _ _ _ _ H Ha) as (avail & Hav & Hload).
  destruct (mapM (slotAt h) (time_slots a)) as [slots|] eqn:E; [|done].
  injection Hload as <-.
  destruct (mapM_Some_elem_1 _ _ _ _ E Hl) as (slot & Hslot & Hs).
  exists slot. split; [done|]. apply elem_of_slotsOf. eauto.
Qed.

Lemma datesPresent_loaded h request ivs :
  availabilityAt h (interviewer_availability request) = Some ivs →
  (∀ slot, slot ∈ slotsOf ivs → ts_date slot ≠ "") →
  datesPresent h request = true.
Proof.
  intros Hivs Hdated. unfold datesPresent.
  apply forallb_forall. intros a Ha. apply forallb_forall. intros l Hl.
  apply list_elem_of_In in Ha, Hl.
  destruct (availabilityAt_loaded _ _ _ _ _ Hivs Ha Hl) as (slot & -> & Hslot).
  apply negb_true_iff, bool_decide_eq_false. by apply Hdated.
Qed.

Lemma valid_startsHaveColon availability :
  valid (validateAvailability availability) = true → startsHaveColon availability.
Proof.
  intros Hv avail slot Hav Hslot.
  apply validateAvailability_valid in Hv as [_ Hv].
  destruct (Hv avail Hav) as [_ Hs]. specialize (Hs slot Hslot).
  unfold slotPasses in Hs.
  apply andb_true_iff in Hs as [Hs _]. apply andb_true_iff in Hs as [Hs _].
  apply andb_true_iff in Hs as [_ Hs]. by apply isValidTimeFormat_colon.
Qed.

Lemma mapM_fmap_None {A B D} (f : A → option B) (g : A → B → D) xs x :
  x ∈ xs → f x = None → mapM (λ x, g x <$> f x) xs = None.
Proof.
  intros Hx Hf. apply mapM_None, Exists_exists. exists x. split; [done|].
  by rewrite Hf.
Qed.

Lemma mapM_fmap_is_Some {A B D} (f : A → option B) (g : A → B → D) xs :
  (∀ x, x ∈ xs → is_Some (f x)) → is_Some (mapM (λ x, g x <$> f x) xs).
Proof.
  intros H. apply mapM_is_Some, Forall_forall. intros x Hx.
  destruct (H x Hx) as [y Hy]. cbn. rewrite Hy. by eexists.
Qed.

(** The response builder fails exactly when a date library throws on one
    of the interviews. *)
Lemma responseOf_outcome C request opts summary m found :
  (libraryThrowsOn C (timezone request) (m :: found)
   ∧ responseOf C request opts (Some summary) (m :: found) = None)
  ∨ (¬ libraryThrowsOn C (timezone request) (m :: found)
     ∧ is_Some (responseOf C request opts (Some summary) (m :: found))).
Proof.
  set (tz := timezone request).
  assert (∀ x, x ∈ m :: found → scheduledTimeOf C tz x = None →
            responseOf C request opts (Some summary) (m :: found) = None) as Hnone.
  { intros x Hx Hf. unfold responseOf. fold tz. cbn [head].
    rewrite option_bind_some.
    destruct (scheduledTimeOf C tz m); [|done]. rewrite option_bind_some.
    destruct (messageOf _ _ _ _); [|done]. rewrite option_bind_some.
    destruct (mapM _ (slice _ _ _)); [|done]. rewrite option_bind_some.
    by rewrite (mapM_fmap_None _ slotReportOf (m :: found) x Hx Hf). }
  destruct (mapM (scheduledTimeOf C tz) (m :: found)) as [ts|] eqn:E.
  2:{ left. apply mapM_None, Exists_exists in E as (x & Hx & Hf).
      split; [left; by exists x|]. by apply (Hnone x). }
  assert (∀ x, x ∈ m :: found → is_Some (scheduledTimeOf C tz x)) as Hs.
  { intros x Hx. pose proof (mapM_is_Some_1 _ _ (mk_is_Some _ _ E)) as Hall.
    rewrite Forall_forall in Hall. by apply Hall. }
  destruct (formatDate C (m_date m)) as [d|] eqn:Ed.
  - right. split.
    + intros [(x & Hx & Hf)|(first & Hh & Hf)].
      * destruct (Hs x Hx) as [? ?]. congruence.
      * cbn in Hh. injection Hh as <-. congruence.
    + unfold responseOf. fold tz. cbn [head]. rewrite option_bind_some.
      destruct (Hs m) as [t ->]; [apply list_elem_of_here|].
      rewrite option_bind_some.
      assert (is_Some (messageOf C (m :: found) tz (orElse (bufferTime opts) 15)))
        as [msg ->].
      { unfold messageOf, formatScheduleMessage. rewrite Ed. destruct found; by eexists. }
      rewrite option_bind_some.
      assert (is_Some (mapM (scheduledTimeOf C tz)
                         (slice 1 (maxSuggestions opts) (m :: found)))) as [sug ->].
      { apply mapM_is_Some, Forall_forall. intros x Hx. apply Hs.
        by eapply elem_of_slice. }
      rewrite option_bind_some.
      destruct (mapM_fmap_is_Some (scheduledTimeOf C tz) slotReportOf (m :: found) Hs) as [sl ->].
      rewrite !option_bind_some.
      destruct (mapM_fmap_is_Some (scheduledTimeOf C tz) interviewReportOf (m :: found) Hs)
        as [ints ->].
      rewrite option_bind_some. by eexists.
  - left. split; [right; by exists m|].
    unfold responseOf. fold tz. cbn [head]. rewrite option_bind_some.
    destruct (scheduledTimeOf C tz m); [|done]. rewrite option_bind_some.
    assert (messageOf C (m :: found) tz (orElse (bufferTime opts) 15) = None) as ->.
    { unfold messageOf, formatScheduleMessage. rewrite Ed. by destruct found. }
    done.
Qed.

Lemma validated_outcome today C request options h cand ivs :
  availabilityAt h (candidate_availability request) = Some cand →
  availabilityAt h (interviewer_availability request) = Some ivs →
  valid (validateAvailability cand) = true →
  valid (validateAvailability ivs) = true →
  let response := (findOptimalSchedule today C request options h).2 in
  ∃ found,
    findIndividualInterviews cand ivs
      (mergeOptions options (interview_duration request)) (users request) = Some found
    ∧ match found with
      | [] => response = noOverlapResponse
      | _ =>
          (libraryThrowsOn C (timezone request) found ∧ response = failedResponse)
          ∨ (¬ libraryThrowsOn C (timezone request) found ∧ success response = true)
      end.
Proof.
  intros Hc Hi Vc Vi response.
  assert (datesPresent h request = true) as Hd.
  { eapply datesPresent_loaded; [done|]. intros slot Hslot.
    by destruct (valid_slots_are_windows_aux ivs slot Vi Hslot) as (? & ? & ? & ? & ? & ?). }
  destruct (findIndividualInterviews_Some cand ivs
              (mergeOptions options (interview_duration request)) (users request))
    as [found Hf]; [by apply valid_startsHaveColon..|].
  exists found. split; [done|].
  unfold response. rewrite findOptimalSchedule_dated by done. cbn [snd].
  unfold scheduleOf. rewrite Hc, Hi, Hf.
  destruct found as [|m found]; [done|].
  cbn [snd]. unfold summaryAt. rewrite !availabilityAt_fresh_matches, Hc, Hi.
  rewrite !option_bind_some.
  destruct (responseOf_outcome C request
              (mergeOptions options (interview_duration request))
              (summaryOf cand ivs) m found) as [[Ht ->]|[Ht [r Hr]]].
  - by left.
  - right. split; [done|]. rewrite Hr. cbn [from_option id].
    by destruct (responseOf_interviews _ _ _ _ _ _ Hr) as [? _].
Qed.

(** X17. On a request whose two availability lists pass
    [validateAvailability], only the date libraries can make
    [findOptimalSchedule] fail: the response is the failure response
    exactly when [zonedTimeToUtc] throws on one of the interviews the
    assigner has found or [format] throws on the date of the first, and
    otherwise it is a success or the no-overlap response. *)
Theorem validated_request_fails_only_in_library today C request options h cand ivs :
  availabilityAt h (candidate_availability request) = Some cand →
  availabilityAt h (interviewer_availability request) = Some ivs →
  valid (validateAvailability cand) = true →
  valid (validateAvailability ivs) = true →
  let response := (findOptimalSchedule today C request options h).2 in
  ∃ found,
    findIndividualInterviews cand ivs
      (mergeOptions options (interview_duration request)) (users request) = Some found
    ∧ (response = failedResponse ↔ libraryThrowsOn C (timezone request) found)
    ∧ (response ≠ failedResponse →
       success response = true ∨ response = noOverlapResponse).
Proof.
  intros Hc Hi Vc Vi response.
  destruct (validated_outcome today C request options h cand ivs Hc Hi Vc Vi)
    as (found & Hf & Hout).
  fold response in Hout. exists found. split; [done|].
  destruct found as [|m found].
  - rewrite Hout. split; [|by right]. split; [done|].
    intros [(x & Hx & _)|(x & Hx & _)]; [by apply elem_of_nil in Hx|done].
  - destruct Hout as [[Ht ->]|[Ht Hs]].
    + split; [done|]. by intros [].
    + split; [|by left]. split; [|done]. intros E. rewrite E in Hs. discriminate Hs.
Qed.

Lemma validated_request_fails_only_in_library_witness :
  let response :=
    (findOptimalSchedule "2024-01-10" utcCollaborators requestIdentical noOptions
       heapIdentical).2 in
  ∃ found,
    findIndividualInterviews oneCandidate [interviewer1; interviewer2]
      (mergeOptions noOptions 30) None = Some found
    ∧ (response = failedResponse ↔ libraryThrowsOn utcCollaborators "UTC" found)
    ∧ (response ≠ failedResponse →
       success response = true ∨ response = noOverlapResponse).
Proof.
  apply (validated_request_fails_only_in_library "2024-01-10" utcCollaborators
           requestIdentical noOptions heapIdentical oneCandidate
           [interviewer1; interviewer2]); reflexivity.
Defined.

(** The validator accepts the date 2024-13-45, and a library that
    rejects it makes the call fail. *)
Example validated_request_library_throws :
  valid (validateAvailability [mkAvailability "candidate" [window1345]]) = true
  ∧ (findOptimalSchedule "2024-01-10" strictCollaborators requestIdentical noOptions
       heapNoSuchDay).2 = failedResponse
  ∧ success (findOptimalSchedule "2024-01-10" utcCollaborators requestIdentical
               noOptions heapNoSuchDay).2 = true.
Proof. repeat split; vm_compute; reflexivity. Qed.

(** ** The fields of a response *)





(** ** The slot scorer and the statistics *)

Lemma scoreOf_range slot : 100 ≤ scoreOf slot ≤ 130.
Proof.
  unfold scoreOf.
  repeat match goal with |- context [if ?b then _ else _] => destruct b end; lia.
Qed.

Section stable.
Context {A : Type} (key : A → Z).

Lemma head_insertBy x sorted :
  head (insertBy (λ a b, key b - key a) x sorted)
  = match head sorted with
    | Some y => if key y - key x <=? 0 then Some x else Some y
    | None => Some x
    end.
Proof. destruct sorted as [|y ys]; [done|]. cbn. by destruct (_ <=? _). Qed.

Lemma head_sortBy xs :
  match head (sortBy (λ a b, key b - key a) xs) with
  | Some best => firstBest key xs best
  | None => xs = []
  end.
Proof.
  induction xs as [|x xs IH]; [done|].
  cbn [sortBy foldr]. fold (sortBy (λ a b, key b - key a) xs).
  rewrite head_insertBy.
  destruct (head (sortBy _ xs)) as [y|].
  - destruct IH as (i & Hi & Hmax & Hfirst).
    destruct (Z.leb_spec (key y - key x) 0) as [Hle|Hgt].
    + exists O. split; [done|]. split; [|intros; lia].
      intros z Hz. apply elem_of_cons in Hz as [->|Hz]; [lia|].
      specialize (Hmax z Hz). lia.
    + exists (S i). split; [done|]. split.
      * intros z Hz. apply elem_of_cons in Hz as [->|Hz]; [lia|]. by apply Hmax.
      * intros [|j] z Hj Hz; [cbn in Hz; simplify_eq; lia|].
        apply (Hfirst j); [lia|done].
  - subst xs. exists O. split; [done|]. split; [|intros; lia].
    intros z Hz. apply list_elem_of_singleton in Hz as ->. lia.
Qed.
End stable.

(** X19. [selectBestTimeSlot] returns the earliest of the slots with the
    highest score, the only slot of a one-slot list whatever its score,
    and throws on an empty list and on nothing else. *)
Theorem selectBestTimeSlot_first_best slots :
  (selectBestTimeSlot slots = None ↔ slots = [])
  ∧ ∀ best, selectBestTimeSlot slots = Some best → firstBest scoreOf slots best.
Proof.
  unfold selectBestTimeSlot.
  destruct slots as [|s0 [|s1 rest]].
  - split; [done|]. intros best H. discriminate H.
  - split; [done|]. intros best [= <-]. exists O. split; [done|]. split.
    + intros x Hx. apply list_elem_of_singleton in Hx as ->. lia.
    + intros; lia.
  - set (slots := s0 :: s1 :: rest).
    pose proof (head_sortBy (A:=TimeSlot * Z) snd (map (λ slot, (slot, scoreOf slot)) slots))
      as H.
    destruct (head (sortBy _ _)) as [[best score]|]; [|done].
    split; [done|]. intros ? [= <-]. destruct H as (i & Hi & Hmax & Hfirst).
    change (map (λ slot, (slot, scoreOf slot)) slots)
      with ((λ slot, (slot, scoreOf slot)) <$> slots) in *.
    rewrite list_lookup_fmap in Hi.
    destruct (slots !! i) as [b|] eqn:Eb; [|done]. cbn in Hi.
    injection Hi as -> <-. cbn [snd] in *.
    exists i. split; [done|]. split.
    + intros x Hx. apply (Hmax (x, scoreOf x)).
      apply list_elem_of_fmap. by exists x.
    + intros j x Hj Hx. apply (Hfirst j (x, scoreOf x) Hj).
      by rewrite list_lookup_fmap, Hx.
Qed.

Lemma selectBestTimeSlot_first_best_witness :
  firstBest scoreOf
    [mkTimeSlot "2024-01-10" "08:45" "09:45"; mkTimeSlot "2024-01-10" "09:00" "10:00";
     mkTimeSlot "2024-01-10" "10:00" "11:00"]
    (mkTimeSlot "2024-01-10" "09:00" "10:00").
Proof.
  apply (proj2 (selectBestTimeSlot_first_best _)). reflexivity.
Defined.

Lemma foldl_setAdd_NoDup_id (xs : list string) : NoDup xs → foldl setAdd [] xs = xs.
Proof.
  assert (∀ acc, NoDup (acc ++ xs) → foldl setAdd acc xs = acc ++ xs) as G.
  { induction xs as [|x xs IH]; intros acc H; cbn [foldl]; [by rewrite app_nil_r|].
    unfold setAdd. rewrite bool_decide_eq_false_2.
    - rewrite IH; rewrite <- app_assoc; done.
    - apply NoDup_app in H as (_ & H & _). intros Hin. apply (H x Hin), list_elem_of_here. }
  intros H. by apply (G []).
Qed.

Lemma sum_durations options cand ivs slots :
  findOverlappingSlots cand ivs options = Some slots →
  foldl (λ sum slot, sum + m_duration slot) 0 slots
  = duration options * Z.of_nat (length slots).
Proof.
  intros H.
  assert (Forall (λ m, m_duration m = duration options) slots) as Hd.
  { apply Forall_forall. intros m Hm.
    apply (findOverlappingSlots_matchFrom _ _ _ _ _ H) in Hm
      as (? & ? & ? & ? & _ & _ & _ & _ & _ & ->). done. }
  clear H.
  assert (∀ acc, foldl (λ sum slot, sum + m_duration slot) acc slots
                 = acc + duration options * Z.of_nat (length slots)) as G.
  { induction Hd as [|m slots Hm _ IH]; intros acc; cbn [foldl length]; [lia|].
    rewrite IH, Hm. lia. }
  apply (G 0).
Qed.

(** X20. [getSchedulingStats] counts the slots of both sides and the
    shared dates; its [totalOverlappingHours] is the number of 60-minute
    slots that [findOverlappingSlots] enumerates, and it is 0 when no date
    is shared. *)
Theorem getSchedulingStats_counts cand ivs stats :
  getSchedulingStats cand ivs = Some stats →
  totalCandidateSlots stats = length (slotsOf cand)
  ∧ totalInterviewerSlots stats = length (slotsOf ivs)
  ∧ overlappingDays stats = length (findOverlappingDays cand ivs)
  ∧ (∃ slots,
       findOverlappingSlots cand ivs defaultOptions = Some slots
       ∧ (totalOverlappingHours stats == inject_Z (Z.of_nat (length slots)))%Q)
  ∧ (overlappingDays stats = O → (totalOverlappingHours stats == 0)%Q).
Proof.
  unfold getSchedulingStats. intros H.
  destruct (findOverlappingSlots cand ivs defaultOptions) as [slots|] eqn:Hs; [|done].
  rewrite option_bind_some in H. injection H as <-.
  cbn [totalCandidateSlots totalInterviewerSlots overlappingDays totalOverlappingHours].
  rewrite !totalSlots_length, (sum_durations _ _ _ _ Hs).
  fold (findOverlappingDays cand ivs).
  rewrite foldl_setAdd_NoDup_id by apply findOverlappingDays_NoDup.
  assert (inject_Z (duration defaultOptions * Z.of_nat (length slots)) / inject_Z 60
          == inject_Z (Z.of_nat (length slots)))%Q as Hq.
  { cbn [duration defaultOptions]. rewrite inject_Z_mult. field. }
  repeat split; try done.
  - by exists slots.
  - intros Hdays. apply length_zero_iff_nil in Hdays.
    rewrite (findOverlappingSlots_needs_shared_day _ _ _ Hdays) in Hs.
    injection Hs as <-. reflexivity.
Qed.

Lemma getSchedulingStats_counts_witness :
  ∃ stats,
    getSchedulingStats [mkAvailability "candidate" [mkTimeSlot "2024-01-10" "09:00" "11:00"]]
      [mkAvailability "interviewer-1" [mkTimeSlot "2024-01-10" "09:00" "11:00"]]
    = Some stats
    ∧ overlappingDays stats = 1%nat
    ∧ (totalOverlappingHours stats == 5)%Q.
Proof.
  eexists. split; [reflexivity|]. split; [reflexivity|].
  destruct (getSchedulingStats_counts
              [mkAvailability "candidate" [mkTimeSlot "2024-01-10" "09:00" "11:00"]]
              [mkAvailability "interviewer-1" [mkTimeSlot "2024-01-10" "09:00" "11:00"]]
              _ eq_refl) as (_ & _ & _ & (slots & Hs & Hq) & _).
  vm_compute in Hs. injection Hs as <-. exact Hq.
Defined.

(** ** The date fallback *)

Lemma createScheduledTime_at today C tz (h : list obj) l m :
  h !! l = Some (ObjMatch m) →
  createScheduledTime today C l tz h
  = (<[l := ObjMatch (withFallbackDate today m)]> h,
     scheduledTimeOf C tz (withFallbackDate today m)).
Proof.
  intros Hl. unfold createScheduledTime, withFallbackDate.
  rewrite bind_unfold. unfold readObj at 1. rewrite Hl. cbn [dateOf].
  case_bool_decide as Hd.
  - rewrite bind_unfold. unfold writeDate.
    assert (alter (setDate today) l h
            = <[l := ObjMatch {| m_date := today;
                                 m_startTime := m_startTime m;
                                 m_endTime := m_endTime m;
                                 m_duration := m_duration m;
                                 m_score := m_score m;
                                 m_reasons := m_reasons m;
                                 interviewer_id := interviewer_id m;
                                 interviewer_name := interviewer_name m |}]> h) as ->.
    { apply list_eq. intros i. destruct (decide (i = l)) as [->|Hne].
      - rewrite list_lookup_alter, decide_True, Hl by done.
        rewrite list_lookup_insert_eq by (by eapply lookup_lt_Some). reflexivity.
      - by rewrite list_lookup_alter_ne, list_lookup_insert_ne by done. }
    rewrite bind_unfold.
    erewrite readMatch_at; [done|].
    apply list_lookup_insert_eq. by eapply lookup_lt_Some.
  - rewrite bind_unfold. cbn [mret M_ret]. rewrite bind_unfold.
    rewrite (readMatch_at _ _ _ Hl). by rewrite list_insert_id.
Qed.

(** X21. [createScheduledTime] settles the date of an interview: the
    first call gives an undated interview the date of the day and leaves
    every other object alone; any later call, whatever the day, returns
    what the first returned and writes nothing. *)
Theorem createScheduledTime_settles today later C tz (h : list obj) l m :
  h !! l = Some (ObjMatch m) → today ≠ "" →
  let first := createScheduledTime today C l tz h in
  createScheduledTime later C l tz first.1 = first
  ∧ first.1 = <[l := ObjMatch (withFallbackDate today m)]> h
  ∧ (m_date m ≠ "" → first.1 = h).
Proof.
  intros Hl Htoday. cbv zeta. rewrite (createScheduledTime_at _ _ _ _ _ _ Hl).
  cbn [fst]. split; [|split; [done|]].
  - assert (<[l := ObjMatch (withFallbackDate today m)]> h !! l
            = Some (ObjMatch (withFallbackDate today m))) as Hl'
      by (apply list_lookup_insert_eq; by eapply lookup_lt_Some).
    rewrite (createScheduledTime_at _ _ _ _ _ _ Hl').
    assert (withFallbackDate later (withFallbackDate today m) = withFallbackDate today m)
      as ->.
    { unfold withFallbackDate.
      destruct (decide (m_date m = "")) as [Hd|Hd].
      - rewrite (bool_decide_eq_true_2 _ Hd). cbn [m_date].
        by rewrite bool_decide_eq_false_2.
      - rewrite (bool_decide_eq_false_2 _ Hd). by rewrite bool_decide_eq_false_2. }
    by rewrite list_insert_insert_eq.
  - intros Hd. unfold withFallbackDate. rewrite bool_decide_eq_false_2 by done.
    by rewrite list_insert_id.
Qed.

Lemma createScheduledTime_settles_witness :
  let h := [ObjMatch (mkMatch "" "09:00" "10:00" 60 100 [] None None)] in
  let first := createScheduledTime "2024-01-10" utcCollaborators 0%nat "UTC" h in
  createScheduledTime "2024-02-20" utcCollaborators 0%nat "UTC" first.1 = first
  ∧ first.1
    = <[0%nat := ObjMatch (withFallbackDate "2024-01-10"
                             (mkMatch "" "09:00" "10:00" 60 100 [] None None))]> h
  ∧ ("" ≠ "" → first.1 = h).
Proof.
  apply (createScheduledTime_settles "2024-01-10" "2024-02-20" utcCollaborators "UTC"
           [ObjMatch (mkMatch "" "09:00" "10:00" 60 100 [] None None)] 0%nat
           (mkMatch "" "09:00" "10:00" 60 100 [] None None)); [reflexivity|done].
Defined.

(** ** The interviews and the overlapping days *)

Lemma found_on_overlapping_days cand ivs options users found m :
  findIndividualInterviews cand ivs options users = Some found →
  m ∈ found → m_date m ∈ findOverlappingDays cand ivs.
Proof.
  intros H Hm. apply findIndividualInterviews_firstFit in H.
  apply list_elem_of_split in Hm as (before & after & ->).
  destruct (H before m after eq_refl) as (id & slots & slot & Hslots & Hfind & ->).
  apply find_some in Hfind as [Hin _]. apply list_elem_of_In in Hin.
  apply (findOverlappingSlots_matchFrom _ _ _ _ _ Hslots) in Hin
    as (islot & cslot & overlaps & o & Hi & Hc & Hdate & _ & _ & ->).
  cbn [m_date assignTo toMatch]. apply elem_of_findOverlappingDays. split.
  - by exists cslot.
  - exists islot. split; [|done].
    apply elem_of_slotsOf in Hi as (avail & Hav & Hslot).
    apply elem_of_slotsOf. exists avail. split; [|done].
    unfold recordsOf in Hav. by apply list_elem_of_filter in Hav as [_ ?].
Qed.

(** X22. In a successful response on a request without missing dates,
    every interview is on one of the [overlapping_days] of the summary. *)
Theorem interviews_on_overlapping_days today C request options h :
  datesPresent h request = true →
  success (findOptimalSchedule today C request options h).2 = true →
  let response := (findOptimalSchedule today C request options h).2 in
  ∃ summary interviews,
    availability_summary response = Some summary
    ∧ individual_interviews response = Some interviews
    ∧ Forall (λ r, ir_date r ∈ overlapping_days summary) interviews.
Proof.
  intros Hd. cbv zeta. rewrite findOptimalSchedule_dated by done. cbn [snd].
  unfold scheduleOf, summaryAt.
  destruct (availabilityAt h (candidate_availability request)) as [cand|] eqn:Hc;
    [|done].
  destruct (availabilityAt h (interviewer_availability request)) as [ivs|] eqn:Hi;
    [|done].
  destruct (findIndividualInterviews _ _ _ _) as [found|] eqn:Hf; [|done].
  destruct found as [|m found]; [done|].
  cbn [snd]. rewrite !availabilityAt_fresh_matches, Hc, Hi, !option_bind_some.
  destruct (responseOf _ _ _ _ _) as [response|] eqn:Hr; [|done].
  intros _. cbn [from_option id].
  unfold responseOf in Hr.
  destruct (head (m :: found)); [|done]. rewrite option_bind_some in Hr.
  destruct (scheduledTimeOf _ _ _); [|done]. rewrite option_bind_some in Hr.
  destruct (messageOf _ _ _ _); [|done]. rewrite option_bind_some in Hr.
  destruct (mapM _ (slice _ _ _)); [|done]. rewrite option_bind_some in Hr.
  destruct (mapM (λ slot, slotReportOf slot <$> _) (m :: found)); [|done].
  rewrite !option_bind_some in Hr.
  destruct (mapM (λ i, interviewReportOf i <$> _) (m :: found)) as [interviews|] eqn:E;
    [|done].
  rewrite option_bind_some in Hr. injection Hr as <-.
  exists (summaryOf cand ivs), interviews. split; [done|]. split; [done|].
  apply Forall_forall. intros r Hr.
  destruct (mapM_Some_elem _ _ _ _ E Hr) as (x & Hx & Hxr).
  destruct (scheduledTimeOf C (timezone request) x); [|done]. injection Hxr as <-.
  cbn [ir_date interviewReportOf overlapping_days summaryOf].
  by eapply found_on_overlapping_days.
Qed.

Lemma interviews_on_overlapping_days_witness :
  let response :=
    (findOptimalSchedule "2024-01-10" utcCollaborators requestIdentical noOptions
       heapIdentical).2 in
  ∃ summary interviews,
    availability_summary response = Some summary
    ∧ individual_interviews response = Some interviews
    ∧ Forall (λ r, ir_date r ∈ overlapping_days summary) interviews.
Proof.
  apply (interviews_on_overlapping_days "2024-01-10" utcCollaborators requestIdentical
           noOptions heapIdentical); reflexivity.
Defined.

(** ** The latest record per user *)

Lemma mapLookup_mapSet {V} k k' (v : V) m :
  mapLookup k (mapSet k' v m)
  = if bool_decide (k' = k) then Some v else mapLookup k m.
Proof.
  induction m as [|[k0 v0] m IH]; cbn [mapSet mapLookup].
  - by case_bool_decide.
  - destruct (decide (k0 = k')) as [->|Hne].
    + rewrite (bool_decide_eq_true_2 (k' = k')) by done. cbn [mapLookup].
      by case_bool_decide.
    + rewrite (bool_decide_eq_false_2 (k0 = k')) by done. cbn [mapLookup].
      rewrite IH. destruct (decide (k0 = k)) as [->|Hne'].
      * rewrite (bool_decide_eq_true_2 (k = k)) by done.
        rewrite (bool_decide_eq_false_2 (k' = k)); [done|congruence].
      * by rewrite (bool_decide_eq_false_2 (k0 = k)) by done.
Qed.

Lemma map_fst_mapSet {V} k (v : V) m :
  map fst (mapSet k v m) = setAdd (map fst m) k.
Proof.
  unfold setAdd. induction m as [|[k' v'] m IH]; cbn [mapSet map fst]; [done|].
  destruct (decide (k' = k)) as [->|Hne].
  - rewrite (bool_decide_eq_true_2 (k = k)) by done.
    rewrite bool_decide_eq_true_2; [done|]. apply list_elem_of_here.
  - rewrite (bool_decide_eq_false_2 (k' = k)) by done. cbn [map fst]. rewrite IH.
    destruct (decide (k ∈ map fst m)) as [Hin|Hnin].
    + rewrite (bool_decide_eq_true_2 _ Hin).
      rewrite bool_decide_eq_true_2; [done|]. by apply list_elem_of_further.
    + rewrite (bool_decide_eq_false_2 _ Hnin).
      rewrite bool_decide_eq_false_2; [done|].
      rewrite elem_of_cons. intros [Heq|Hin]; [by apply Hne|done].
Qed.

Lemma mapLookup_entry {V} k (v : V) m :
  NoDup (map fst m) → (k, v) ∈ m → mapLookup k m = Some v.
Proof.
  induction m as [|[k0 v0] m IH]; intros Hnd Hin; [by apply elem_of_nil in Hin|].
  cbn [map fst] in Hnd. apply NoDup_cons in Hnd as [Hk0 Hnd]. cbn [mapLookup].
  apply elem_of_cons in Hin as [[= -> ->]|Hin].
  - by rewrite bool_decide_eq_true_2.
  - rewrite bool_decide_eq_false_2; [by apply IH|].
    intros ->. apply Hk0, list_elem_of_In, in_map_iff. exists (k, v).
    by rewrite <- list_elem_of_In.
Qed.

Section latest_properties.
Variable timeValue : string → num.
Variable keyOf : AvailabilityRecord → string.

Lemma updatedAfter_irrefl r : updatedAfter timeValue r r = false.
Proof. unfold updatedAfter, gt, lt. destruct (timeValue _); [done|]. apply Z.ltb_irrefl. Qed.

Lemma updatedAfter_trans x r e :
  updatedAfter timeValue r e = true → updatedAfter timeValue x e = false →
  updatedAfter timeValue x r = false.
Proof.
  unfold updatedAfter, gt, lt.
  destruct (timeValue (r_updated_at r)), (timeValue (r_updated_at e)),
    (timeValue (r_updated_at x)); try done.
  rewrite Z.ltb_lt, !Z.ltb_ge. lia.
Qed.

Lemma updatedAfter_earlier x r e :
  updatedAfter timeValue r e = true → updatedAfter timeValue x e = false →
  updatedAfter timeValue r x = true ∨ timeValue (r_updated_at x) = NaN.
Proof.
  unfold updatedAfter, gt, lt.
  destruct (timeValue (r_updated_at r)), (timeValue (r_updated_at e)),
    (timeValue (r_updated_at x)); try done; try (by right).
  rewrite !Z.ltb_lt, Z.ltb_ge. left. lia.
Qed.

Lemma latestOf_snoc_other seen r c :
  keyOf r ≠ keyOf c →
  latestOf timeValue keyOf seen c → latestOf timeValue keyOf (seen ++ [r]) c.
Proof.
  intros Hk (i & Hi & Hmax & Hfirst). exists i.
  pose proof (lookup_lt_Some _ _ _ Hi) as Hlt.
  split; [by rewrite lookup_app_l|]. split.
  - intros x Hx Hkx. apply elem_of_app in Hx as [Hx|Hx]; [by apply Hmax|].
    apply list_elem_of_singleton in Hx as ->. done.
  - intros j x Hj Hx. rewrite lookup_app_l in Hx by lia. by apply (Hfirst j).
Qed.

Lemma latestOf_snoc_kept seen r c :
  updatedAfter timeValue r c = false →
  latestOf timeValue keyOf seen c → latestOf timeValue keyOf (seen ++ [r]) c.
Proof.
  intros Hr (i & Hi & Hmax & Hfirst). exists i.
  pose proof (lookup_lt_Some _ _ _ Hi) as Hlt.
  split; [by rewrite lookup_app_l|]. split.
  - intros x Hx Hkx. apply elem_of_app in Hx as [Hx|Hx]; [by apply Hmax|].
    by apply list_elem_of_singleton in Hx as ->.
  - intros j x Hj Hx. rewrite lookup_app_l in Hx by lia. by apply (Hfirst j).
Qed.

Lemma foldl_snoc {A B} (f : A → B → A) a xs x :
  foldl f a (xs ++ [x]) = f (foldl f a xs) x.
Proof. by rewrite foldl_app. Qed.

Lemma keepLatest_inv seen m r :
  latestInv timeValue keyOf seen m → latestInv timeValue keyOf (seen ++ [r]) (keepLatest timeValue keyOf m r).
Proof.
  intros (Hkeys & Hseen & Hlatest). unfold keepLatest.
  assert (∀ m' : list (string * AvailabilityRecord),
            map fst m' = setAdd (map fst m) (keyOf r) →
                map fst m' = foldl setAdd [] (map keyOf (seen ++ [r]))) as Hk.
  { intros m' ->. rewrite map_app. cbn [map]. by rewrite foldl_snoc, Hkeys. }
  destruct (mapLookup (keyOf r) m) as [e|] eqn:He.
  - destruct (Hlatest _ _ He) as [Hke He'].
    assert (keyOf r ∈ map fst m) as Hin.
    { rewrite Hkeys. apply foldl_setAdd_elem. right.
      destruct He' as (i & Hi & _). rewrite <- Hke.
      apply list_elem_of_In, in_map, list_elem_of_In. by eapply list_elem_of_lookup_2. }
    destruct (updatedAfter timeValue r e) eqn:Hre.
    + split; [apply Hk, map_fst_mapSet|]. split.
      * intros x Hx. rewrite mapLookup_mapSet. case_bool_decide; [by eexists|].
        apply elem_of_app in Hx as [Hx|Hx]; [by apply Hseen|].
        apply list_elem_of_singleton in Hx as ->. done.
      * intros k c. rewrite mapLookup_mapSet. case_bool_decide as Hkk.
        -- intros [= <-]. split; [done|]. destruct He' as (i & Hi & Hmax & Hfirst).
           exists (length seen). split; [by rewrite list_lookup_middle|]. split.
           ++ intros x Hx Hkx. apply elem_of_app in Hx as [Hx|Hx].
              ** eapply updatedAfter_trans; [exact Hre|]. apply Hmax; [done|congruence].
              ** apply list_elem_of_singleton in Hx as ->. apply updatedAfter_irrefl.
           ++ intros j x Hj Hx Hkx. rewrite lookup_app_l in Hx by done.
              eapply updatedAfter_earlier; [exact Hre|].
              apply Hmax; [by eapply list_elem_of_lookup_2|congruence].
        -- intros Hc. destruct (Hlatest _ _ Hc) as [Hkc Hl]. split; [done|].
           apply latestOf_snoc_other; [congruence|done].
    + split.
      { apply Hk. unfold setAdd. by rewrite bool_decide_eq_true_2. }
      split.
      * intros x Hx. apply elem_of_app in Hx as [Hx|Hx]; [by apply Hseen|].
        apply list_elem_of_singleton in Hx as ->. by eexists.
      * intros k c Hc. destruct (Hlatest _ _ Hc) as [Hkc Hl]. split; [done|].
        destruct (decide (keyOf r = keyOf c)) as [Heq|Hne].
        -- assert (c = e) as -> by congruence. by apply latestOf_snoc_kept.
        -- by apply latestOf_snoc_other.
  - assert (∀ x, x ∈ seen → keyOf x ≠ keyOf r) as Hnew.
    { intros x Hx Hkx. destruct (Hseen x Hx) as [c Hc]. congruence. }
    split; [apply Hk, map_fst_mapSet|]. split.
    + intros x Hx. rewrite mapLookup_mapSet. case_bool_decide; [by eexists|].
      apply elem_of_app in Hx as [Hx|Hx]; [by apply Hseen|].
      apply list_elem_of_singleton in Hx as ->. done.
    + intros k c. rewrite mapLookup_mapSet. case_bool_decide as Hkk.
      * intros [= <-]. split; [done|].
        exists (length seen). split; [by rewrite list_lookup_middle|]. split.
        -- intros x Hx Hkx. apply elem_of_app in Hx as [Hx|Hx]; [by destruct (Hnew x Hx)|].
           apply list_elem_of_singleton in Hx as ->. apply updatedAfter_irrefl.
        -- intros j x Hj Hx Hkx. rewrite lookup_app_l in Hx by done.
           by destruct (Hnew x (list_elem_of_lookup_2 _ _ _ Hx)).
      * intros Hc. destruct (Hlatest _ _ Hc) as [Hkc Hl]. split; [done|].
        apply latestOf_snoc_other; [congruence|done].
Qed.

Lemma foldl_keepLatest_inv records :
  latestInv timeValue keyOf records (foldl (keepLatest timeValue keyOf) [] records).
Proof.
  induction records as [|r records IH] using rev_ind.
  - split; [done|]. split; [intros r Hr; by apply elem_of_nil in Hr|done].
  - rewrite foldl_snoc. by apply keepLatest_inv.
Qed.

End latest_properties.

Section latest_per_user.
Variable timeValue : string → num.

Lemma getLatest_keys records :
  let latest := getLatestAvailabilityPerUser timeValue (Some records) in
  map userDateKey latest = foldl setAdd [] (map userDateKey records)
  ∧ NoDup (map userDateKey latest).
Proof.
  cbv zeta.
  assert (getLatestAvailabilityPerUser timeValue (Some records)
          = map snd (foldl (keepLatest timeValue userDateKey) [] records)) as ->
    by (by destruct records).
  destruct (foldl_keepLatest_inv timeValue userDateKey records) as (Hkeys & _ & Hlatest).
  set (m := foldl (keepLatest timeValue userDateKey) [] records) in *.
  assert (NoDup (map fst m)) as Hnd
    by (rewrite Hkeys; apply foldl_setAdd_NoDup, NoDup_nil_2).
  assert (map userDateKey (map snd m) = map fst m) as Hk.
  { rewrite map_map. apply map_ext_in. intros [k c] Hin. cbn.
    apply list_elem_of_In in Hin.
    by destruct (Hlatest k c (mapLookup_entry _ _ _ Hnd Hin)). }
  by rewrite Hk.
Qed.

(** X23. [getLatestAvailabilityPerUser] keeps one record per key
    [user_id-date], in the order in which the keys are first met, and the
    record it keeps is the latest of its key; a [null] argument gives the
    empty list. *)
Theorem getLatestAvailabilityPerUser_latest records :
  let latest := getLatestAvailabilityPerUser timeValue (Some records) in
  map userDateKey latest = foldl setAdd [] (map userDateKey records)
  ∧ NoDup (map userDateKey latest)
  ∧ Forall (latestOf timeValue userDateKey records) latest
  ∧ getLatestAvailabilityPerUser timeValue None = [].
Proof.
  cbv zeta.
  assert (getLatestAvailabilityPerUser timeValue (Some records)
          = map snd (foldl (keepLatest timeValue userDateKey) [] records)) as ->
    by (by destruct records).
  destruct (foldl_keepLatest_inv timeValue userDateKey records) as (Hkeys & _ & Hlatest).
  set (m := foldl (keepLatest timeValue userDateKey) [] records) in *.
  assert (NoDup (map fst m)) as Hnd
    by (rewrite Hkeys; apply foldl_setAdd_NoDup, NoDup_nil_2).
  assert (∀ k c, (k, c) ∈ m →
            userDateKey c = k ∧ latestOf timeValue userDateKey records c) as Hm.
  { intros k c Hin. apply Hlatest. by apply mapLookup_entry. }
  assert (map userDateKey (map snd m) = map fst m) as Hk.
  { rewrite map_map. apply map_ext_in. intros [k c] Hin. cbn.
    apply list_elem_of_In in Hin. by destruct (Hm k c Hin). }
  rewrite Hk. split; [done|]. split; [done|]. split; [|done].
  apply Forall_forall. intros c Hc.
  apply list_elem_of_In, in_map_iff in Hc as ([k c'] & <- & Hin).
  apply list_elem_of_In in Hin. by destruct (Hm k c' Hin).
Qed.
End latest_per_user.

Section latest_twice.
Variable timeValue : string → num.
Variable keyOf : AvailabilityRecord → string.

Lemma foldl_keepLatest_distinct records m :
  NoDup (map fst m ++ map keyOf records) →
  foldl (keepLatest timeValue keyOf) m records
  = m ++ map (λ r, (keyOf r, r)) records.
Proof.
  revert m. induction records as [|r records IH]; intros m Hnd; cbn [foldl map].
  { by rewrite app_nil_r. }
  assert (keyOf r ∉ map fst m) as Hnew.
  { apply NoDup_app in Hnd as (_ & Hnd & _). intros Hin.
    apply (Hnd _ Hin), list_elem_of_here. }
  assert (keepLatest timeValue keyOf m r = m ++ [(keyOf r, r)]) as ->.
  { unfold keepLatest. clear -Hnew.
    induction m as [|[k v] m IH]; [done|]. cbn [map fst] in Hnew.
    apply not_elem_of_cons in Hnew as [Hk Hnew]. cbn [mapLookup mapSet].
    rewrite bool_decide_eq_false_2 by done. specialize (IH Hnew).
    destruct (mapLookup (keyOf r) m) as [e|].
    - destruct (updatedAfter timeValue r e).
      + by rewrite IH.
      + exfalso. apply (f_equal length) in IH. rewrite length_app in IH. cbn in IH. lia.
    - by rewrite IH. }
  rewrite IH.
  - by rewrite <- app_assoc.
  - rewrite map_app. cbn [map fst]. by rewrite <- app_assoc.
Qed.

End latest_twice.

Section latest_per_user_twice.
Variable timeValue : string → num.

(** X24. Applying [getLatestAvailabilityPerUser] to its own result
    changes nothing. *)
Theorem getLatestAvailabilityPerUser_twice records :
  getLatestAvailabilityPerUser timeValue
    (Some (getLatestAvailabilityPerUser timeValue records))
  = getLatestAvailabilityPerUser timeValue records.
Proof.
  destruct records as [records|]; [|done].
  pose proof (getLatest_keys timeValue records) as Hkeys. cbv zeta in Hkeys.
  destruct Hkeys as [_ Hnd].
  destruct (getLatestAvailabilityPerUser timeValue (Some records)) as [|r result];
    [done|].
  unfold getLatestAvailabilityPerUser at 1.
  rewrite foldl_keepLatest_distinct by done.
  cbn [app]. rewrite map_map. cbn [snd]. by rewrite map_id.
Qed.
End latest_per_user_twice.

(** ** Interviews and windows *)

Lemma found_from_windows cand ivs options users found m :
  findIndividualInterviews cand ivs options users = Some found →
  m ∈ found →
  ∃ interviewerId interviewerSlot candidateSlot overlaps o,
    interviewer_id m = Some interviewerId
    ∧ interviewerSlot ∈ slotsOf (recordsOf interviewerId ivs)
    ∧ candidateSlot ∈ slotsOf cand
    ∧ ts_date candidateSlot = ts_date interviewerSlot
    ∧ findTimeSlotOverlap interviewerSlot candidateSlot (duration options)
      = Some overlaps
    ∧ o ∈ overlaps
    ∧ proposedOf m = mkTimeSlot (ts_date interviewerSlot) (ts_start o) (ts_end o).
Proof.
  intros H Hm. apply findIndividualInterviews_firstFit in H.
  apply list_elem_of_split in Hm as (before & after & ->).
  destruct (H before m after eq_refl) as (id & slots & slot & Hslots & Hfind & ->).
  apply find_some in Hfind as [Hin _]. apply list_elem_of_In in Hin.
  apply (findOverlappingSlots_matchFrom _ _ _ _ _ Hslots) in Hin
    as (islot & cslot & overlaps & o & Hi & Hc & Hdate & Ho & Hin & ->).
  by exists id, islot, cslot, overlaps, o.
Qed.

(** X25. Every interview comes from a window of its interviewer and a
    window of the candidate of the same date, and when these two windows
    meet the interview lies inside both and lasts [duration] minutes. *)
Theorem interview_inside_meeting_windows cand ivs options users found m :
  findIndividualInterviews cand ivs options users = Some found →
  m ∈ found → 0 < duration options →
  ∃ interviewerId interviewerSlot candidateSlot,
    interviewer_id m = Some interviewerId
    ∧ interviewerSlot ∈ slotsOf (recordsOf interviewerId ivs)
    ∧ candidateSlot ∈ slotsOf cand
    ∧ ts_date candidateSlot = ts_date interviewerSlot
    ∧ ∀ s1 e1 s2 e2,
        timeOfDay (ts_start interviewerSlot) s1 → timeOfDay (ts_end interviewerSlot) e1 →
        timeOfDay (ts_start candidateSlot) s2 → timeOfDay (ts_end candidateSlot) e2 →
        Z.max s1 s2 ≤ Z.min e1 e2 →
        fitsIn (ts_date interviewerSlot) (Z.max s1 s2) (Z.min e1 e2) (duration options)
          (proposedOf m).
Proof.
  intros H Hm Hd.
  destruct (found_from_windows _ _ _ _ _ _ H Hm)
    as (id & islot & cslot & overlaps & o & Hid & Hi & Hc & Hdate & Ho & Hin & Hp).
  exists id, islot, cslot.
  split; [done|]. split; [done|]. split; [done|]. split; [done|].
  intros s1 e1 s2 e2 Ts1 Te1 Ts2 Te2 Hmeet.
  destruct (findTimeSlotOverlap_meeting_windows islot cslot (duration options)
              s1 e1 s2 e2 Ts1 Te1 Ts2 Te2 Hd Hmeet) as (slots & Hs & Hfit & _).
  assert (slots = overlaps) as -> by congruence.
  rewrite Forall_forall in Hfit. destruct (Hfit o Hin) as (_ & a & b & Ha & Hb & ?).
  rewrite Hp. split; [done|]. by exists a, b.
Qed.

Lemma interview_inside_meeting_windows_witness :
  ∃ interviewerId interviewerSlot candidateSlot,
    interviewer_id interview1 = Some interviewerId
    ∧ interviewerSlot ∈ slotsOf (recordsOf interviewerId [interviewer1; interviewer2])
    ∧ candidateSlot ∈ slotsOf oneCandidate
    ∧ ts_date candidateSlot = ts_date interviewerSlot
    ∧ ∀ s1 e1 s2 e2,
        timeOfDay (ts_start interviewerSlot) s1 → timeOfDay (ts_end interviewerSlot) e1 →
        timeOfDay (ts_start candidateSlot) s2 → timeOfDay (ts_end candidateSlot) e2 →
        Z.max s1 s2 ≤ Z.min e1 e2 →
        fitsIn (ts_date interviewerSlot) (Z.max s1 s2) (Z.min e1 e2) (duration options3015)
          (proposedOf interview1).
Proof.
  apply (interview_inside_meeting_windows oneCandidate [interviewer1; interviewer2]
           options3015 None [interview1] interview1).
  - vm_compute. reflexivity.
  - apply list_elem_of_here.
  - reflexivity.
Defined.

(** ** A feasible overlap is scheduled *)

Lemma room_gives_slots cand ivs options islot cslot :
  0 < duration options →
  islot ∈ slotsOf ivs → cslot ∈ slotsOf cand →
  roomFor (duration options) islot cslot →
  ∀ slots, findOverlappingSlots cand ivs options = Some slots → slots ≠ [].
Proof.
  intros Hd Hi Hc (Hdate & s1 & e1 & s2 & e2 & Ts1 & Te1 & Ts2 & Te2 & Hroom) slots Hs.
  destruct (findTimeSlotOverlap_meeting_windows islot cslot (duration options)
              s1 e1 s2 e2 Ts1 Te1 Ts2 Te2 Hd ltac:(lia)) as (overlaps & Ho & _ & Hne).
  specialize (Hne Hroom). destruct overlaps as [|o overlaps]; [done|].
  assert (toMatch options islot o ∈ slots) as Hin.
  { apply (findOverlappingSlots_matchFrom _ _ _ _ _ Hs).
    exists islot, cslot, (o :: overlaps), o. repeat split; try done.
    apply list_elem_of_here. }
  intros ->. by apply elem_of_nil in Hin.
Qed.

Lemma found_nonempty cand ivs options users found islot cslot :
  findIndividualInterviews cand ivs options users = Some found →
  0 < duration options →
  islot ∈ slotsOf ivs → cslot ∈ slotsOf cand →
  roomFor (duration options) islot cslot →
  found ≠ [].
Proof.
  intros H Hd Hi Hc Hroom ->.
  apply elem_of_slotsOf in Hi as (avail & Hav & Hslot).
  destruct (left_out_without_free_slot cand ivs options users [] (user_id avail) H)
    as (slots & Hslots & Hall).
  { apply list_elem_of_In, in_map, list_elem_of_In. done. }
  { cbn. apply not_elem_of_nil. }
  assert (slots ≠ []) as Hne.
  { eapply (room_gives_slots cand (recordsOf (user_id avail) ivs)); try done.
    apply elem_of_slotsOf. exists avail. split; [|done].
    unfold recordsOf. by apply list_elem_of_filter. }
  destruct slots as [|slot slots]; [done|].
  apply Forall_cons in Hall as [Hfree _]. unfold freeAfter in Hfree. cbn in Hfree.
  discriminate Hfree.
Qed.

(** X26. When a window of some interviewer and a window of the candidate
    of the same date share enough time for the interview, a request that
    passes validation is scheduled: the assigner finds an interview, and
    the response is a success unless [zonedTimeToUtc] throws on one of
    the interviews found or [format] on the date of the first, in which
    case it is the failure response; it is never the no-overlap
    response. *)
Theorem feasible_request_succeeds today C request options h cand ivs islot cslot :
  availabilityAt h (candidate_availability request) = Some cand →
  availabilityAt h (interviewer_availability request) = Some ivs →
  valid (validateAvailability cand) = true →
  valid (validateAvailability ivs) = true →
  islot ∈ slotsOf ivs → cslot ∈ slotsOf cand →
  0 < orElse (interview_duration request) 60 →
  roomFor (orElse (interview_duration request) 60) islot cslot →
  let response := (findOptimalSchedule today C request options h).2 in
  ∃ found,
    findIndividualInterviews cand ivs
      (mergeOptions options (interview_duration request)) (users request) = Some found
    ∧ found ≠ []
    ∧ (success response = true ↔ ¬ libraryThrowsOn C (timezone request) found)
    ∧ (response = failedResponse ↔ libraryThrowsOn C (timezone request) found)
    ∧ response ≠ noOverlapResponse.
Proof.
  intros Hc Hi Vc Vi Hislot Hcslot Hd Hroom response.
  destruct (validated_outcome today C request options h cand ivs Hc Hi Vc Vi)
    as (found & Hf & Hout).
  fold response in Hout. exists found. split; [done|].
  pose proof (found_nonempty cand ivs _ (users request) found islot cslot Hf Hd
                Hislot Hcslot Hroom) as Hne.
  split; [done|]. destruct found as [|m found]; [done|].
  destruct Hout as [[Ht ->]|[Ht Hs]].
  - split; [|split; [done|done]]. split; [done|]. by intros [].
  - split; [done|]. split.
    + split; [|done]. intros E. rewrite E in Hs. discriminate Hs.
    + intros E. rewrite E in Hs. discriminate Hs.
Qed.

Lemma feasible_request_succeeds_witness :
  success (findOptimalSchedule "2024-01-10" utcCollaborators requestIdentical noOptions
             heapIdentical).2 = true.
Proof.
  destruct (feasible_request_succeeds "2024-01-10" utcCollaborators requestIdentical
              noOptions heapIdentical oneCandidate [interviewer1; interviewer2]
              window0910 window0910) as (found & _ & _ & Hok & _).
  - reflexivity.
  - reflexivity.
  - reflexivity.
  - reflexivity.
  - apply list_elem_of_here.
  - apply list_elem_of_here.
  - reflexivity.
  - split; [reflexivity|]. exists 540, 600, 540, 600.
    repeat split; try reflexivity; try lia; vm_compute; congruence.
  - apply Hok. intros [(m & _ & Hm)|(first & _ & Hm)]; discriminate Hm.
Defined.

(** ** The most recent submission *)

Section submission_properties.
Variable timeValue : string → num.
Variable toISOString : string → option string.

Lemma truthy_Some x : truthy x = true → ∃ s, x = Some s ∧ s ≠ "".
Proof. destruct x as [[|c s]|]; try done. intros _. by eexists. Qed.

Lemma addSlot_inv record seen dateMap slot dateMap' :
  dateMapInv record seen dateMap →
  addSlot toISOString record dateMap slot = Some dateMap' →
  dateMapInv record (seen ++ [slot]) dateMap'.
Proof.
  intros (Hnd & Hkeys & Hgroups) H. unfold addSlot in H.
  set (slotDate := if truthy (rs_date slot) then rs_date slot else r_date record) in H.
  assert (slotDateOf record slot = if truthy slotDate then slotDate else None) as Hsd.
  { unfold slotDateOf, slotDate. destruct (truthy (rs_date slot)) eqn:E; [by rewrite E|].
    by destruct (truthy (r_date record)). }
  destruct (truthy slotDate) eqn:Ht.
  - destruct (truthy_Some _ Ht) as (date & Hdate & Hne). rewrite Hdate in H, Hsd.
    cbn [default] in H.
    destruct (localTime toISOString (rs_start slot)) as [startTime|]; [|done].
    rewrite option_bind_some in H.
    destruct (localTime toISOString (rs_end slot)) as [endTime|]; [|done].
    rewrite option_bind_some in H. injection H as <-.
    split; [|split].
    + rewrite map_fst_mapPush. by apply setAdd_NoDup.
    + intros d. rewrite map_fst_mapPush. unfold setAdd. case_bool_decide; [apply Hkeys|].
      rewrite elem_of_app, list_elem_of_singleton. intros [?| ->]; [by apply Hkeys|done].
    + intros d. rewrite mapGet_mapPush_eq, filter_app, length_app.
      destruct (Hgroups d) as [Hlen Hundated].
      rewrite filter_cons, filter_nil, Hsd.
      destruct (decide (Some date = Some d)) as [[= ->]|Hne'].
      * rewrite bool_decide_eq_true_2 by done. rewrite length_app, Hlen. split; [done|].
        apply Forall_app. split; [done|]. by constructor.
      * rewrite bool_decide_eq_false_2 by congruence. cbn [length].
        rewrite Nat.add_0_r. done.
  - injection H as <-. split; [done|]. split; [done|].
    intros d. rewrite filter_app, length_app, filter_cons, filter_nil, Hsd.
    rewrite decide_False by done. cbn [length]. rewrite Nat.add_0_r. apply Hgroups.
Qed.

Lemma forOf_addSlot_inv record slots :
  ∀ seen dateMap dateMap',
    dateMapInv record seen dateMap →
    forOf (addSlot toISOString record) dateMap slots = Some dateMap' →
    dateMapInv record (seen ++ slots) dateMap'.
Proof.
  induction slots as [|slot slots IH]; intros seen dateMap dateMap' Hinv H.
  - cbn in H. injection H as <-. by rewrite app_nil_r.
  - cbn [forOf] in H.
    destruct (addSlot toISOString record dateMap slot) as [m1|] eqn:E; [|done].
    rewrite option_bind_some in H.
    replace (seen ++ slot :: slots) with ((seen ++ [slot]) ++ slots)
      by (by rewrite <- app_assoc).
    eapply IH; [|exact H]. by eapply addSlot_inv.
Qed.

Lemma expandByDate_expanded record outs :
  expandByDate toISOString record = Some outs →
  Forall (expandedFrom record) outs ∧ NoDup (map r_date outs).
Proof.
  unfold expandByDate. intros H.
  assert (∃ dateMap,
            forOf (addSlot toISOString record) [] (rawSlotsOf record) = Some dateMap
            ∧ outs = map (λ entry,
                   {| r_id := r_id record;
                      r_user_id := r_user_id record;
                      r_scheduler_id := r_scheduler_id record;
                      r_date := Some entry.1;
                      r_time_slots := SlotArray entry.2;
                      r_timezone := r_timezone record;
                      r_created_at := r_created_at record;
                      r_updated_at := r_updated_at record |}) dateMap)
    as (dateMap & Hloop & ->).
  { unfold rawSlotsOf. destruct (r_time_slots record) as [|slots|slot].
    - injection H as <-. by exists [].
    - destruct (forOf _ _ slots) as [dateMap|]; [|done]. injection H as <-. by eexists.
    - destruct (forOf _ _ [slot]) as [dateMap|]; [|done]. injection H as <-. by eexists. }
  clear H.
  destruct (forOf_addSlot_inv record (rawSlotsOf record) [] [] dateMap) as
    (Hnd & Hkeys & Hgroups); [|done|].
  { split; [constructor|]. split; [intros d Hd; by apply elem_of_nil in Hd|].
    intros d. cbn. split; [done|constructor]. }
  cbn [app] in Hgroups. split.
  - apply Forall_forall. intros o Ho.
    apply list_elem_of_In, in_map_iff in Ho as ([date slots] & <- & Hin).
    apply list_elem_of_In in Hin. repeat split.
    exists date, slots. cbn [r_date r_time_slots fst snd].
    pose proof (mapGet_entry _ _ _ Hnd Hin) as Hget.
    destruct (Hgroups date) as [Hlen Hundated]. rewrite Hget in Hlen, Hundated.
    repeat split; try done.
    apply Hkeys, list_elem_of_In, in_map_iff. exists (date, slots).
    by rewrite <- list_elem_of_In.
  - rewrite map_map. cbn [r_date].
    change (map (λ x : string * list RawSlot, Some x.1) dateMap)
      with (map (λ x : string * list RawSlot, Some (fst x)) dateMap).
    rewrite <- (map_map fst Some). by apply NoDup_map_Some.
Qed.

Lemma latest_records_of_users records :
  let latest := map snd (foldl (keepLatest timeValue r_user_id) [] records) in
  NoDup (map r_user_id latest)
  ∧ Forall (latestOf timeValue r_user_id records) latest.
Proof.
  cbv zeta.
  destruct (foldl_keepLatest_inv timeValue r_user_id records) as (Hkeys & _ & Hlatest).
  set (m := foldl (keepLatest timeValue r_user_id) [] records) in *.
  assert (NoDup (map fst m)) as Hnd
    by (rewrite Hkeys; apply foldl_setAdd_NoDup, NoDup_nil_2).
  assert (∀ k c, (k, c) ∈ m →
            r_user_id c = k ∧ latestOf timeValue r_user_id records c) as Hm.
  { intros k c Hin. apply Hlatest. by apply mapLookup_entry. }
  assert (map r_user_id (map snd m) = map fst m) as Hk.
  { rewrite map_map. apply map_ext_in. intros [k c] Hin. cbn.
    apply list_elem_of_In in Hin. by destruct (Hm k c Hin). }
  rewrite Hk. split; [done|].
  apply Forall_forall. intros c Hc.
  apply list_elem_of_In, in_map_iff in Hc as ([k c'] & <- & Hin).
  apply list_elem_of_In in Hin. by destruct (Hm k c' Hin).
Qed.

Lemma expanded_NoDup latest perUser :
  NoDup (map r_user_id latest) →
  mapM (expandByDate toISOString) latest = Some perUser →
  NoDup (map (λ out, (r_user_id out, r_date out)) (concat perUser)).
Proof.
  revert perUser. induction latest as [|record latest IH]; intros perUser Hnd H.
  - injection H as <-. constructor.
  - cbn [mapM] in H.
    destruct (expandByDate toISOString record) as [outs|] eqn:E; [|done].
    rewrite option_bind_some in H.
    destruct (mapM _ latest) as [rest|] eqn:Er; [|done]. injection H as <-.
    cbn [map] in Hnd. apply NoDup_cons in Hnd as [Hnew Hnd].
    destruct (expandByDate_expanded _ _ E) as [Hexp Hdates].
    cbn [concat]. rewrite map_app. apply NoDup_app. split; [|split].
    + assert (map (λ out, (r_user_id out, r_date out)) outs
              = map (pair (r_user_id record)) (map r_date outs)) as ->.
      { rewrite map_map. apply map_ext_in. intros o Ho.
        rewrite Forall_forall in Hexp.
        destruct (Hexp o ltac:(by apply list_elem_of_In)) as (_ & -> & _). done. }
      by apply (NoDup_fmap_2 (pair (r_user_id record))).
    + intros [user date] Hin Hin'.
      apply list_elem_of_In, in_map_iff in Hin as (o & [= <- <-] & Ho).
      apply list_elem_of_In, in_map_iff in Hin' as (o' & [= Huser _] & Ho').
      apply list_elem_of_In in Ho, Ho'.
      rewrite Forall_forall in Hexp. destruct (Hexp o Ho) as (_ & Hu & _).
      destruct (mapM_concat_elem _ _ _ _ Er Ho') as (record' & outs' & Hrec & Hexp' & Hin').
      destruct (expandByDate_expanded _ _ Hexp') as [Hexp'' _].
      rewrite Forall_forall in Hexp''. destruct (Hexp'' o' Hin') as (_ & Hu' & _).
      apply Hnew, list_elem_of_In, in_map_iff. exists record'.
      split; [congruence|by apply list_elem_of_In].
    + by apply IH.
Qed.

(** X27. On records of the new schema,
    [getMostRecentAvailabilitySubmission] splits the latest record of each
    user into one record per date: every record returned is made from the
    latest record of its user, carries a non-empty date and as many
    undated slots as that record has slots of that date, and no two
    records returned have the same user and date.  An empty list gives an
    empty list, and a [null] argument throws. *)
Theorem getMostRecentAvailabilitySubmission_new_schema firstRecord rest outs :
  hasNewSchema firstRecord = true →
  getMostRecentAvailabilitySubmission timeValue toISOString (Some (firstRecord :: rest))
  = Some outs →
  Forall (λ out, ∃ record,
            latestOf timeValue r_user_id (firstRecord :: rest) record
            ∧ expandedFrom record out) outs
  ∧ NoDup (map (λ out, (r_user_id out, r_date out)) outs)
  ∧ getMostRecentAvailabilitySubmission timeValue toISOString (Some []) = Some []
  ∧ getMostRecentAvailabilitySubmission timeValue toISOString None = None.
Proof.
  intros Hnew H. set (records := firstRecord :: rest) in *.
  unfold getMostRecentAvailabilitySubmission in H. rewrite option_bind_some in H.
  unfold records at 1 in H. rewrite Hnew in H. fold records in H.
  destruct (latest_records_of_users records) as [Hnd Hlatest].
  destruct (mapM _ (map snd _)) as [perUser|] eqn:E; [|done].
  rewrite option_bind_some in H. injection H as <-.
  split; [|split; [by eapply expanded_NoDup|done]].
  apply Forall_forall. intros out Hout.
  destruct (mapM_concat_elem _ _ _ _ E Hout) as (record & group & Hrec & Hexp & Hin).
  exists record. split.
  - rewrite Forall_forall in Hlatest. by apply Hlatest.
  - destruct (expandByDate_expanded _ _ Hexp) as [Hall _].
    rewrite Forall_forall in Hall. by apply Hall.
Qed.

(** X28. On records of the old schema,
    [getMostRecentAvailabilitySubmission] returns, user by user in the
    order in which the users are first met, the records that share the
    user and the [updated_at] of that user's latest record, the latest
    record among them; on records of neither schema it returns its
    argument. *)
Theorem getMostRecentAvailabilitySubmission_old_schema firstRecord rest :
  hasNewSchema firstRecord = false →
  let records := firstRecord :: rest in
  (hasOldSchema firstRecord = false →
   getMostRecentAvailabilitySubmission timeValue toISOString (Some records)
   = Some records)
  ∧ (hasOldSchema firstRecord = true →
     ∃ latest,
       map r_user_id latest = foldl setAdd [] (map r_user_id records)
       ∧ Forall (latestOf timeValue r_user_id records) latest
       ∧ getMostRecentAvailabilitySubmission timeValue toISOString (Some records)
         = Some (concat (map (λ latestRecord,
                     filter (λ record,
                               r_user_id record = r_user_id latestRecord
                               ∧ r_updated_at record = r_updated_at latestRecord)
                            records) latest))
       ∧ Forall (λ latestRecord,
                   latestRecord ∈ filter (λ record,
                               r_user_id record = r_user_id latestRecord
                               ∧ r_updated_at record = r_updated_at latestRecord)
                            records) latest).
Proof.
  intros Hnew records.
  assert (getMostRecentAvailabilitySubmission timeValue toISOString (Some records)
          = if hasOldSchema firstRecord
            then Some (concat (map (λ latestRecord,
                     filter (λ record,
                               r_user_id record = r_user_id latestRecord
                               ∧ r_updated_at record = r_updated_at latestRecord)
                            records)
                     (map snd (foldl (keepLatest timeValue r_user_id) [] records))))
            else Some records) as ->.
  { unfold getMostRecentAvailabilitySubmission, records.
    by rewrite option_bind_some, Hnew. }
  split; [by intros ->|]. intros ->.
  exists (map snd (foldl (keepLatest timeValue r_user_id) [] records)).
  destruct (latest_records_of_users records) as [Hnd Hlatest].
  destruct (foldl_keepLatest_inv timeValue r_user_id records) as (Hkeys & _ & Hl).
  split; [|split; [done|split; [done|]]].
  - rewrite <- Hkeys, map_map. apply map_ext_in. intros [k c] Hin. cbn.
    apply list_elem_of_In in Hin. apply (Hl k c), mapLookup_entry; [|done].
    rewrite Hkeys. apply foldl_setAdd_NoDup, NoDup_nil_2.
  - eapply Forall_impl; [exact Hlatest|]. intros c (i & Hi & _). cbv beta.
    apply list_elem_of_filter. split; [done|]. by eapply list_elem_of_lookup_2.
Qed.
End submission_properties.

Lemma getMostRecentAvailabilitySubmission_new_schema_witness :
  let outs :=
    default [] (getMostRecentAvailabilitySubmission lengthClock Some
                  (Some [firstSubmission; secondSubmission])) in
  Forall (λ out, ∃ record,
            latestOf lengthClock r_user_id [firstSubmission; secondSubmission] record
            ∧ expandedFrom record out) outs
  ∧ NoDup (map (λ out, (r_user_id out, r_date out)) outs)
  ∧ getMostRecentAvailabilitySubmission lengthClock Some (Some []) = Some []
  ∧ getMostRecentAvailabilitySubmission lengthClock Some None = None.
Proof.
  apply (getMostRecentAvailabilitySubmission_new_schema lengthClock Some
           firstSubmission [secondSubmission]); reflexivity.
Defined.

Lemma getMostRecentAvailabilitySubmission_old_schema_witness :
  let records := [legacySubmission] in
  (hasOldSchema legacySubmission = false →
   getMostRecentAvailabilitySubmission lengthClock Some (Some records) = Some records)
  ∧ (hasOldSchema legacySubmission = true →
     ∃ latest,
       map r_user_id latest = foldl setAdd [] (map r_user_id records)
       ∧ Forall (latestOf lengthClock r_user_id records) latest
       ∧ getMostRecentAvailabilitySubmission lengthClock Some (Some records)
         = Some (concat (map (λ latestRecord,
                     filter (λ record,
                               r_user_id record = r_user_id latestRecord
                               ∧ r_updated_at record = r_updated_at latestRecord)
                            records) latest))
       ∧ Forall (λ latestRecord,
                   latestRecord ∈ filter (λ record,
                               r_user_id record = r_user_id latestRecord
                               ∧ r_updated_at record = r_updated_at latestRecord)
                            records) latest).
Proof.
  apply (getMostRecentAvailabilitySubmission_old_schema lengthClock Some
           legacySubmission []). reflexivity.
Defined.

(** ** The summary of a request *)

(** X29. [generateAvailabilitySummary] accounts for every slot of the
    request, on both sides: its dates once each in first-seen order, under
    each date the slots of that date, and totals that count them;
    [total_interviewers] counts the interviewers' availability records,
    [overlapping_days] are the dates of [findOverlappingDays], and nothing
    is written. *)
Theorem generateAvailabilitySummary_accounts request h cand ivs :
  availabilityAt h (candidate_availability request) = Some cand →
  availabilityAt h (interviewer_availability request) = Some ivs →
  ∃ summary,
    generateAvailabilitySummary request h = (h, Some summary)
    ∧ accountsFor (candidate summary) cand
    ∧ accountsFor (interviewers summary) ivs
    ∧ total_interviewers (interviewers summary) = Some (length ivs)
    ∧ overlapping_days summary = findOverlappingDays cand ivs.
Proof.
  intros Hc Hi. exists (summaryOf cand ivs).
  rewrite generateAvailabilitySummary_pure. unfold summaryAt.
  rewrite Hc, Hi, !option_bind_some. split; [done|].
  destruct (dateMapOf_accounts cand) as (Hk & Hs & Hg).
  destruct (dateMapOf_accounts ivs) as (Hk' & Hs' & Hg').
  unfold accountsFor, summaryOf.
  cbn [candidate interviewers availability_by_date total_days total_slots
       total_interviewers overlapping_days].
  rewrite !totalSlots_length, Hs, Hs', <- Hk, <- Hk', !length_map. done.
Qed.

Lemma generateAvailabilitySummary_accounts_witness :
  ∃ summary,
    generateAvailabilitySummary requestIdentical heapIdentical
    = (heapIdentical, Some summary)
    ∧ accountsFor (candidate summary) oneCandidate
    ∧ accountsFor (interviewers summary) [interviewer1; interviewer2]
    ∧ total_interviewers (interviewers summary) = Some 2%nat
    ∧ overlapping_days summary
      = findOverlappingDays oneCandidate [interviewer1; interviewer2].
Proof.
  apply (generateAvailabilitySummary_accounts requestIdentical heapIdentical
           oneCandidate [interviewer1; interviewer2]); reflexivity.
Defined.

(** ** A buffer of zero *)

Lemma forOf_ext {S A} (f g : S → A → option S) xs st :
  (∀ st x, f st x = g st x) → forOf f st xs = forOf g st xs.
Proof.
  intros H. revert st. induction xs as [|x xs IH]; intros st; [done|].
  cbn [forOf]. rewrite H. destruct (g st x) as [st'|]; [|done].
  rewrite !option_bind_some. apply IH.
Qed.

Lemma findOverlappingSlots_duration cand ivs o o' :
  duration o = duration o' →
  findOverlappingSlots cand ivs o = findOverlappingSlots cand ivs o'.
Proof.
  intros Hd. unfold findOverlappingSlots. f_equal. apply mapM_ext. intros avail.
  unfold overlapsOfAvailability. f_equal. apply mapM_ext. intros slot.
  unfold overlapsOfSlot. destruct (candidateMapOf cand !! ts_date slot); [|done].
  f_equal. apply mapM_ext. intros c. rewrite Hd.
  destruct (findTimeSlotOverlap slot c (duration o')); [|done].
  cbn. f_equal. apply map_ext. intros x. unfold toMatch. by rewrite Hd.
Qed.

Lemma findIndividualInterviews_same_effect cand ivs o o' users :
  duration o = duration o' →
  orElse (bufferTime o) 15 = orElse (bufferTime o') 15 →
  findIndividualInterviews cand ivs o users = findIndividualInterviews cand ivs o' users.
Proof.
  intros Hd Hb. rewrite !second_pass_drops. f_equal.
  apply forOf_ext. intros st id. unfold pass1Step.
  rewrite (findOverlappingSlots_duration _ _ o o' Hd). by rewrite Hb.
Qed.

(** X30. A buffer of zero cannot be asked for: [findOptimalSchedule]
    with [{bufferTime: 0}] does exactly what it does with
    [{bufferTime: 15}]. *)
Theorem zero_buffer_is_fifteen today C request options h :
  findOptimalSchedule today C request (withBufferTime 0 options) h
  = findOptimalSchedule today C request (withBufferTime 15 options) h.
Proof.
  unfold findOptimalSchedule. rewrite !scheduleBody_unfold.
  destruct (availabilityAt h (candidate_availability request)) as [cand|]; [|done].
  destruct (availabilityAt h (interviewer_availability request)) as [ivs|]; [|done].
  set (o := mergeOptions (withBufferTime 0 options) (interview_duration request)).
  set (o' := mergeOptions (withBufferTime 15 options) (interview_duration request)).
  rewrite (findIndividualInterviews_same_effect cand ivs o o') by done.
  destruct (findIndividualInterviews cand ivs o' (users request)) as [[|m found]|];
    [done| |done].
  by unfold buildResponse.
Qed.
